(** * Tegu reservation control plane: a shallow embedding and its properties

    The first part gives the definitions, one module per Go source file:

    - [Int64]          two's complement arithmetic of Go's [int64]
    - [GoStrings]      [strings.Split] on a blank
    - [PledgeWindow]   gizmos/pledge_window.go
    - [NetReq]         managers/net_req.go
    - [PathM]          gizmos/path.go
    - [ResMgr]         managers/res_mgr.go
    - [AgentMgr]       managers/agent.go
    - [FqSteer]        managers/fq_mgr_steer.go
    - [Samples]        a small network, inventory and steering request

    The second part gives the properties, in modules named after the ones
    they are about; its last section, "Further properties of the modelled
    code", covers the edge cases, invariants and round trips of the same
    files ([PledgeWindowMore], [PathMore], [PathEndpointFacts],
    [PathIntermedFacts], [NetReqMore], [ResMgrMore], [AgentMgrMore],
    [FqSteerMore]).

    Conventions.  A function that reads the wall clock once
    ([time.Now().Unix()]) takes the value read as an argument named [now].
    The reservation manager, which also talks to the network manager and to
    the flow-queue manager, is written as computations ([ResMgr.prog]) whose
    steps are those effects.  Pointers that the code tests against [nil] are
    options; a pointer receiver is an address in a heap where a claim is
    about what a method leaves untouched.  Run-time panics (index out of
    range, nil dereference) are the [None] outcome of the functions that can
    raise them.  Go's [int] is used for counters and indices only where they
    start at zero and grow, and those are natural numbers here; times,
    ports and priorities are integers.  Logging is left out. *)

From stdpp Require Import gmap strings list pretty.
From Stdlib Require Import ZArith Lia Ascii.

(* ====================================================================== *)
(** * Definitions                                                          *)
(* ====================================================================== *)

(** ** Go's [int64] *)
Module Int64.
Local Open Scope Z_scope.

Definition min_int : Z := - 2 ^ 63.
Definition max_int : Z := 2 ^ 63 - 1.

Definition in_range (z : Z) : Prop := min_int <= z <= max_int.

(** The value an [int64] holds after an arithmetic operation whose
    mathematical result is [z]. *)
Definition wrap (z : Z) : Z := (z + 2 ^ 63) mod 2 ^ 64 - 2 ^ 63.

Definition add (a b : Z) : Z := wrap (a + b).
Definition sub (a b : Z) : Z := wrap (a - b).
End Int64.

(** ** Go's [strings] package *)
Module GoStrings.
(** [strings.Split( s, " " )]: the pieces of [s] between blanks, empty
    pieces included; a string without blanks is its own single piece. *)
Fixpoint Split_sp (s : string) : list string :=
  match s with
  | EmptyString => [EmptyString]
  | String c rest =>
      if Ascii.eqb c " "%char then EmptyString :: Split_sp rest
      else match Split_sp rest with
           | h :: t => String c h :: t
           | [] => [String c EmptyString]
           end
  end.

(** The number of blanks in a string. *)
Fixpoint count_sp (s : string) : nat :=
  match s with
  | EmptyString => 0
  | String c rest =>
      if Ascii.eqb c " "%char then S (count_sp rest) else count_sp rest
  end.
End GoStrings.

(** ** gizmos/pledge_window.go *)
Module PledgeWindow.
Local Open Scope Z_scope.

Record pledge_window := Mk_window {
  commence : Z;
  expiry : Z
}.

#[global] Instance pledge_window_eq_dec : EqDecision pledge_window.
Proof. solve_decision. Defined.

(** [fmt.Errorf] values are represented by their message. *)
Definition error := string.

Definition bad_expiry_msg (now expiry : Z) : error :=
  "bad expiry submitted, already expired: now=" +:+ pretty now
    +:+ " expiry=" +:+ pretty expiry.

(** [mk_pledge_window]: the pair of results [(pw, err)] of the Go function. *)
Definition mk_pledge_window (now commence expiry : Z)
  : option pledge_window * option error :=
  let commence := if commence <? now then now else commence in
  if expiry <? commence then
    (None, Some (bad_expiry_msg now expiry))
  else
    (Some {| commence := commence; expiry := expiry |}, None).

Definition clone (p : option pledge_window) : option pledge_window :=
  match p with
  | None => None
  | Some w => Some {| commence := commence w; expiry := expiry w |}
  end.

Definition state_str (p : option pledge_window) (now : Z)
  : string * string * Z :=
  match p with
  | None => ("EXPIRED", "no window", 0)
  | Some w =>
      if expiry w <=? now then ("EXPIRED", "ago", 0)
      else if now <? commence w
           then ("PENDING", "from now", Int64.sub (commence w) now)
           else ("ACTIVE", "remaining", Int64.sub (expiry w) now)
  end.

(** [extend_by] reads the clock only when [n] is negative. *)
Definition extend_by (w : pledge_window) (n now : Z) : pledge_window :=
  let e := Int64.add (expiry w) n in
  let e := if n <? 0 then (if e <? now then now else e) else e in
  {| commence := commence w; expiry := e |}.

Definition set_expiry_to (w : pledge_window) (new_time : Z) : pledge_window :=
  {| commence := commence w; expiry := new_time |}.

Definition is_expired (p : option pledge_window) (now : Z) : bool :=
  match p with
  | None => true
  | Some w => expiry w <=? now
  end.

Definition is_pending (p : option pledge_window) (now : Z) : bool :=
  match p with
  | None => false
  | Some w => now <? commence w
  end.

Definition is_active (p : option pledge_window) (now : Z) : bool :=
  match p with
  | None => false
  | Some w => (commence w <? now) && (now <? expiry w)
  end.

Definition is_active_soon (p : option pledge_window) (window now : Z) : bool :=
  match p with
  | None => false
  | Some w => (now <=? commence w) && (commence w <=? Int64.add now window)
  end.

Definition get_values (p : option pledge_window) : Z * Z :=
  match p with
  | None => (0, 0)
  | Some w => (commence w, expiry w)
  end.

Definition concluded_recently (p : option pledge_window) (window now : Z) : bool :=
  match p with
  | None => true
  | Some w => (expiry w <? now) && (Int64.sub now window <=? expiry w)
  end.

Definition commenced_recently (p : option pledge_window) (window now : Z) : bool :=
  match p with
  | None => false
  | Some w =>
      (Int64.sub now window <=? commence w) && (commence w <=? now)
        && (now <? expiry w)
  end.

Definition is_extinct (p : option pledge_window) (window now : Z) : bool :=
  match p with
  | None => false
  | Some w => expiry w <=? Int64.sub now window
  end.
End PledgeWindow.

(** ** managers/net_req.go *)
Module NetReq.

Record Net_vm := Build_Net_vm {
  name : option string;
  id : option string;
  ip4 : option string;
  ip6 : option string;
  phost : option string;
  mac : option string;
  gw : option string;
  fip : option string;
  gwmap : gmap string (option string)
}.

Definition Mk_netreq_vm (name id ip4 ip6 phost mac gw fip : option string)
    (gwmap : gmap string (option string)) : Net_vm :=
  let name :=
    match name with
    | Some _ => name
    | None => match ip4 with Some _ => ip4 | None => Some "unnamed" end
    end in
  {| name := name; id := id; ip4 := ip4; ip6 := ip6; phost := phost;
     mac := mac; gw := gw; fip := fip; gwmap := gwmap |}.

(** The named results of [Get_values], in the order in which the signature
    declares them:
    [( name, id, ip4, ip6, gw, phost, mac, fip )]. *)
Record values := Return {
  r_name : option string;
  r_id : option string;
  r_ip4 : option string;
  r_ip6 : option string;
  r_gw : option string;
  r_phost : option string;
  r_mac : option string;
  r_fip : option string
}.

(** The results as the positional tuple a caller destructures. *)
Definition as_tuple (r : values) :=
  (r_name r, r_id r, r_ip4 r, r_ip6 r, r_gw r, r_phost r, r_mac r, r_fip r).

(** [Get_values]: a nil receiver leaves every named result at its zero
    value; otherwise the [return] statement fills the result slots
    positionally with
    [vm.name, vm.id, vm.ip4, vm.ip6, vm.phost, vm.gw, vm.mac, vm.fip]. *)
Definition Get_values (vm : option Net_vm) : values :=
  match vm with
  | None => Return None None None None None None None None
  | Some vm =>
      Return (name vm) (id vm) (ip4 vm) (ip6 vm) (phost vm) (gw vm)
             (mac vm) (fip vm)
  end.

Definition Get_gwmap (vm : Net_vm) : gmap string (option string) := gwmap vm.

Definition Put_phost (vm : Net_vm) (nv : option string) : Net_vm :=
  {| name := name vm; id := id vm; ip4 := ip4 vm; ip6 := ip6 vm;
     phost := nv; mac := mac vm; gw := gw vm; fip := fip vm;
     gwmap := gwmap vm |}.

(** [Put_name] replaces the name only by a non-nil value. *)
Definition Put_name (vm : Net_vm) (nv : option string) : Net_vm :=
  match nv with
  | Some _ =>
      {| name := nv; id := id vm; ip4 := ip4 vm; ip6 := ip6 vm;
         phost := phost vm; mac := mac vm; gw := gw vm; fip := fip vm;
         gwmap := gwmap vm |}
  | None => vm
  end.

Definition Put_id (vm : Net_vm) (nv : option string) : Net_vm :=
  {| name := name vm; id := nv; ip4 := ip4 vm; ip6 := ip6 vm;
     phost := phost vm; mac := mac vm; gw := gw vm; fip := fip vm;
     gwmap := gwmap vm |}.

Definition Put_ip4 (vm : Net_vm) (nv : option string) : Net_vm :=
  {| name := name vm; id := id vm; ip4 := nv; ip6 := ip6 vm;
     phost := phost vm; mac := mac vm; gw := gw vm; fip := fip vm;
     gwmap := gwmap vm |}.

Definition Put_ip6 (vm : Net_vm) (nv : option string) : Net_vm :=
  {| name := name vm; id := id vm; ip4 := ip4 vm; ip6 := nv;
     phost := phost vm; mac := mac vm; gw := gw vm; fip := fip vm;
     gwmap := gwmap vm |}.

(** A call of one of the [Put] methods on a vm, and a run of such calls. *)
Inductive put :=
| Call_Put_name (nv : option string)
| Call_Put_id (nv : option string)
| Call_Put_ip4 (nv : option string)
| Call_Put_ip6 (nv : option string)
| Call_Put_phost (nv : option string).

Definition call (vm : Net_vm) (c : put) : Net_vm :=
  match c with
  | Call_Put_name nv => Put_name vm nv
  | Call_Put_id nv => Put_id vm nv
  | Call_Put_ip4 nv => Put_ip4 vm nv
  | Call_Put_ip6 nv => Put_ip6 vm nv
  | Call_Put_phost nv => Put_phost vm nv
  end.

Definition calls (vm : Net_vm) (cs : list put) : Net_vm := foldl call vm cs.

(** [To_str]: the fields in the order of the struct, a nil one shown as
    [<nil>], with a blank after each but the last. *)
Definition show (f : option string) : string := default "<nil>" f.

Definition To_str (vm : option Net_vm) : string :=
  match vm with
  | None => ""
  | Some vm =>
      show (name vm) +:+ " " +:+ show (id vm) +:+ " " +:+ show (ip4 vm)
        +:+ " " +:+ show (ip6 vm) +:+ " " +:+ show (phost vm) +:+ " "
        +:+ show (gw vm) +:+ " " +:+ show (mac vm) +:+ " " +:+ show (fip vm)
  end.
End NetReq.

(** ** gizmos/path.go *)
Module PathM.
Section Path.
(** [Link], [Switch] and [Host] are declared in files of the package
    that the path code only holds pointers to. *)
Context {Link Switch Host : Type}.

Record Path := Build_Path {
  links : list (option Link);
  lidx : nat;
  switches : list (option Switch);
  sidx : nat;
  h1 : option Host;
  h2 : option Host;
  endpts : list (option Link);
  extip : option string;
  is_reverse : bool
}.

(** The links and switches a path holds: the first [lidx] (resp. [sidx])
    slots of the backing slices. *)
Definition path_links (p : Path) : list (option Link) :=
  take (lidx p) (links p).
Definition path_switches (p : Path) : list (option Switch) :=
  take (sidx p) (switches p).

(** The object [Mk_path] builds. *)
Definition new_path (h1 h2 : option Host) : Path :=
  {| links := replicate 32 None; lidx := 0;
     switches := replicate 64 None; sidx := 0;
     h1 := h1; h2 := h2;
     endpts := replicate 2 None; extip := None; is_reverse := false |}.

(** [make] a slice of [n] slots and [copy] the old one into it. *)
Definition grow {A} (n : nat) (old : list (option A)) : list (option A) :=
  take n old ++ replicate (n - length old) None.

(** The body of [Add_link] for a non-nil link, on the path object. *)
Definition add_link (p : Path) (l : Link) : Path :=
  let ls := if decide (length (links p) ≤ lidx p)
            then grow (lidx p + 32) (links p) else links p in
  {| links := <[lidx p := Some l]> ls; lidx := S (lidx p);
     switches := switches p; sidx := sidx p; h1 := h1 p; h2 := h2 p;
     endpts := endpts p; extip := extip p; is_reverse := is_reverse p |}.

(** The body of [Add_switch] on the path object; a nil switch is stored
    like any other. *)
Definition add_switch (p : Path) (s : option Switch) : Path :=
  let ss := if decide (length (switches p) ≤ sidx p)
            then grow (sidx p + 64) (switches p) else switches p in
  {| links := links p; lidx := lidx p;
     switches := <[sidx p := s]> ss; sidx := S (sidx p);
     h1 := h1 p; h2 := h2 p;
     endpts := endpts p; extip := extip p; is_reverse := is_reverse p |}.

Definition set_reverse (p : Path) (state : bool) : Path :=
  {| links := links p; lidx := lidx p;
     switches := switches p; sidx := sidx p; h1 := h1 p; h2 := h2 p;
     endpts := endpts p; extip := extip p; is_reverse := state |}.

(** *** Paths as heap objects

    The methods have pointer receivers.  A heap maps the addresses of
    the allocated paths to their contents; an address outside the heap
    plays the nil pointer.  A method that dereferences a nil receiver
    or indexes a slice out of range panics: [None]. *)
Local Abbreviation heap := (gmap positive Path).

Definition Mk_path (h1 h2 : option Host) (m : heap) : positive * heap :=
  let ip := fresh (dom m) in
  (ip, <[ip := new_path h1 h2]> m).

Definition Add_link (p : positive) (l : option Link) (m : heap)
  : option heap :=
  match l with
  | None => Some m
  | Some l => pv ← m !! p; Some (<[p := add_link pv l]> m)
  end.

Definition Add_switch (p : positive) (s : option Switch) (m : heap)
  : option heap :=
  match m !! p with
  | None => Some m
  | Some pv => Some (<[p := add_switch pv s]> m)
  end.

Definition Set_reverse (p : positive) (state : bool) (m : heap)
  : option heap :=
  pv ← m !! p; Some (<[p := set_reverse pv state]> m).

(** [for i := n - 1; i >= 0; i-- { ip.Add_link( p.links[i] ) }] *)
Fixpoint invert_links (p ip : positive) (n : nat) (m : heap)
  : option heap :=
  match n with
  | O => Some m
  | S i =>
      pv ← m !! p;
      l ← links pv !! i;
      m' ← Add_link ip l m;
      invert_links p ip i m'
  end.

(** [for i := n - 1; i >= 0; i-- { ip.Add_switch( p.switches[i] ) }] *)
Fixpoint invert_switches (p ip : positive) (n : nat) (m : heap)
  : option heap :=
  match n with
  | O => Some m
  | S i =>
      pv ← m !! p;
      s ← switches pv !! i;
      m' ← Add_switch ip s m;
      invert_switches p ip i m'
  end.

Definition Invert (p : positive) (m : heap) : option (positive * heap) :=
  pv ← m !! p;
  let '(ip, m1) := Mk_path (h1 pv) (h2 pv) m in
  pv1 ← m1 !! p;
  m2 ← invert_links p ip (lidx pv1) m1;
  pv2 ← m2 !! p;
  m3 ← invert_switches p ip (sidx pv2) m2;
  pv3 ← m3 !! p;
  m4 ← Set_reverse ip (negb (is_reverse pv3)) m3;
  Some (ip, m4).

(** The path with its endpoint slots replaced. *)
Definition with_endpts (p : Path) (eps : list (option Link)) : Path :=
  {| links := links p; lidx := lidx p;
     switches := switches p; sidx := sidx p; h1 := h1 p; h2 := h2 p;
     endpts := eps; extip := extip p; is_reverse := is_reverse p |}.

(** [Add_endpoint] on the path object: the first endpoint goes to slot 0,
    the next to slot 1, and a further one pushes slot 1 down to slot 0
    before it takes slot 1.  [None] is the panic of indexing [endpts] out
    of range. *)
Definition add_endpoint (p : Path) (l : option Link) : option Path :=
  e0 ← endpts p !! 0;
  eps ← match e0 with
        | Some _ =>
            e1 ← endpts p !! 1;
            Some (<[1 := l]> (match e1 with
                              | Some _ => <[0 := e1]> (endpts p)
                              | None => endpts p
                              end))
        | None => Some (<[0 := l]> (endpts p))
        end;
  Some (with_endpts p eps).

(** [Add_endpoint] returns at once on a nil receiver. *)
Definition Add_endpoint (p : positive) (l : option Link) (m : heap)
  : option heap :=
  match m !! p with
  | None => Some m
  | Some pv => pv' ← add_endpoint pv l; Some (<[p := pv']> m)
  end.

(** A run of [Add_endpoint] calls on the same path, stopped by a panic. *)
Definition Add_endpoints (p : positive) (ls : list (option Link)) (m : heap)
  : option heap :=
  foldl (λ om l, om ≫= Add_endpoint p l) (Some m) ls.

(** [Flip_endpoints] on the path object; it dereferences its receiver
    and indexes both endpoint slots. *)
Definition flip_endpoints (p : Path) : option Path :=
  ep ← endpts p !! 0;
  e1 ← endpts p !! 1;
  Some (with_endpts p (<[1 := ep]> (<[0 := e1]> (endpts p)))).

Definition Flip_endpoints (p : positive) (m : heap) : option heap :=
  pv ← m !! p; pv' ← flip_endpoints pv; Some (<[p := pv']> m).

(** A path as [Mk_path], [Add_link] and [Add_switch] leave it: the fill
    counts lie within the backing slices and no nil link is stored. *)
Definition wf (p : Path) : Prop :=
  lidx p ≤ length (links p)
  ∧ sidx p ≤ length (switches p)
  ∧ ∀ i, i < lidx p → ∃ l, links p !! i = Some (Some l).
End Path.
Arguments Path : clear implicits.
Abbreviation heap Link Switch Host := (gmap positive (Path Link Switch Host)).

(** *** Switch/port/queue lookups

    gizmos/link.go and gizmos/spq.go are not among the sources: the link
    methods [Get_forward_info] and [Get_backward_info] (called on a link
    pointer that may be nil, with a queue name and a timestamp) and the
    constructor [Mk_spq] that bundles what they return are parameters. *)
Section Queues.
Context {Link Switch Host Info Spq : Type}.
Context (Mk_spq : Info → Spq).
Context (Get_forward_info Get_backward_info : option Link → string → Z → Info).
Implicit Types (p : Path Link Switch Host) (qid : string) (tstamp : Z).

Definition Get_extip p : option string := extip p.
Definition Get_h1 p : option Host := h1 p.
Definition Get_h2 p : option Host := h2 p.

(** [n - 1] as a slice index: [None] when it is negative. *)
Definition pred_idx (n : nat) : option nat :=
  match n with O => None | S i => Some i end.

(** [if idx >= 0 { spq = Mk_spq( p.links[idx].info( qid, tstamp ) ) }] *)
Definition spq_at (info : option Link → string → Z → Info) p
    (idx : option nat) qid tstamp : option (option Spq) :=
  match idx with
  | None => Some None
  | Some i => l ← links p !! i; Some (Some (Mk_spq (info l qid tstamp)))
  end.

Definition Get_ilink_spq p qid tstamp : option (option Spq) :=
  spq_at Get_forward_info p
    (if is_reverse p then pred_idx (lidx p) else Some 0) qid tstamp.

Definition Get_elink_spq p qid tstamp : option (option Spq) :=
  spq_at Get_backward_info p
    (if is_reverse p then Some 0 else pred_idx (lidx p)) qid tstamp.

(** The loops that fill [ret_list], a slice made with 128 slots, from the
    links at the indices [idxs] in turn. *)
Definition collect_spq (info : option Link → string → Z → Info)
    (qname : string) p tstamp (idxs : list nat) : option (list Spq) :=
  if decide (128 < length idxs) then None
  else mapM (λ i, l ← links p !! i; Some (Mk_spq (info l qname tstamp))) idxs.

Definition Get_forward_im_spq p tstamp : option (list Spq) :=
  collect_spq Get_forward_info "priority-out" p tstamp
    (if is_reverse p then reverse (seq 0 (lidx p - 1))
     else seq 1 (lidx p - 1)).

Definition Get_backward_im_spq p tstamp : option (list Spq) :=
  collect_spq Get_backward_info "priority-in" p tstamp
    (if is_reverse p then reverse (seq 1 (lidx p - 1))
     else seq 0 (lidx p - 1)).

(** [Get_intermed_spq]: the backward tuples, then the forward ones, in
    one slice of 128 slots. *)
Definition Get_intermed_spq p tstamp : option (list Spq) :=
  let bs := if is_reverse p then reverse (seq 1 (lidx p - 1))
            else seq 0 (lidx p - 1) in
  let fs := if is_reverse p then reverse (seq 0 (lidx p - 1))
            else seq 1 (lidx p - 1) in
  if decide (128 < length bs + length fs) then None
  else
    b ← mapM (λ i, l ← links p !! i;
                   Some (Mk_spq (Get_backward_info l "priority-in" tstamp))) bs;
    f ← mapM (λ i, l ← links p !! i;
                   Some (Mk_spq (Get_forward_info l "priority-out" tstamp))) fs;
    Some (b ++ f).

Definition endpoint_spq p (idx : nat) (pfx qid : string) tstamp
  : option (option Spq) :=
  ep ← endpts p !! idx;
  match ep with
  | None => Some None
  | Some _ => Some (Some (Mk_spq (Get_forward_info ep (pfx +:+ qid) tstamp)))
  end.

Definition Get_endpoint_spq p qid tstamp
  : option (option Spq * option Spq) :=
  let '(idx0, idx1, pfx0, pfx1) :=
    if is_reverse p then (1, 0, "E1", "E0") else (0, 1, "E0", "E1") in
  e0 ← endpoint_spq p idx0 pfx0 qid tstamp;
  e1 ← endpoint_spq p idx1 pfx1 qid tstamp;
  Some (e0, e1).

(** A tuple is looked up from the path at [tstamp]: it is what a link
    of the path (one of its links or endpoint links) reports for some
    queue name at that timestamp. *)
Definition looked_up_at p tstamp (q : Spq) : Prop :=
  ∃ (l : option Link) (qname : string),
    (l ∈ links p ∨ l ∈ endpts p)
    ∧ (q = Mk_spq (Get_forward_info l qname tstamp)
       ∨ q = Mk_spq (Get_backward_info l qname tstamp)).
End Queues.
End PathM.

(** ** managers/res_mgr.go *)
Module ResMgr.
Import PledgeWindow PathM.

Definition error := string.

Section Manager.
Context {Link Switch Host Info Spq : Type}.
Context (Mk_spq : Info → Spq).
Context (Get_forward_info Get_backward_info : option Link → string → Z → Info).
(** gizmos/host.go is not among the sources: the first result of
    [Get_addresses], a string pointer, is a parameter. *)
Context (Get_addresses : option Host → option string).
(** The global [super_cookie], set once when [Res_manager] starts. *)
Context (super_cookie : string).

(** Modelled from the spec: gizmos/pledge.go (the [Pledge] struct and its
    methods) is not among the sources.  The record holds the attributes
    the spec lists for a bandwidth pledge: unique id, owner cookie,
    window, pushed and paused flags, the two hosts, the optional
    transport ports, the DSCP code, the two amounts and the path list. *)
Record Pledge := Build_Pledge {
  id : string;
  usrkey : string;
  window : pledge_window;
  pushed : bool;
  paused : bool;
  host1 : string;
  host2 : string;
  tpport1 : option string;
  tpport2 : option string;
  dscp : Z;
  bandw_in : Z;
  bandw_out : Z;
  path_list : list (Path Link Switch Host)
}.

Definition with_window (p : Pledge) (w : pledge_window) : Pledge :=
  {| id := id p; usrkey := usrkey p; window := w; pushed := pushed p;
     paused := paused p; host1 := host1 p; host2 := host2 p;
     tpport1 := tpport1 p; tpport2 := tpport2 p; dscp := dscp p;
     bandw_in := bandw_in p; bandw_out := bandw_out p;
     path_list := path_list p |}.

Definition with_pushed (p : Pledge) (b : bool) : Pledge :=
  {| id := id p; usrkey := usrkey p; window := window p; pushed := b;
     paused := paused p; host1 := host1 p; host2 := host2 p;
     tpport1 := tpport1 p; tpport2 := tpport2 p; dscp := dscp p;
     bandw_in := bandw_in p; bandw_out := bandw_out p;
     path_list := path_list p |}.

(** Modelled from the spec: [Get_id] of gizmos/pledge.go, which is not among
    the sources; it returns the pledge's unique id. *)
Definition Get_id (p : Pledge) : string := id p.

(** Modelled from the spec: [Is_valid_cookie] of gizmos/pledge.go, which is
    not among the sources; the cookie "matches pledge's owner cookie". *)
Definition Is_valid_cookie (p : Pledge) (c : string) : bool :=
  bool_decide (usrkey p = c).

(** Modelled from the spec: [Set_expiry] of gizmos/pledge.go, which is not
    among the sources; "sets expiry" overwrites the expiry of the window. *)
Definition Set_expiry (p : Pledge) (v : Z) : Pledge :=
  with_window p (set_expiry_to (window p) v).

(** Modelled from the spec: [Reset_pushed], [Set_pushed] and [Is_pushed] of
    gizmos/pledge.go, which is not among the sources; they clear, set and
    read the pushed flag. *)
Definition Reset_pushed (p : Pledge) : Pledge := with_pushed p false.
Definition Set_pushed (p : Pledge) : Pledge := with_pushed p true.
Definition Is_pushed (p : Pledge) : bool := pushed p.

(** Modelled from the spec: [Is_paused] of gizmos/pledge.go, which is not
    among the sources; it reads the paused flag. *)
Definition Is_paused (p : Pledge) : bool := paused p.

(** Modelled from the spec: [Is_active] and [Is_active_soon] of
    gizmos/pledge.go, which is not among the sources; the state of a pledge
    is the state of its window, tested by gizmos/pledge_window.go. *)
Definition Is_active (p : Pledge) (now : Z) : bool :=
  is_active (Some (window p)) now.
Definition Is_active_soon (p : Pledge) (w now : Z) : bool :=
  is_active_soon (Some (window p)) w now.

(** Modelled from the spec: [Get_dscp], [Get_values] and [Get_path_list] of
    gizmos/pledge.go, which is not among the sources.  [Get_values] is
    destructured by its caller as
    [h1, h2, p1, p2, _, expiry, _, _]: the hosts, the transport ports, the
    two ends of the window and the two amounts. *)
Definition Get_dscp (p : Pledge) : Z := dscp p.
Definition Get_values (p : Pledge) :=
  (host1 p, host2 p, tpport1 p, tpport2 p,
   commence (window p), expiry (window p), bandw_in p, bandw_out p).
Definition Get_path_list (p : Pledge) : list (Path Link Switch Host) :=
  path_list p.

(** The inventory: the [cache] map.  The stored pointers are never nil,
    so a key holds a pledge exactly when [inv.cache[key] != nil]. *)
Record Inventory := Build_Inventory { cache : gmap string Pledge }.

Definition Mk_inventory : Inventory := {| cache := ∅ |}.

(** *** Messages *)

(** Requests put on the network manager's channel [nw_ch], named after
    the message types [REQ_DEL] and [REQ_GETIP] they carry.  The pledge
    of a delete is passed by pointer, so the request shows the pledge as
    it is while the sender waits for the reply. *)
Inductive nw_req :=
| NW_REQ_DEL (p : Pledge)
| NW_REQ_GETIP (name : string).

Record nw_reply := Build_reply {
  State : option error;
  Response_data : option string
}.

(** The slots of the [fq_data] work array, named by the index constants the
    code uses (declared in a file that is not among the sources), and what
    the slots hold. *)
Inductive fq_field :=
| FQ_IP1 | FQ_IP2 | FQ_EXPIRY | FQ_SPQ | FQ_ID | FQ_DIR_IN | FQ_DSCP
| FQ_EXTIP | FQ_EXTTY | FQ_TPSPORT | FQ_TPDPORT.

#[global] Instance fq_field_eq_dec : EqDecision fq_field.
Proof. solve_decision. Defined.

Inductive value :=
| VNil
| VInt (z : Z)
| VStr (s : string)
| VBool (b : bool)
| VPort (p : option string)
| VSpq (q : option Spq).

Definition fq_data := fq_field → value.

(** [fq_data[f] = v] *)
Definition fq_set (d : fq_data) (f : fq_field) (v : value) : fq_data :=
  λ g, if decide (g = f) then v else d g.

(** [make( []interface{}, FQ_SIZE )] followed by [fq_data[FQ_SPQ] = 1]. *)
Definition fq_init : fq_data := fq_set (λ _, VNil) FQ_SPQ (VInt 1).

(** *** The effects of the reservation manager

    A computation ends with a result or a panic, or goes on after
    reading the clock, after a synchronous call to the network manager
    (request sent, reply awaited), or after queueing a request for the
    flow-queue manager (no reply awaited). *)
Inductive prog (A : Type) : Type :=
| Ret (a : A)
| Panic
| Now (k : Z → prog A)
| Nw_call (req : nw_req) (k : nw_reply → prog A)
| Fq_send (req : fq_data) (k : prog A).
Arguments Ret {A} a.
Arguments Panic {A}.
Arguments Now {A} k.
Arguments Nw_call {A} req k.
Arguments Fq_send {A} req k.

Fixpoint bind {A B} (m : prog A) (f : A → prog B) : prog B :=
  match m with
  | Ret a => f a
  | Panic => Panic
  | Now k => Now (λ t, bind (k t) f)
  | Nw_call req k => Nw_call req (λ r, bind (k r) f)
  | Fq_send req k => Fq_send req (bind k f)
  end.

#[global] Instance prog_ret : MRet prog := λ A a, Ret a.
#[global] Instance prog_bind : MBind prog := λ A B f m, bind m f.

Definition time_now : prog Z := Now Ret.
Definition send_fq (req : fq_data) : prog unit := Fq_send req (Ret tt).
(** A dereference, or an indexing, that panics when there is nothing. *)
Definition must {A} (o : option A) : prog A :=
  match o with Some a => Ret a | None => Panic end.

Fixpoint foldM {A B} (f : A → B → prog A) (a : A) (l : list B) : prog A :=
  match l with
  | [] => Ret a
  | b :: l => a' ← f a b; foldM f a' l
  end.

(** Running a computation against a clock and a network manager, each
    answering by the number of questions asked so far, gives the result
    ([None] after a panic) and the events in the order they happened. *)
Inductive event :=
| Ev_now (t : Z)
| Ev_nw (req : nw_req) (reply : nw_reply)
| Ev_fq (req : fq_data).

Fixpoint run {A} (clock : nat → Z) (nw : nat → nw_req → nw_reply)
    (m : prog A) (reads calls : nat) : option A * list event :=
  match m with
  | Ret a => (Some a, [])
  | Panic => (None, [])
  | Now k =>
      let t := clock reads in
      let '(r, tr) := run clock nw (k t) (S reads) calls in
      (r, Ev_now t :: tr)
  | Nw_call req k =>
      let reply := nw calls req in
      let '(r, tr) := run clock nw (k reply) reads (S calls) in
      (r, Ev_nw req reply :: tr)
  | Fq_send req k =>
      let '(r, tr) := run clock nw k reads calls in
      (r, Ev_fq req :: tr)
  end.

(** [sends T P Q m]: in every run of [m] in which every reading of the
    clock satisfies [T], whatever the network manager answers, the requests
    queued for the flow-queue manager satisfy [P] and the result, if the
    run gets to one, satisfies [Q]. *)
Fixpoint sends {A} (T : Z → Prop) (P : fq_data → Prop) (Q : A → Prop)
    (m : prog A) : Prop :=
  match m with
  | Ret a => Q a
  | Panic => True
  | Now k => ∀ t, T t → sends T P Q (k t)
  | Nw_call _ k => ∀ r, sends T P Q (k r)
  | Fq_send req k => P req ∧ sends T P Q k
  end.

(** [delivers T P Q m]: as [sends T P Q m], and moreover no such run of
    [m] panics. *)
Fixpoint delivers {A} (T : Z → Prop) (P : fq_data → Prop) (Q : A → Prop)
    (m : prog A) : Prop :=
  match m with
  | Ret a => Q a
  | Panic => False
  | Now k => ∀ t, T t → delivers T P Q (k t)
  | Nw_call _ k => ∀ r, delivers T P Q (k r)
  | Fq_send req k => P req ∧ delivers T P Q k
  end.

(** *** Inventory operations *)

Definition Add_res (inv : Inventory) (p : Pledge)
  : option error * Inventory :=
  let id := Get_id p in
  match cache inv !! id with
  | Some _ => (Some ("reservation already exists: " +:+ id), inv)
  | None => (None, {| cache := <[id := p]> (cache inv) |})
  end.

(** Every pledge of the inventory sits under its own id. *)
Definition keyed_by_id (inv : Inventory) : Prop :=
  ∀ k p, cache inv !! k = Some p → Get_id p = k.

Definition Get_res (inv : Inventory) (name cookie : string)
  : option Pledge * option error :=
  match cache inv !! name with
  | None => (None, Some ("cannot find reservation: " +:+ name))
  | Some p =>
      if negb (Is_valid_cookie p cookie)
         && negb (bool_decide (cookie = super_cookie))
      then (None,
            Some ("not authorised to access or delete reservation: " +:+ name))
      else (Some p, None)
  end.

(** [Del_res]: the pledge lives in the cache under [name]; the two
    writes through the pointer update that entry. *)
Definition Del_res (inv : Inventory) (name cookie : string)
  : prog (option error * Inventory) :=
  let '(p, state) := Get_res inv name cookie in
  match p with
  | Some p =>
      req ← Nw_call (NW_REQ_DEL p) Ret;
      now ← time_now;
      let p := Set_expiry p (Int64.add now 15) in
      let p := Reset_pushed p in
      Ret (State req, {| cache := <[name := p]> (cache inv) |})
  | None => Ret (state, inv)
  end.

(** [Del_all_res]: the ids are collected first, then deleted one by one;
    the result is the number of deletions that reported no error. *)
Definition Del_all_res (inv : Inventory) (cookie : string)
  : prog (nat * Inventory) :=
  let plist := (λ kp, Get_id kp.2) <$> map_to_list (cache inv) in
  foldM (λ '(ndel, inv) pname,
           '(err, inv) ← Del_res inv pname cookie;
           Ret (match err with None => S ndel | Some _ => ndel end, inv))
        (0, inv) plist.

(** [failed_push]: the flow-queue manager hands back the work array of a
    request that failed; the pledge it names is marked unpushed.  [None] is
    the panic of the type assertion on the id slot. *)
Definition failed_push (inv : Inventory) (d : fq_data) : option Inventory :=
  match d FQ_ID with
  | VStr pid =>
      Some match cache inv !! pid with
           | Some p => {| cache := <[pid := Reset_pushed p]> (cache inv) |}
           | None => inv
           end
  | _ => None
  end.

(** Modelled from the spec: [Pause] and [Resume] of gizmos/pledge.go, which
    is not among the sources; they set and clear the paused flag and, when
    asked to, clear the pushed flag "so next scheduler tick emits
    flow-mods". *)
Definition with_paused (p : Pledge) (b : bool) : Pledge :=
  {| id := id p; usrkey := usrkey p; window := window p; pushed := pushed p;
     paused := b; host1 := host1 p; host2 := host2 p;
     tpport1 := tpport1 p; tpport2 := tpport2 p; dscp := dscp p;
     bandw_in := bandw_in p; bandw_out := bandw_out p;
     path_list := path_list p |}.
Definition Pause (p : Pledge) (reset : bool) : Pledge :=
  let p := with_paused p true in if reset then Reset_pushed p else p.
Definition Resume (p : Pledge) (reset : bool) : Pledge :=
  let p := with_paused p false in if reset then Reset_pushed p else p.

Definition pause_on (inv : Inventory) : Inventory :=
  {| cache := (λ p, Pause p true) <$> cache inv |}.
Definition pause_off (inv : Inventory) : Inventory :=
  {| cache := (λ p, Resume p true) <$> cache inv |}.

(** *** Pushing reservations *)

(** [name2ip]: ask the network manager for the address of a host name. *)
Definition name2ip (name : string) : prog (option string) :=
  msg ← Nw_call (NW_REQ_GETIP name) Ret;
  Ret (match State msg with None => Response_data msg | Some _ => None end).

(** [fq_sdata] is a copy of the work array, so a request is the array as
    it is when the copy is taken. *)
Definition send_copy (d : fq_data) : prog unit := send_fq d.

(** The body of the loop over the path list of one pledge: the requests
    of the h1->h2 direction, then those of the h2->h1 direction.  The
    work array is handed on to the next path as this one leaves it. *)
Definition push_path (rname : string) (p1 p2 : option string)
    (timestamp : Z) (d : fq_data) (path : Path Link Switch Host)
  : prog fq_data :=
  let d := fq_set d FQ_EXTIP
             (VStr (match Get_extip path with Some e => e | None => "" end)) in
  let d := fq_set d FQ_EXTTY (VStr "-D") in
  epip ← must (Get_addresses (Get_h1 path));
  let d := fq_set d FQ_IP1 (VStr epip) in
  epip ← must (Get_addresses (Get_h2 path));
  let d := fq_set d FQ_IP2 (VStr epip) in
  '(espq1, espq0) ← must (Get_endpoint_spq Mk_spq Get_forward_info
                             path rname timestamp);
  (* ---- flow-mods in the h1->h2 direction ---- *)
  d ← match espq1 with
      | Some _ =>
          let d := fq_set d FQ_DIR_IN (VBool true) in
          let d := fq_set d FQ_SPQ (VSpq espq1) in
          send_copy d;; Ret d
      | None => Ret d
      end;
  spq ← must (Get_ilink_spq Mk_spq Get_forward_info path rname timestamp);
  let d := fq_set d FQ_SPQ (VSpq spq) in
  let d := fq_set d FQ_DIR_IN (VBool false) in
  send_copy d;;
  ilist ← must (Get_forward_im_spq Mk_spq Get_forward_info path timestamp);
  foldM (λ _ q, send_copy (fq_set d FQ_SPQ (VSpq (Some q)))) tt ilist;;
  (* ---- flow-mods in the h2->h1 direction ---- *)
  let rev_rname := "R" +:+ rname in
  let d := fq_set d FQ_TPSPORT (VPort p2) in
  let d := fq_set d FQ_TPDPORT (VPort p1) in
  let d := fq_set d FQ_EXTTY (VStr "-S") in
  epip ← must (Get_addresses (Get_h1 path));
  let d := fq_set d FQ_IP2 (VStr epip) in
  epip ← must (Get_addresses (Get_h2 path));
  let d := fq_set d FQ_IP1 (VStr epip) in
  d ← match espq0 with
      | Some _ =>
          let d := fq_set d FQ_DIR_IN (VBool true) in
          let d := fq_set d FQ_SPQ (VSpq espq0) in
          send_copy d;; Ret d
      | None => Ret d
      end;
  spq ← must (Get_elink_spq Mk_spq Get_backward_info path rev_rname timestamp);
  let d := fq_set d FQ_SPQ (VSpq spq) in
  let d := fq_set d FQ_DIR_IN (VBool false) in
  send_copy d;;
  ilist ← must (Get_backward_im_spq Mk_spq Get_backward_info path timestamp);
  foldM (λ d q, let d := fq_set d FQ_SPQ (VSpq (Some q)) in
                send_copy d;; Ret d) d ilist.

(** What the loop of [push_reservations] carries from one pledge to the
    next: the work array, the three counters and the inventory. *)
Record push_state := Build_push_state {
  ps_fq_data : fq_data;
  push_count : nat;
  pend_count : nat;
  pushed_count : nat;
  ps_inv : Inventory
}.

(** [p.Is_active() || p.Is_active_soon( 15 )]: each test reads the clock,
    the second one only when the first fails. *)
Definition is_selected (p : Pledge) : prog bool :=
  now ← time_now;
  if Is_active p now then Ret true
  else now ← time_now; Ret (Is_active_soon p 15 now).

(** The body of the loop over the cache, for the entry [rname], [p]. *)
Definition push_pledge (st : push_state) (entry : string * Pledge)
  : prog push_state :=
  let '(rname, p) := entry in
  let '(Build_push_state d npush npend npushed inv) := st in
  if negb (Is_pushed p) then
    sel ← is_selected p;
    if sel : bool then
      let d := fq_set d FQ_DSCP (VInt (Get_dscp p)) in
      let '(h1, h2, p1, p2, _, expiry, _, _) := Get_values p in
      ip1 ← name2ip h1;
      ip2 ← name2ip h2;
      match ip1, ip2 with
      | Some _, Some _ =>
          let plist := Get_path_list p in
          d ← (if Is_paused p
               then now ← time_now;
                    Ret (fq_set d FQ_EXPIRY (VInt (Int64.add now 15)))
               else Ret (fq_set d FQ_EXPIRY (VInt expiry)));
          let d := fq_set d FQ_ID (VStr rname) in
          let d := fq_set d FQ_TPSPORT (VPort p1) in
          let d := fq_set d FQ_TPDPORT (VPort p2) in
          now ← time_now;
          let timestamp := Int64.add now 16 in
          d ← foldM (push_path rname p1 p2 timestamp) d plist;
          Ret (Build_push_state d (S npush) npend npushed
                 {| cache := <[rname := Set_pushed p]> (cache inv) |})
      | _, _ => Ret (Build_push_state d npush npend npushed inv)
      end
    else Ret (Build_push_state d npush (S npend) npushed inv)
  else Ret (Build_push_state d npush npend (S npushed) inv).

(** [push_reservations]: Go visits the entries of the cache in an order
    it does not specify; [map_to_list] is one such order.  The function
    returns [pushed_count], as the code does. *)
Definition push_entries (inv : Inventory) (entries : list (string * Pledge))
  : prog (nat * Inventory) :=
  st ← foldM push_pledge (Build_push_state fq_init 0 0 0 inv) entries;
  Ret (pushed_count st, ps_inv st).

Definition push_reservations (inv : Inventory) : prog (nat * Inventory) :=
  push_entries inv (map_to_list (cache inv)).

(** What the claims about pushing say of a request [d]: it carries the
    expiry [e] and the id [id], and its switch/port/queue slot holds a
    tuple looked up from [path] at [ts], or a nil pointer when [path] has
    no link. *)
Definition req_ok (path : Path Link Switch Host) (ts : Z) (e id : value)
    (d : fq_data) : Prop :=
  d FQ_EXPIRY = e ∧ d FQ_ID = id
  ∧ ((d FQ_SPQ = VSpq None ∧ lidx path = 0)
     ∨ ∃ q, d FQ_SPQ = VSpq (Some q)
            ∧ looked_up_at Mk_spq Get_forward_info Get_backward_info path ts q).

(** A request [d] belongs to a pledge of [inv] that the push loop selects:
    unpushed, and active at the clock reading [t1] or within 15 seconds of
    the reading [t2].  It carries the pledge's expiry, or [t3 + 15] for a
    paused pledge, and a tuple looked up at [t4 + 16] from one of the
    pledge's paths, for clock readings [t3] and [t4].  All the readings
    satisfy [T]. *)
Definition pushed_ok (inv : Inventory) (T : Z → Prop) (d : fq_data) : Prop :=
  ∃ rname p path t1 t2 t3 t4,
    (T t1 ∧ T t2 ∧ T t3 ∧ T t4)
    ∧ cache inv !! rname = Some p
    ∧ Is_pushed p = false
    ∧ (Is_active p t1 = true ∨ Is_active_soon p 15 t2 = true)
    ∧ path ∈ Get_path_list p
    ∧ req_ok path (Int64.add t4 16)
        (VInt (if Is_paused p then Int64.add t3 15 else expiry (window p)))
        (VStr rname) d.

(** *** Watching for state changes *)

(** Modelled from the spec: [Concluded_recently] and [Commenced_recently]
    of gizmos/pledge.go, which is not among the sources; like [Is_active]
    they are the tests of the pledge's window, which
    gizmos/pledge_window.go gives. *)
Definition Concluded_recently (p : Pledge) (w now : Z) : bool :=
  concluded_recently (Some (window p)) w now.
Definition Commenced_recently (p : Pledge) (w now : Z) : bool :=
  commenced_recently (Some (window p)) w now.

(** [for _, p := range i.cache { if test( p ) { return true } }]
    followed by [return false]. *)
Fixpoint any_pledge (test : Pledge → prog bool) (ps : list Pledge)
  : prog bool :=
  match ps with
  | [] => Ret false
  | p :: ps => b ← test p; if b : bool then Ret true else any_pledge test ps
  end.

(** Each test reads the clock. *)
Definition any_concluded (inv : Inventory) (past : Z) : prog bool :=
  any_pledge (λ p, now ← time_now; Ret (Concluded_recently p past now))
    (map_to_list (cache inv)).*2.

Definition any_commencing (inv : Inventory) (past future : Z) : prog bool :=
  any_pledge (λ p, now ← time_now;
                   if Commenced_recently p past now then Ret true
                   else now ← time_now; Ret (Is_active_soon p future now))
    (map_to_list (cache inv)).*2.

(** The test of the [REQ_SETQUEUES] turn of [Res_manager],
    [now > last_qcheck && inv.any_concluded( now - last_qcheck )
     || inv.any_commencing( now - last_qcheck, 0 )]:
    whether a queue map is to be asked of the network manager, and the new
    value of [last_qcheck]. *)
Definition queue_check (inv : Inventory) (last_qcheck : Z) : prog (bool * Z) :=
  now ← time_now;
  c ← (if (last_qcheck <? now)%Z
       then any_concluded inv (Int64.sub now last_qcheck)
       else Ret false);
  r ← (if c : bool then Ret true
       else any_commencing inv (Int64.sub now last_qcheck) 0);
  Ret (r, now).

(** *** The message loop

    One turn of the loop of [Res_manager] for the requests that add,
    fetch, delete and push: the reply fields [Response_data] and
    [State], and the inventory afterwards. *)
Inductive chmsg :=
| REQ_ADD (p : Pledge)
| REQ_GET (name cookie : string)
| REQ_DEL (name cookie : string)
| REQ_PUSH.

Definition Res_manager (inv : Inventory) (msg : chmsg)
  : prog (option Pledge * option error * Inventory) :=
  match msg with
  | REQ_ADD p =>
      let '(state, inv) := Add_res inv p in Ret (None, state, inv)
  | REQ_GET name cookie =>
      let '(p, state) := Get_res inv name cookie in Ret (p, state, inv)
  | REQ_DEL name cookie =>
      if bool_decide (name = "all") then
        '(_, inv) ← Del_all_res inv cookie; Ret (None, None, inv)
      else
        '(state, inv) ← Del_res inv name cookie; Ret (None, state, inv)
  | REQ_PUSH =>
      '(_, inv) ← push_reservations inv; Ret (None, None, inv)
  end.
End Manager.

Arguments Pledge : clear implicits.
Arguments Inventory : clear implicits.
Arguments nw_req : clear implicits.
Arguments value : clear implicits.
Arguments fq_data : clear implicits.
Arguments event : clear implicits.
Arguments prog : clear implicits.
Arguments Ret {Link Switch Host Spq A} a.
Arguments Panic {Link Switch Host Spq A}.
Arguments Now {Link Switch Host Spq A} k.
Arguments Nw_call {Link Switch Host Spq A} req k.
Arguments Fq_send {Link Switch Host Spq A} req k.
End ResMgr.

(** ** managers/agent.go *)
Module AgentMgr.

(** An agent: its session id.  The [jcache] that buffers the agent's input
    plays no part in sending and is left out. *)
Record agent := Build_agent { id : string }.

#[global] Instance agent_eq_dec : EqDecision agent.
Proof. solve_decision. Defined.

Record agent_data := Build_agent_data {
  agents : gmap string agent;
  agent_list : list agent;
  aidx : nat
}.

Record action := Build_action {
  Atype : string;
  Hosts : list string;
  Dscps : string
}.

Record agent_cmd := Build_agent_cmd {
  Ctype : string;
  Actions : list action
}.

(** What is handed to [smgr.Write]: the bytes of a message string, or the
    bytes [json.Marshal] makes of a command. *)
Inductive payload :=
| Bytes (msg : string)
| Json (cmd : agent_cmd).

(** A call of [smgr.Write( id, buf )]. *)
Definition write := (string * payload)%type.

(** [build_list]: Go ranges over the map in an order it does not specify;
    [map_to_list] is one such order. *)
Definition build_list (ad : agent_data) : agent_data :=
  let l := (map_to_list (agents ad)).*2 in
  {| agents := agents ad; agent_list := l;
     aidx := if decide (length l ≤ aidx ad) then 0 else aidx ad |}.

Definition Mk_agent (ad : agent_data) (aid : string) : agent_data * agent :=
  let na := {| id := aid |} in
  (build_list {| agents := <[aid := na]> (agents ad);
                 agent_list := agent_list ad; aidx := aidx ad |},
   na).

(** [send2one] and [sendbytes2one]: [None] is the panic of indexing
    [agent_list] out of range. *)
Definition sendbytes2one (ad : agent_data) (msg : payload)
  : option (agent_data * list write) :=
  let l := size (agents ad) in
  if decide (l ≤ 0) then Some (ad, [])
  else
    a ← agent_list ad !! aidx ad;
    let i := S (aidx ad) in
    let i := if decide (l ≤ i) then (if decide (1 < l) then 1 else 0) else i in
    Some ({| agents := agents ad; agent_list := agent_list ad; aidx := i |},
          [(id a, msg)]).

Definition send2one (ad : agent_data) (msg : string)
  : option (agent_data * list write) :=
  sendbytes2one ad (Bytes msg).

(** [send2lra] and [sendbytes2lra]: the long running agent is the first of
    the list. *)
Definition sendbytes2lra (ad : agent_data) (msg : payload)
  : option (agent_data * list write) :=
  let l := size (agents ad) in
  if decide (l ≤ 0) then Some (ad, [])
  else a ← agent_list ad !! 0; Some (ad, [(id a, msg)]).

Definition send2lra (ad : agent_data) (msg : string)
  : option (agent_data * list write) :=
  sendbytes2lra ad (Bytes msg).

Definition send2all (ad : agent_data) (msg : string)
  : option (agent_data * list write) :=
  Some (ad, (λ kv, (kv.1, Bytes msg)) <$> map_to_list (agents ad)).

Definition send_mac2phost (ad : agent_data) (hlist : option string)
  : option (agent_data * list write) :=
  match hlist with
  | None => Some (ad, [])
  | Some h =>
      if bool_decide (h = "") then Some (ad, [])
      else sendbytes2lra ad
             (Json {| Ctype := "action_list";
                      Actions := [ {| Atype := "map_mac2phost";
                                      Hosts := GoStrings.Split_sp h; Dscps := "" |} ] |})
  end.

Definition send_intermedq (ad : agent_data) (hlist : option string)
    (dscp : string) : option (agent_data * list write) :=
  match hlist with
  | None => Some (ad, [])
  | Some h =>
      if bool_decide (h = "") then Some (ad, [])
      else sendbytes2lra ad
             (Json {| Ctype := "action_list";
                      Actions := [ {| Atype := "intermed_queues";
                                      Hosts := GoStrings.Split_sp h; Dscps := dscp |} ] |})
  end.

(** *** The loop of [Agent_mgr] *)

(** The requests on the manager's channel, with their [Req_data]. *)
Inductive chmsg :=
| REQ_NOOP
| REQ_SENDALL (data : option string)
| REQ_SENDLONG (data : option string)
| REQ_SENDSHORT (data : option string)
| REQ_MAC2PHOST
| REQ_CHOSTLIST (data : option string)
| REQ_INTERMEDQ.

(** The session events that change the set of agents. *)
Inductive sess_data :=
| ST_ACCEPTED
| ST_NEW (sid : string)
| ST_DISC (sid : string).

(** The variables of the loop. *)
Record mgr_state := Build_mgr_state {
  adata : agent_data;
  host_list : string;
  dscp_list : string
}.

Definition init_state (dscp_list : string) : mgr_state :=
  {| adata := {| agents := ∅; agent_list := []; aidx := 0 |};
     host_list := ""; dscp_list := dscp_list |}.

Definition with_adata (st : mgr_state) (r : option (agent_data * list write))
  : option (mgr_state * list write) :=
  '(ad, ws) ← r;
  Some ({| adata := ad; host_list := host_list st;
           dscp_list := dscp_list st |}, ws).

(** One turn of the loop for a request from another manager. *)
Definition on_request (st : mgr_state) (req : chmsg)
  : option (mgr_state * list write) :=
  match req with
  | REQ_NOOP => Some (st, [])
  | REQ_SENDALL data =>
      match data with
      | Some msg => with_adata st (send2all (adata st) msg)
      | None => Some (st, [])
      end
  | REQ_SENDLONG data =>
      match data with
      | Some msg => with_adata st (send2one (adata st) msg)
      | None => Some (st, [])
      end
  | REQ_SENDSHORT data =>
      match data with
      | Some msg => with_adata st (send2one (adata st) msg)
      | None => Some (st, [])
      end
  | REQ_MAC2PHOST =>
      if bool_decide (host_list st = "") then Some (st, [])
      else with_adata st (send_mac2phost (adata st) (Some (host_list st)))
  | REQ_CHOSTLIST data =>
      match data with
      | Some h => Some ({| adata := adata st; host_list := h;
                           dscp_list := dscp_list st |}, [])
      | None => Some (st, [])
      end
  | REQ_INTERMEDQ =>
      if bool_decide (host_list st = "") then Some (st, [])
      else with_adata st
             (send_intermedq (adata st) (Some (host_list st)) (dscp_list st))
  end.

(** One turn of the loop for a session event. *)
Definition on_session (st : mgr_state) (sreq : sess_data)
  : option (mgr_state * list write) :=
  match sreq with
  | ST_ACCEPTED => Some (st, [])
  | ST_NEW sid =>
      let '(ad, _) := Mk_agent (adata st) sid in
      let st := {| adata := ad; host_list := host_list st;
                   dscp_list := dscp_list st |} in
      if bool_decide (host_list st = "") then Some (st, [])
      else
        '(st1, w1) ← with_adata st
                       (send_mac2phost (adata st) (Some (host_list st)));
        '(st2, w2) ← with_adata st1
                       (send_intermedq (adata st1) (Some (host_list st1))
                          (dscp_list st1));
        Some (st2, w1 ++ w2)
  | ST_DISC sid =>
      let ad := adata st in
      let ad := {| agents := delete sid (agents ad);
                   agent_list := agent_list ad; aidx := aidx ad |} in
      Some ({| adata := build_list ad; host_list := host_list st;
               dscp_list := dscp_list st |}, [])
  end.

(** What arrives at the loop, and the loop run over a list of arrivals:
    the final state and, for each arrival, the writes it caused. *)
Inductive arrival :=
| Request (req : chmsg)
| Session (sreq : sess_data).

Definition step (st : mgr_state) (a : arrival)
  : option (mgr_state * list write) :=
  match a with
  | Request req => on_request st req
  | Session sreq => on_session st sreq
  end.

Fixpoint Agent_mgr (st : mgr_state) (arrivals : list arrival)
  : option (mgr_state * list (list write)) :=
  match arrivals with
  | [] => Some (st, [])
  | a :: rest =>
      '(st1, ws) ← step st a;
      '(st2, wss) ← Agent_mgr st1 rest;
      Some (st2, ws :: wss)
  end.

(** The sessions that are open after an arrival, given those that were
    open before it, and after a list of arrivals. *)
Definition open_after (s : gset string) (a : arrival) : gset string :=
  match a with
  | Session (ST_NEW sid) => {[ sid ]} ∪ s
  | Session (ST_DISC sid) => s ∖ {[ sid ]}
  | _ => s
  end.

Definition open_sessions (s : gset string) (arrivals : list arrival)
  : gset string :=
  foldl open_after s arrivals.

(** The state [build_list] leaves and the send functions keep: the list
    holds the agents of the map, the round robin index points into the list
    unless it is 0, and every agent sits in the map under its own id. *)
Definition consistent (ad : agent_data) : Prop :=
  agent_list ad = (map_to_list (agents ad)).*2
  ∧ (aidx ad < length (agent_list ad) ∨ aidx ad = 0)
  ∧ ∀ k a, agents ad !! k = Some a → id a = k.

(** What a send function does to a consistent state: it returns, the state
    stays consistent with the same agents, and what it writes goes to
    connected agents. *)
Definition sends_ok (ad : agent_data)
    (r : option (agent_data * list write)) : Prop :=
  ∃ ad' ws, r = Some (ad', ws) ∧ consistent ad'
            ∧ agents ad' = agents ad
            ∧ ∀ w, w ∈ ws → w.1 ∈ dom (agents ad).

(** One turn of the loop from a consistent state. *)
Definition turn_ok (st : mgr_state) (a : arrival)
    (r : option (mgr_state * list write)) : Prop :=
  ∃ st' ws, r = Some (st', ws) ∧ consistent (adata st')
            ∧ dom (agents (adata st'))
              = open_after (dom (agents (adata st))) a
            ∧ ∀ w, w ∈ ws → w.1 ∈ dom (agents (adata st')).
End AgentMgr.

(** ** managers/fq_mgr_steer.go *)
Module FqSteer.
Local Open Scope Z_scope.

(** [Fq_req] and [Fq_parms] are declared in a file that is not among the
    sources; the records hold the fields [send_stfmod_agent] reads. *)
Record Fq_parms := Build_Fq_parms {
  Meta : option string;
  Swport : Z;
  Smac : option string;
  Dmac : option string;
  Ip1 : option string;
  Ip2 : option string;
  Tpsport : Z;
  Tpdport : Z;
  Resub : option string
}.

Record Fq_req := Build_Fq_req {
  Pri : Z;
  Table : Z;
  Expiry : Z;
  Swid : option string;
  Lbmac : option string;
  Nxt_mac : option string;
  Protocol : option string;
  Match : Fq_parms;
  Action : Fq_parms
}.

Definition with_Pri (data : Fq_req) (pri : Z) : Fq_req :=
  {| Pri := pri; Table := Table data; Expiry := Expiry data;
     Swid := Swid data; Lbmac := Lbmac data; Nxt_mac := Nxt_mac data;
     Protocol := Protocol data; Match := Match data; Action := Action data |}.

(** The double quote character, and a string between double quotes. *)
Definition dquote : string := String (ascii_of_nat 34) EmptyString.
Definition quoted (s : string) : string := dquote +:+ s +:+ dquote.

(** The text that opens every message: an action list with one flowmod
    action whose [fdata] array is left open. *)
Definition base_json : string :=
  "{ " +:+ quoted "ctype" +:+ ": " +:+ quoted "action_list" +:+ ", "
    +:+ quoted "actions" +:+ ": [ { " +:+ quoted "atype" +:+ ": "
    +:+ quoted "flowmod" +:+ ", " +:+ quoted "fdata" +:+ ": [ ".

(** The flow-mod command, between double quotes, that follows
    [base_json], and the closing text:
    [-h <target> -t <expiry> -p <priority> <match> <action> add 0xe5d br-int].
    When the flow-mod goes to all switches the target is the host followed
    by a blank and the table option; otherwise it is the switch id. *)
Definition fmod_json (target : string) (expiry pri : Z)
    (match_opts action_opts : string) : string :=
  base_json
    +:+ quoted ("-h " +:+ target +:+ " -t " +:+ pretty expiry
                +:+ " -p " +:+ pretty pri +:+ " " +:+ match_opts
                +:+ " " +:+ action_opts +:+ " add 0xe5d br-int")
    +:+ " ] } ] }".

(** [if data.Table > 0 { table = fmt.Sprintf( "-T %d ", data.Table ) }] *)
Definition table_opt (data : Fq_req) : string :=
  if 0 <? Table data then "-T " +:+ pretty (Table data) +:+ " " else "".

(** What a non-nil, non-empty [Meta] adds to the options. *)
Definition meta_opt (m : option string) : string :=
  match m with
  | Some v => if bool_decide (v = "") then "" else " -m " +:+ v
  | None => ""
  end.

(** What the inbound switch port adds to the match options: the port
    number when it is valid; for the late binding port -128 the late
    binding MAC if there is one, and nothing (an error is logged) if
    there is none; nothing for any other negative port. *)
Definition inport_opt (data : Fq_req) : string :=
  if 0 <=? Swport (Match data) then " -i " +:+ pretty (Swport (Match data))
  else if Swport (Match data) =? -128 then
    match Lbmac data with
    | Some mac => " -i " +:+ mac
    | None => ""
    end
  else "".

(** The MAC to match on: the one given wins; without it the IP address, if
    given, is translated.  The outer [None] is the early [return] taken
    when the translation fails. *)
Definition mac_of (given ip : option string)
    (ip2mac : gmap string (option string)) : option (option string) :=
  match given with
  | Some _ => Some given
  | None =>
      match ip with
      | Some a =>
          match ip2mac !! a ≫= id with
          | Some m => Some (Some m)
          | None => None
          end
      | None => Some None
      end
  end.

Definition mac_opt (flag : string) (m : option string) : string :=
  match m with Some v => flag +:+ v | None => "" end.

(** [-p proto:port] and [-P proto:port]; port 0 matches the whole
    protocol. *)
Definition tp_opt (flag : string) (proto : option string) (port : Z) : string :=
  match proto with
  | Some pr => if 0 <=? port then flag +:+ pr +:+ ":" +:+ pretty port else ""
  | None => ""
  end.

(** The options after the inbound port: source and destination MAC, then
    the transport ports. *)
Definition match_tail (data : Fq_req) (smac dmac : option string) : string :=
  mac_opt " -s " smac +:+ mac_opt " -d " dmac
    +:+ tp_opt " -p " (Protocol data) (Tpsport (Match data))
    +:+ tp_opt " -P " (Protocol data) (Tpdport (Match data)).

Definition match_opts (data : Fq_req) (smac dmac : option string) : string :=
  "--match" +:+ meta_opt (Meta (Match data)) +:+ inport_opt data
    +:+ match_tail data smac dmac.

Definition resub_opts (r : option string) : string :=
  match r with
  | Some v => foldl (λ acc tok, acc +:+ " -R ," +:+ tok) "" (GoStrings.Split_sp v)
  | None => ""
  end.

Definition action_opts (data : Fq_req) : string :=
  let a := mac_opt " -d " (Dmac (Action data))
             +:+ mac_opt " -s " (Smac (Action data))
             +:+ mac_opt " -d " (Nxt_mac data)
             +:+ meta_opt (Meta (Action data))
             +:+ resub_opts (Resub (Action data)) in
  "--action " +:+ a +:+ " " +:+ "-N".

(** [send_stfmod_agent]: the request as the function leaves it (the
    priority is written back) and the messages sent to the agent manager
    as short requests, in order.  [None] is the panic of dereferencing a
    nil host list when the flow-mod goes to all switches. *)
Definition send_stfmod_agent (data : Fq_req)
    (ip2mac : gmap string (option string)) (hlist : option string)
  : option (Fq_req * list string) :=
  let data := if Pri data <=? 0 then with_Pri data 100 else data in
  let table := table_opt data in
  let on_all := bool_decide (Swid data = None) in
  match mac_of (Smac (Match data)) (Ip1 (Match data)) ip2mac with
  | None => Some (data, [])
  | Some smac =>
      match mac_of (Dmac (Match data)) (Ip2 (Match data)) ip2mac with
      | None => Some (data, [])
      | Some dmac =>
          let mo := match_opts data smac dmac in
          let ao := action_opts data in
          match Swid data with
          | None =>
              hl ← hlist;
              Some (data,
                    (λ host, fmod_json (host +:+ " " +:+ table)
                               (Expiry data) (Pri data) mo ao)
                      <$> GoStrings.Split_sp hl)
          | Some swid =>
              Some (data, [fmod_json swid (Expiry data) (Pri data) mo ao])
          end
      end
  end.
End FqSteer.

(** ** Sample data

    A small network and inventory on which the statements below are
    exercised: links are numbered, switches and hosts are named, a host's
    address is its name, and a link reports as switch/port/queue tuple the
    queue name, its own number (negated for the backward direction) and the
    timestamp it was asked about. *)
Module Samples.
Import PledgeWindow PathM ResMgr.
Local Open Scope Z_scope.

(** A three-switch, two-link path, built the way the network manager
    builds one. *)
Definition sample_heap : heap nat string string :=
  let '(p, m) := Mk_path (Some "h1") (Some "h2") ∅ in
  let m := default m (Add_link p (Some 11%nat) m) in
  let m := default m (Add_link p (Some 12%nat) m) in
  let m := default m (Add_switch p (Some "sw1") m) in
  let m := default m (Add_switch p (Some "sw2") m) in
  default m (Add_switch p (Some "sw3") m).

Definition sample_path : Path nat string string :=
  add_switch (add_switch (add_switch
    (add_link (add_link (new_path (Some "h1") (Some "h2")) 11%nat) 12%nat)
    (Some "sw1")) (Some "sw2")) (Some "sw3").

Definition spq : Type := (string * Z * Z)%type.
Definition sample_Mk_spq (i : spq) : spq := i.
Definition sample_forward_info (l : option nat) (qname : string) (ts : Z) : spq :=
  (qname, Z.of_nat (default 0%nat l), ts).
Definition sample_backward_info (l : option nat) (qname : string) (ts : Z) : spq :=
  (qname, - Z.of_nat (default 0%nat l), ts).
Definition sample_addresses (h : option string) : option string := h.

Definition sample_pledge : Pledge nat string string :=
  {| id := "res1"; usrkey := "alice";
     window := {| commence := 100; expiry := 200 |};
     pushed := false; paused := false;
     host1 := "h1"; host2 := "h2";
     tpport1 := None; tpport2 := None; dscp := 46;
     bandw_in := 50000000; bandw_out := 100000000;
     path_list := [sample_path] |}.

Definition sample_paused_pledge : Pledge nat string string :=
  {| id := "res2"; usrkey := "bob";
     window := {| commence := 50; expiry := 300 |};
     pushed := false; paused := true;
     host1 := "h1"; host2 := "h2";
     tpport1 := None; tpport2 := None; dscp := 46;
     bandw_in := 50000000; bandw_out := 100000000;
     path_list := [sample_path] |}.

Definition sample_inventory : Inventory nat string string :=
  (Add_res (Add_res Mk_inventory sample_pledge).2 sample_paused_pledge).2.

(** A network manager that resolves every name and accepts every delete. *)
Definition sample_nw (calls : nat) (req : nw_req nat string string) : nw_reply :=
  match req with
  | NW_REQ_DEL _ => {| State := None; Response_data := None |}
  | NW_REQ_GETIP name => {| State := None; Response_data := Some ("ip-" +:+ name) |}
  end.

(** The events of a push at time 95, five seconds before the first pledge
    commences and while the second, paused one is active. *)
Definition sample_push_events : list (event nat string string spq) :=
  (run (λ _, 95) sample_nw
     (push_reservations sample_Mk_spq sample_forward_info
        sample_backward_info sample_addresses sample_inventory) 0 0).2.

Definition requests (tr : list (event nat string string spq))
  : list (fq_data spq) :=
  omap (λ ev, match ev with Ev_fq d => Some d | _ => None end) tr.

(** A steering request without priority, whose inbound port is to be bound
    late to the MAC of the middlebox. *)
Definition sample_steer : FqSteer.Fq_req :=
  let m := {| FqSteer.Meta := Some "0x01/0x01"; FqSteer.Swport := -128;
              FqSteer.Smac := None; FqSteer.Dmac := None;
              FqSteer.Ip1 := Some "10.0.0.4"; FqSteer.Ip2 := None;
              FqSteer.Tpsport := -1; FqSteer.Tpdport := 80;
              FqSteer.Resub := None |} in
  let a := {| FqSteer.Meta := Some "0x02"; FqSteer.Swport := -1;
              FqSteer.Smac := None; FqSteer.Dmac := None;
              FqSteer.Ip1 := None; FqSteer.Ip2 := None;
              FqSteer.Tpsport := -1; FqSteer.Tpdport := -1;
              FqSteer.Resub := Some "10 90" |} in
  {| FqSteer.Pri := 0; FqSteer.Table := 0; FqSteer.Expiry := 3600;
     FqSteer.Swid := Some "ovs-host1";
     FqSteer.Lbmac := Some "fa:16:3e:aa:bb:cc";
     FqSteer.Nxt_mac := Some "fa:16:3e:11:22:33";
     FqSteer.Protocol := Some "tcp";
     FqSteer.Match := m; FqSteer.Action := a |}.

Definition sample_ip2mac : gmap string (option string) :=
  {[ "10.0.0.4" := Some "fa:16:3e:00:00:04" ]}.
End Samples.

(* ====================================================================== *)
(** * Properties                                                           *)
(* ====================================================================== *)

Module Int64Facts.
Import Int64.
Local Open Scope Z_scope.

Lemma wrap_in_range z : in_range z → wrap z = z.
Proof.
  unfold in_range, min_int, max_int, wrap. intros Hz.
  rewrite Z.mod_small; lia.
Qed.

Lemma wrap_range z : in_range (wrap z).
Proof.
  unfold in_range, min_int, max_int, wrap.
  pose proof (Z.mod_pos_bound (z + 2 ^ 63) (2 ^ 64)). lia.
Qed.

Lemma add_exact a b : in_range (a + b) → add a b = a + b.
Proof. apply wrap_in_range. Qed.

Lemma sub_exact a b : in_range (a - b) → sub a b = a - b.
Proof. apply wrap_in_range. Qed.
End Int64Facts.

Module PledgeWindowFacts.
Import PledgeWindow.
Local Open Scope Z_scope.

(** *** The state predicates, as the code computes them *)

Lemma is_pending_iff w now :
  is_pending (Some w) now = true ↔ now < commence w.
Proof. simpl. apply Z.ltb_lt. Qed.

Lemma is_expired_iff w now :
  is_expired (Some w) now = true ↔ expiry w <= now.
Proof. simpl. apply Z.leb_le. Qed.

Lemma is_active_iff w now :
  is_active (Some w) now = true ↔ commence w < now ∧ now < expiry w.
Proof. simpl. rewrite andb_true_iff, !Z.ltb_lt. tauto. Qed.

Lemma is_extinct_iff w window now :
  Int64.in_range (now - window) →
  is_extinct (Some w) window now = true ↔ expiry w <= now - window.
Proof.
  intros Hr. simpl. rewrite Int64Facts.sub_exact by done. apply Z.leb_le.
Qed.

(** At the commence instant the window is in none of the three states
    according to the predicates, for every window that has not expired. *)
Lemma no_state_at_commence w :
  commence w < expiry w →
  is_pending (Some w) (commence w) = false
  ∧ is_active (Some w) (commence w) = false
  ∧ is_expired (Some w) (commence w) = false.
Proof.
  intros H. simpl. rewrite Z.ltb_irrefl. simpl.
  split; [done|]. split; [done|]. apply Z.leb_gt. lia.
Qed.

(** C4 (the code departs from the claim).  The claim classifies a window as
    active exactly when [commence <= now < expiry], and the comment above
    [is_active] says the same.  At [now = commence] the function answers
    [false], while [state_str] on the same window and clock reports ACTIVE;
    [is_pending] and [is_expired] are false as well, so the predicates
    place the window in no state at all. *)
Theorem is_active_false_at_commence :
  let w := Some {| commence := 100; expiry := 200 |} in
  (commence {| commence := 100; expiry := 200 |} <= 100 < 200)
  ∧ is_active w 100 = false
  ∧ is_pending w 100 = false
  ∧ is_expired w 100 = false
  ∧ state_str w 100 = ("ACTIVE", "remaining", 100).
Proof. vm_compute. repeat split; congruence. Qed.

(** *** Window construction *)

(** C5 as stated fails.  At [now = 100] the request [commence = 50],
    [expiry = 100] has its commence time clamped to 100, so the expiry is
    not after the commence time; the window {100, 100} is built all the same
    and no error is returned.  Hence not every window with
    [expiry <= commence] after clamping is refused. *)
Lemma mk_pledge_window_equal_times_accepted :
  100 <= Z.max 50 100
  ∧ mk_pledge_window 100 50 100
    = (Some {| commence := 100; expiry := 100 |}, None)
  ∧ ¬ (∀ now commence expiry : Z,
         expiry <= Z.max commence now →
         (mk_pledge_window now commence expiry).1 = None).
Proof.
  split; [lia|]. split; [reflexivity|].
  intros H. specialize (H 100 50 100 ltac:(lia)). vm_compute in H.
  discriminate H.
Qed.

(** C5 (amended).  A commence time earlier than [now] is clamped to [now];
    after clamping, a window whose expiry is strictly before the commence
    time is rejected with an error and no window, and every other window,
    including the empty one with [expiry = commence], is accepted with the
    clamped commence time and the expiry as given. *)
Theorem mk_pledge_window_spec (now commence expiry : Z) :
  let c := Z.max commence now in
  (expiry < c →
     mk_pledge_window now commence expiry
     = (None, Some (bad_expiry_msg now expiry)))
  ∧ (c <= expiry →
     mk_pledge_window now commence expiry
     = (Some {| PledgeWindow.commence := c; PledgeWindow.expiry := expiry |}, None)).
Proof.
  unfold mk_pledge_window. simpl.
  assert (Hc : (if commence <? now then now else commence) = Z.max commence now).
  { destruct (Z.ltb_spec commence now); lia. }
  rewrite Hc. split; intros H.
  - apply Z.ltb_lt in H. by rewrite H.
  - apply Z.ltb_ge in H. by rewrite H.
Qed.

Lemma mk_pledge_window_spec_witness :
  mk_pledge_window 100 50 99 = (None, Some (bad_expiry_msg 100 99))
  ∧ mk_pledge_window 100 50 160
    = (Some {| commence := 100; expiry := 160 |}, None).
Proof.
  split.
  - apply (proj1 (mk_pledge_window_spec 100 50 99)). simpl. lia.
  - apply (proj2 (mk_pledge_window_spec 100 50 160)). simpl. lia.
Defined.
End PledgeWindowFacts.

Module NetReqFacts.
Import NetReq.

Lemma Get_values_nil :
  Get_values None = Return None None None None None None None None.
Proof. reflexivity. Qed.

(** C9.  For a non-nil [Net_vm] the values come back in the order
    (name, id, ip4, ip6, phost, gw, mac, fip): the result the signature
    names [gw] holds the physical host and the one it names [phost] holds
    the gateway. *)
Theorem Get_values_order (vm : Net_vm) :
  as_tuple (Get_values (Some vm))
  = (name vm, id vm, ip4 vm, ip6 vm, phost vm, gw vm, mac vm, fip vm)
  ∧ r_gw (Get_values (Some vm)) = phost vm
  ∧ r_phost (Get_values (Some vm)) = gw vm.
Proof. repeat split. Qed.

(** The swap is observable as soon as the two fields differ. *)
Example Get_values_swapped :
  let vm := Mk_netreq_vm (Some "vm1") (Some "id1") (Some "10.0.0.4") None
              (Some "compute-7") (Some "fa:16:3e:00:00:01")
              (Some "10.0.0.1") None ∅ in
  r_gw (Get_values (Some vm)) = Some "compute-7"
  ∧ r_phost (Get_values (Some vm)) = Some "10.0.0.1".
Proof. split; reflexivity. Qed.
End NetReqFacts.

Module PathFacts.
Import PathM.

Section Values.
Context {Link Switch Host : Type}.
Implicit Types (p : Path Link Switch Host) (l : Link) (s : option Switch).

Lemma new_path_wf (a b : option Host) : wf (new_path (Link:=Link) (Switch:=Switch) a b).
Proof. repeat split; simpl; lia. Qed.

Lemma take_grow {A} n (old : list (option A)) k :
  k ≤ length old → k ≤ n → take k (grow n old) = take k old.
Proof.
  intros Hk Hn. unfold grow.
  rewrite take_app_le by (rewrite length_take; lia).
  rewrite take_take. f_equal. lia.
Qed.

Lemma length_grow {A} n (old : list (option A)) :
  length old ≤ n → length (grow n old) = n.
Proof.
  intros H. unfold grow. rewrite length_app, length_take, length_replicate. lia.
Qed.

Lemma take_S_insert {A} (xs : list A) i x :
  i < length xs → take (S i) (<[i:=x]> xs) = take i xs ++ [x].
Proof.
  intros Hi.
  rewrite (take_S_r _ _ x) by (by apply list_lookup_insert_eq).
  by rewrite take_insert_ge.
Qed.

Lemma add_link_path_links p l :
  lidx p ≤ length (links p) →
  path_links (add_link p l) = path_links p ++ [Some l].
Proof.
  intros Hwf. unfold path_links, add_link. simpl.
  case_decide as Hfull.
  - rewrite take_S_insert by (rewrite length_grow; lia).
    by rewrite take_grow by lia.
  - rewrite take_S_insert by lia. done.
Qed.

Lemma add_link_bound p l :
  lidx p ≤ length (links p) →
  lidx (add_link p l) ≤ length (links (add_link p l)).
Proof.
  intros Hwf. unfold add_link. simpl. rewrite length_insert.
  case_decide; [rewrite length_grow|]; lia.
Qed.

Lemma add_switch_path_switches p s :
  sidx p ≤ length (switches p) →
  path_switches (add_switch p s) = path_switches p ++ [s].
Proof.
  intros Hwf. unfold path_switches, add_switch. simpl.
  case_decide as Hfull.
  - rewrite take_S_insert by (rewrite length_grow; lia).
    by rewrite take_grow by lia.
  - rewrite take_S_insert by lia. done.
Qed.

Lemma add_switch_bound p s :
  sidx p ≤ length (switches p) →
  sidx (add_switch p s) ≤ length (switches (add_switch p s)).
Proof.
  intros Hwf. unfold add_switch. simpl. rewrite length_insert.
  case_decide; [rewrite length_grow|]; lia.
Qed.

(** What a run of [Add_link] calls leaves behind. *)
Lemma add_links_spec (ls : list Link) p :
  lidx p ≤ length (links p) →
  let q := foldl add_link p ls in
  path_links q = path_links p ++ (Some <$> ls)
  ∧ lidx q ≤ length (links q)
  ∧ lidx q = lidx p + length ls
  ∧ switches q = switches p ∧ sidx q = sidx p
  ∧ h1 q = h1 p ∧ h2 q = h2 p ∧ is_reverse q = is_reverse p.
Proof.
  revert p. induction ls as [|l ls IH]; intros p Hwf; simpl.
  - rewrite app_nil_r. repeat split; lia.
  - destruct (IH (add_link p l) (add_link_bound p l Hwf))
      as (Hpl & Hb & Hn & -> & -> & -> & -> & ->).
    rewrite Hpl, add_link_path_links by done. rewrite <- app_assoc. simpl.
    repeat split; try done. rewrite Hn. simpl. lia.
Qed.

(** What a run of [Add_switch] calls leaves behind. *)
Lemma add_switches_spec (ss : list (option Switch)) p :
  sidx p ≤ length (switches p) →
  let q := foldl add_switch p ss in
  path_switches q = path_switches p ++ ss
  ∧ sidx q ≤ length (switches q)
  ∧ links q = links p ∧ lidx q = lidx p
  ∧ h1 q = h1 p ∧ h2 q = h2 p ∧ is_reverse q = is_reverse p.
Proof.
  revert p. induction ss as [|s ss IH]; intros p Hwf; simpl.
  - rewrite app_nil_r. repeat split; lia.
  - destruct (IH (add_switch p s) (add_switch_bound p s Hwf))
      as (Hps & Hb & -> & -> & -> & -> & ->).
    rewrite Hps, add_switch_path_switches by done. rewrite <- app_assoc.
    repeat split; done.
Qed.

(** The stored links of a well-formed path are all non-nil. *)
Lemma wf_links p : wf p → ∃ ls : list Link, path_links p = Some <$> ls.
Proof.
  intros (Hl & _ & Hnn). unfold path_links.
  remember (lidx p) as n eqn:Hn. clear Hn.
  induction n as [|n IH].
  - exists []. by rewrite take_0.
  - destruct IH as [ls Hls]; [lia | intros i Hi; apply Hnn; lia |].
    destruct (Hnn n) as [l Hlk]; [lia|].
    exists (ls ++ [l]). rewrite (take_S_r _ _ _ Hlk), Hls, fmap_app. done.
Qed.

Lemma links_wf p (ls : list Link) :
  lidx p ≤ length (links p) → sidx p ≤ length (switches p) →
  path_links p = Some <$> ls → wf p.
Proof.
  intros Hl Hs Hls. repeat split; [done..|].
  intros i Hi. unfold path_links in Hls.
  assert (Hlen : length ls = lidx p).
  { rewrite <- (length_fmap Some ls), <- Hls, length_take. lia. }
  destruct (lookup_lt_is_Some_2 ls i) as [l Hl']; [lia|].
  exists l. rewrite <- (lookup_take_lt _ (lidx p)) by done.
  by rewrite Hls, list_lookup_fmap, Hl'.
Qed.
End Values.

Section Heap.
Context {Link Switch Host : Type}.
Implicit Types (m : heap Link Switch Host) (pv ipv : Path Link Switch Host).
Implicit Types (p ip : positive).

(** The first loop of [Invert] appends the links of [p], last first, to
    the path at [ip] and touches nothing else in the heap. *)
Lemma invert_links_spec (ks : list Link) p ip m pv ipv :
  p ≠ ip → m !! p = Some pv → m !! ip = Some ipv →
  take (length ks) (links pv) = Some <$> ks →
  invert_links p ip (length ks) m
  = Some (<[ip := foldl add_link ipv (reverse ks)]> m).
Proof.
  intros Hne. revert m ipv.
  induction ks as [|l ks IH] using rev_ind; intros m ipv Hp Hip Hks.
  - simpl. by rewrite insert_id.
  - rewrite length_app, Nat.add_1_r in Hks |- *. simpl.
    rewrite Hp. simpl.
    assert (Hl : links pv !! length ks = Some (Some l)).
    { rewrite <- (lookup_take_lt _ (S (length ks))) by lia.
      rewrite Hks, list_lookup_fmap, lookup_app_r by lia.
      by rewrite Nat.sub_diag. }
    rewrite Hl. simpl. rewrite Hip. simpl.
    rewrite (IH _ (add_link ipv l)).
    + by rewrite insert_insert_eq, reverse_snoc.
    + by rewrite lookup_insert_ne.
    + by rewrite lookup_insert_eq.
    + apply (f_equal (take (length ks))) in Hks.
      rewrite take_take, Nat.min_l in Hks by lia.
      by rewrite Hks, fmap_app, take_app_length' by (by rewrite length_fmap).
Qed.

(** The second loop does the same for the switches, nil ones included. *)
Lemma invert_switches_spec (ss : list (option Switch)) p ip m pv ipv :
  p ≠ ip → m !! p = Some pv → m !! ip = Some ipv →
  take (length ss) (switches pv) = ss →
  invert_switches p ip (length ss) m
  = Some (<[ip := foldl add_switch ipv (reverse ss)]> m).
Proof.
  intros Hne. revert m ipv.
  induction ss as [|s ss IH] using rev_ind; intros m ipv Hp Hip Hss.
  - simpl. by rewrite insert_id.
  - rewrite length_app, Nat.add_1_r in Hss |- *. simpl.
    rewrite Hp. simpl.
    assert (Hs : switches pv !! length ss = Some s).
    { rewrite <- (lookup_take_lt _ (S (length ss))) by lia.
      rewrite Hss, lookup_app_r by lia. by rewrite Nat.sub_diag. }
    rewrite Hs. simpl. unfold Add_switch at 1. rewrite Hip. simpl.
    rewrite (IH _ (add_switch ipv s)).
    + by rewrite insert_insert_eq, reverse_snoc.
    + by rewrite lookup_insert_ne.
    + by rewrite lookup_insert_eq.
    + apply (f_equal (take (length ss))) in Hss.
      rewrite take_take, Nat.min_l in Hss by lia.
      by rewrite Hss, take_app_length.
Qed.

(** [Invert] on a well-formed path: it returns, the result lives at a
    fresh address, and the rest of the heap is as before. *)
Lemma Invert_spec m p pv :
  m !! p = Some pv → wf pv →
  ∃ ip ipv,
    Invert p m = Some (ip, <[ip := ipv]> m)
    ∧ m !! ip = None
    ∧ path_links ipv = reverse (path_links pv)
    ∧ path_switches ipv = reverse (path_switches pv)
    ∧ is_reverse ipv = negb (is_reverse pv)
    ∧ h1 ipv = h1 pv ∧ h2 ipv = h2 pv
    ∧ wf ipv.
Proof.
  intros Hp Hwf.
  destruct (wf_links pv Hwf) as [ls Hls].
  destruct Hwf as (Hlb & Hsb & Hnn).
  set (ip := fresh (dom m)).
  assert (Hfresh : m !! ip = None).
  { apply not_elem_of_dom. apply is_fresh. }
  assert (Hne : p ≠ ip) by (intros ->; congruence).
  assert (Hlen : length ls = lidx pv).
  { rewrite <- (length_fmap Some ls), <- Hls. unfold path_links.
    rewrite length_take. lia. }
  set (ss := path_switches pv).
  assert (Hslen : length ss = sidx pv).
  { unfold ss, path_switches. rewrite length_take. lia. }
  pose (np := new_path (h1 pv) (h2 pv) : Path Link Switch Host).
  set (a := foldl add_link np (reverse ls)).
  set (b := foldl add_switch a (reverse ss)).
  destruct (add_links_spec (reverse ls) np)
    as (Ha1 & Ha2 & Ha3 & Ha4 & Ha5 & Ha6 & Ha7 & Ha8); [simpl; lia|].
  fold a in Ha1, Ha2, Ha3, Ha4, Ha5, Ha6, Ha7, Ha8.
  destruct (add_switches_spec (reverse ss) a)
    as (Hb1 & Hb2 & Hb3 & Hb4 & Hb5 & Hb6 & Hb7).
  { rewrite Ha4, Ha5. simpl. lia. }
  fold b in Hb1, Hb2, Hb3, Hb4, Hb5, Hb6, Hb7.
  exists ip, (set_reverse b (negb (is_reverse pv))).
  split.
  { unfold Invert. rewrite Hp. simpl. fold ip.
    rewrite lookup_insert_ne by done. rewrite Hp. simpl.
    rewrite <- Hlen.
    rewrite (invert_links_spec ls p ip _ pv np);
      [| done | by rewrite lookup_insert_ne | by rewrite lookup_insert_eq
       | by rewrite Hlen ].
    simpl. rewrite insert_insert_eq. fold a.
    rewrite lookup_insert_ne by done. rewrite Hp. simpl.
    rewrite <- Hslen.
    rewrite (invert_switches_spec ss p ip _ pv a);
      [| done | by rewrite lookup_insert_ne | by rewrite lookup_insert_eq
       | by rewrite Hslen ].
    simpl. rewrite insert_insert_eq. fold b.
    rewrite lookup_insert_ne by done. rewrite Hp. simpl.
    unfold Set_reverse. rewrite lookup_insert_eq. simpl.
    by rewrite insert_insert_eq. }
  split; [done|].
  assert (Hpl : path_links (set_reverse b (negb (is_reverse pv)))
                = reverse (path_links pv)).
  { unfold path_links at 1. simpl. rewrite Hb3, Hb4.
    change (take (lidx a) (links a)) with (path_links a).
    rewrite Ha1, Hls. simpl. by rewrite fmap_reverse. }
  assert (Hps : path_switches (set_reverse b (negb (is_reverse pv)))
                = reverse (path_switches pv)).
  { unfold path_switches at 1. simpl.
    change (take (sidx b) (switches b)) with (path_switches b).
    rewrite Hb1. unfold path_switches at 1. rewrite Ha4, Ha5. simpl.
    done. }
  split; [done|]. split; [done|]. split; [done|].
  split; [simpl; by rewrite Hb5, Ha6|].
  split; [simpl; by rewrite Hb6, Ha7|].
  apply (links_wf _ (reverse ls)).
    + simpl. rewrite Hb3, Hb4. done.
    + simpl. done.
    + rewrite Hpl, Hls. by rewrite fmap_reverse.
Qed.

(** C10.  On a well-formed path (what [Mk_path], [Add_link] and
    [Add_switch] build) [Invert] returns a new path, allocated at an
    address that was free, whose links and switches are those of the
    original in reversed order and whose reverse flag is negated; the
    original is left as it was.  Inverting the result once more gives a
    path with the link order, switch order and reverse flag of the
    original. *)
Theorem Invert_reverses m p pv :
  m !! p = Some pv → wf pv →
  ∃ ip ipv m',
    Invert p m = Some (ip, m')
    ∧ ip ≠ p
    ∧ m' !! p = Some pv
    ∧ m' !! ip = Some ipv
    ∧ path_links ipv = reverse (path_links pv)
    ∧ path_switches ipv = reverse (path_switches pv)
    ∧ is_reverse ipv = negb (is_reverse pv)
    ∧ ∃ ip2 ipv2 m'',
        Invert ip m' = Some (ip2, m'')
        ∧ m'' !! p = Some pv
        ∧ m'' !! ip = Some ipv
        ∧ m'' !! ip2 = Some ipv2
        ∧ path_links ipv2 = path_links pv
        ∧ path_switches ipv2 = path_switches pv
        ∧ is_reverse ipv2 = is_reverse pv.
Proof.
  intros Hp Hwf.
  destruct (Invert_spec m p pv Hp Hwf)
    as (ip & ipv & Hinv & Hfree & Hl & Hs & Hr & _ & _ & Hwf').
  assert (Hne : ip ≠ p) by (intros ->; congruence).
  assert (Hip : <[ip := ipv]> m !! ip = Some ipv) by apply lookup_insert_eq.
  destruct (Invert_spec _ ip ipv Hip Hwf')
    as (ip2 & ipv2 & Hinv2 & Hfree2 & Hl2 & Hs2 & Hr2 & _ & _ & _).
  assert (Hne2 : ip2 ≠ ip) by (intros ->; congruence).
  assert (Hne3 : ip2 ≠ p).
  { intros ->. rewrite lookup_insert_ne in Hfree2 by done. congruence. }
  exists ip, ipv, (<[ip := ipv]> m).
  split; [done|]. split; [done|].
  split; [by rewrite lookup_insert_ne|].
  split; [done|]. split; [done|]. split; [done|]. split; [done|].
  exists ip2, ipv2, (<[ip2 := ipv2]> (<[ip := ipv]> m)).
  split; [done|].
  split; [by rewrite !lookup_insert_ne|].
  split; [by rewrite lookup_insert_ne|].
  split; [by rewrite lookup_insert_eq|].
  split; [by rewrite Hl2, Hl, reverse_involutive|].
  split; [by rewrite Hs2, Hs, reverse_involutive|].
  rewrite Hr2, Hr. apply negb_involutive.
Qed.
End Heap.

(** The invariant [wf] is what the constructors establish. *)
Lemma Mk_path_wf {Link Switch Host : Type} (a b : option Host)
    (m : heap Link Switch Host) :
  ∃ pv, (Mk_path a b m).2 !! (Mk_path a b m).1 = Some pv ∧ wf pv.
Proof.
  exists (new_path a b). split; [apply lookup_insert_eq | apply new_path_wf].
Qed.

Lemma add_link_wf {Link Switch Host : Type} (p : Path Link Switch Host) l :
  wf p → wf (add_link p l).
Proof.
  intros Hwf. destruct (wf_links p Hwf) as [ls Hls].
  destruct Hwf as (Hl & Hs & _).
  apply (links_wf _ (ls ++ [l])).
  - by apply add_link_bound.
  - done.
  - by rewrite add_link_path_links, Hls, fmap_app.
Qed.

Lemma add_switch_wf {Link Switch Host : Type} (p : Path Link Switch Host) s :
  wf p → wf (add_switch p s).
Proof.
  intros (Hl & Hs & Hnn). repeat split; [done | by apply add_switch_bound | done].
Qed.

(** The double inversion of the sample path. *)
Import Samples.

Lemma Invert_reverses_witness :
  ∃ ip ipv m',
    Invert 1%positive sample_heap = Some (ip, m')
    ∧ ip ≠ 1%positive
    ∧ m' !! 1%positive = Some sample_path
    ∧ m' !! ip = Some ipv
    ∧ path_links ipv = reverse (path_links sample_path)
    ∧ path_switches ipv = reverse (path_switches sample_path)
    ∧ is_reverse ipv = negb (is_reverse sample_path)
    ∧ ∃ ip2 ipv2 m'',
        Invert ip m' = Some (ip2, m'')
        ∧ m'' !! 1%positive = Some sample_path
        ∧ m'' !! ip = Some ipv
        ∧ m'' !! ip2 = Some ipv2
        ∧ path_links ipv2 = path_links sample_path
        ∧ path_switches ipv2 = path_switches sample_path
        ∧ is_reverse ipv2 = is_reverse sample_path.
Proof.
  apply (Invert_reverses sample_heap 1%positive sample_path).
  - vm_compute. reflexivity.
  - repeat apply add_switch_wf. repeat apply add_link_wf. apply new_path_wf.
Defined.
End PathFacts.

Module PathQueueFacts.
Import PathM.

Section Queues.
Context {Link Switch Host Info Spq : Type}.
Context (Mk_spq : Info → Spq).
Context (Get_forward_info Get_backward_info : option Link → string → Z → Info).
Implicit Types (p : Path Link Switch Host) (qid : string) (tstamp : Z).

Local Abbreviation looked_up_at :=
  (PathM.looked_up_at Mk_spq Get_forward_info Get_backward_info).

Lemma Get_ilink_spq_looked_up p qid tstamp o q :
  Get_ilink_spq Mk_spq Get_forward_info p qid tstamp = Some o →
  o = Some q → looked_up_at p tstamp q.
Proof.
  unfold Get_ilink_spq, spq_at. intros H ->.
  destruct (if is_reverse p then _ else _) as [i|]; [|done].
  destruct (links p !! i) as [l|] eqn:Hl; simpl in H; [|done].
  injection H as <-. exists l, qid. split; [|by left].
  left. by apply (list_elem_of_lookup_2 _ i).
Qed.

Lemma Get_elink_spq_looked_up p qid tstamp o q :
  Get_elink_spq Mk_spq Get_backward_info p qid tstamp = Some o →
  o = Some q → looked_up_at p tstamp q.
Proof.
  unfold Get_elink_spq, spq_at. intros H ->.
  destruct (if is_reverse p then _ else _) as [i|]; [|done].
  destruct (links p !! i) as [l|] eqn:Hl; simpl in H; [|done].
  injection H as <-. exists l, qid. split; [|by right].
  left. by apply (list_elem_of_lookup_2 _ i).
Qed.

(** The ingress and the egress tuple are nil only on a path that has no
    link. *)
Lemma Get_ilink_spq_nil p qid tstamp :
  Get_ilink_spq Mk_spq Get_forward_info p qid tstamp = Some None →
  lidx p = 0.
Proof.
  unfold Get_ilink_spq, spq_at.
  destruct (is_reverse p); [destruct (lidx p) as [|n]; [done|simpl]|];
    by destruct (links p !! _).
Qed.

Lemma Get_elink_spq_nil p qid tstamp :
  Get_elink_spq Mk_spq Get_backward_info p qid tstamp = Some None →
  lidx p = 0.
Proof.
  unfold Get_elink_spq, spq_at.
  destruct (is_reverse p); [|destruct (lidx p) as [|n]; [done|simpl]];
    by destruct (links p !! _).
Qed.

Lemma collect_spq_looked_up info qname p tstamp idxs qs :
  (info = Get_forward_info ∨ info = Get_backward_info) →
  collect_spq Mk_spq info qname p tstamp idxs = Some qs →
  Forall (looked_up_at p tstamp) qs.
Proof.
  intros Hinfo. unfold collect_spq. case_decide as Hlen; [done|].
  intros H%mapM_Some_1. clear Hlen.
  induction H as [|i q idxs' qs' Hi _ IH]; [constructor|].
  constructor; [|done].
  destruct (links p !! i) as [l|] eqn:Hl; simpl in Hi; [|done].
  injection Hi as <-. exists l, qname.
  split; [left; by apply (list_elem_of_lookup_2 _ i)|].
  destruct Hinfo as [-> | ->]; auto.
Qed.

Lemma Get_forward_im_spq_looked_up p tstamp qs :
  Get_forward_im_spq Mk_spq Get_forward_info p tstamp = Some qs →
  Forall (looked_up_at p tstamp) qs.
Proof. apply collect_spq_looked_up. by left. Qed.

Lemma Get_backward_im_spq_looked_up p tstamp qs :
  Get_backward_im_spq Mk_spq Get_backward_info p tstamp = Some qs →
  Forall (looked_up_at p tstamp) qs.
Proof. apply collect_spq_looked_up. by right. Qed.

Lemma endpoint_spq_looked_up p idx pfx qid tstamp o q :
  endpoint_spq Mk_spq Get_forward_info p idx pfx qid tstamp = Some o →
  o = Some q → looked_up_at p tstamp q.
Proof.
  unfold endpoint_spq. intros H ->.
  destruct (endpts p !! idx) as [ep|] eqn:Hep; simpl in H; [|done].
  destruct ep as [l|]; [|done]. injection H as <-.
  exists (Some l), (pfx +:+ qid). split; [|by left].
  right. by apply (list_elem_of_lookup_2 _ idx).
Qed.

Lemma Get_endpoint_spq_looked_up p qid tstamp e0 e1 :
  Get_endpoint_spq Mk_spq Get_forward_info p qid tstamp = Some (e0, e1) →
  (∀ q, e0 = Some q → looked_up_at p tstamp q)
  ∧ (∀ q, e1 = Some q → looked_up_at p tstamp q).
Proof.
  unfold Get_endpoint_spq.
  destruct (is_reverse p).
  - destruct (endpoint_spq _ _ p 1 _ _ _) as [a|] eqn:Ha; simpl; [|done].
    destruct (endpoint_spq _ _ p 0 _ _ _) as [b|] eqn:Hb; simpl; [|done].
    intros [= <- <-]. split; intros q Hq.
    + by apply (endpoint_spq_looked_up _ _ _ _ _ _ _ Ha).
    + by apply (endpoint_spq_looked_up _ _ _ _ _ _ _ Hb).
  - destruct (endpoint_spq _ _ p 0 _ _ _) as [a|] eqn:Ha; simpl; [|done].
    destruct (endpoint_spq _ _ p 1 _ _ _) as [b|] eqn:Hb; simpl; [|done].
    intros [= <- <-]. split; intros q Hq.
    + by apply (endpoint_spq_looked_up _ _ _ _ _ _ _ Ha).
    + by apply (endpoint_spq_looked_up _ _ _ _ _ _ _ Hb).
Qed.
End Queues.
End PathQueueFacts.

Module ResMgrFacts.
Import PledgeWindow PathM ResMgr.

(** *** Inventory operations *)
Section Inventory.
Context {Link Switch Host : Type}.
Implicit Types (inv : Inventory Link Switch Host) (p : Pledge Link Switch Host).
Implicit Types (name cookie super_cookie : string).

Lemma Mk_inventory_keyed : keyed_by_id (Mk_inventory (Link:=Link) (Switch:=Switch) (Host:=Host)).
Proof. intros k p. simpl. by rewrite lookup_empty. Qed.

Lemma keyed_unique inv k1 k2 p1 p2 :
  keyed_by_id inv →
  cache inv !! k1 = Some p1 → cache inv !! k2 = Some p2 →
  Get_id p1 = Get_id p2 → k1 = k2 ∧ p1 = p2.
Proof.
  intros Hk H1 H2 Hid.
  assert (k1 = k2) as -> by (rewrite <- (Hk _ _ H1), <- (Hk _ _ H2); done).
  split; [done | congruence].
Qed.

Lemma Add_res_fresh inv p :
  cache inv !! Get_id p = None →
  Add_res inv p = (None, {| cache := <[Get_id p := p]> (cache inv) |}).
Proof. intros H. unfold Add_res. by rewrite H. Qed.

Lemma Add_res_taken inv p q :
  cache inv !! Get_id p = Some q →
  Add_res inv p
  = (Some ("reservation already exists: " +:+ Get_id p), inv).
Proof. intros H. unfold Add_res. by rewrite H. Qed.

Lemma Add_res_keyed inv p : keyed_by_id inv → keyed_by_id (Add_res inv p).2.
Proof.
  intros Hk. unfold Add_res.
  destruct (cache inv !! Get_id p) as [q|] eqn:Hq; simpl; [done|].
  intros k p'. simpl. rewrite lookup_insert.
  case_decide as Hd; [|by apply Hk]. intros [= <-]. done.
Qed.

(** C3.  [Add_res] reports an error exactly when a pledge with the same
    id is in the inventory, and then leaves the inventory as it was;
    otherwise the pledge is stored under its id and nothing else
    changes.  An inventory in which every pledge sits under its own id
    stays so, and such an inventory holds at most one pledge per id. *)
Theorem Add_res_spec inv p :
  (is_Some (Add_res inv p).1 ↔ is_Some (cache inv !! Get_id p))
  ∧ (is_Some (Add_res inv p).1 → (Add_res inv p).2 = inv)
  ∧ ((Add_res inv p).1 = None →
       cache (Add_res inv p).2 = <[Get_id p := p]> (cache inv)
       ∧ cache (Add_res inv p).2 !! Get_id p = Some p)
  ∧ (keyed_by_id inv →
       keyed_by_id (Add_res inv p).2
       ∧ ∀ k1 k2 p1 p2,
           cache (Add_res inv p).2 !! k1 = Some p1 →
           cache (Add_res inv p).2 !! k2 = Some p2 →
           Get_id p1 = Get_id p2 → k1 = k2 ∧ p1 = p2).
Proof.
  split; [|split; [|split]].
  - unfold Add_res. destruct (cache inv !! Get_id p); simpl.
    + split; eauto.
    + split; intros [? ?]; done.
  - unfold Add_res. destruct (cache inv !! Get_id p); simpl; [done|].
    intros [? ?]; done.
  - unfold Add_res. destruct (cache inv !! Get_id p); simpl; [done|].
    intros _. split; [done | apply lookup_insert_eq].
  - intros Hk. split; [by apply Add_res_keyed|].
    intros k1 k2 p1 p2. apply keyed_unique. by apply Add_res_keyed.
Qed.

(** Uniqueness holds at any time for an inventory filled by [Add_res]. *)
Lemma Add_res_sequence_keyed (ps : list (Pledge Link Switch Host)) :
  keyed_by_id (foldl (λ inv p, (Add_res inv p).2) Mk_inventory ps).
Proof.
  assert (H : ∀ inv, keyed_by_id inv →
            keyed_by_id (foldl (λ inv p, (Add_res inv p).2) inv ps)).
  { induction ps as [|p ps IH]; intros inv Hk; simpl; [done|].
    apply IH. by apply Add_res_keyed. }
  apply H, Mk_inventory_keyed.
Qed.

Lemma Get_res_found super_cookie inv name cookie p :
  cache inv !! name = Some p →
  Get_res super_cookie inv name cookie
  = if negb (bool_decide (usrkey p = cookie))
       && negb (bool_decide (cookie = super_cookie))
    then (None, Some ("not authorised to access or delete reservation: " +:+ name))
    else (Some p, None).
Proof. intros H. unfold Get_res. by rewrite H. Qed.

Lemma Get_res_Some super_cookie inv name cookie p st :
  Get_res super_cookie inv name cookie = (Some p, st) →
  cache inv !! name = Some p
  ∧ (usrkey p = cookie ∨ cookie = super_cookie) ∧ st = None.
Proof.
  unfold Get_res. destruct (cache inv !! name) as [q|]; [|done].
  unfold Is_valid_cookie.
  destruct (bool_decide_reflect (usrkey q = cookie));
    destruct (bool_decide_reflect (cookie = super_cookie)); simpl;
    intros [= <- <-]; auto.
Qed.
End Inventory.

Section Manager.
Context {Link Switch Host Info Spq : Type}.
Context (Mk_spq : Info → Spq).
Context (Get_forward_info Get_backward_info : option Link → string → Z → Info).
Context (Get_addresses : option Host → option string).
Context (super_cookie : string).
Implicit Types (inv : Inventory Link Switch Host) (p : Pledge Link Switch Host).
Implicit Types (name cookie : string).

Local Abbreviation Res_manager :=
  (ResMgr.Res_manager Mk_spq Get_forward_info Get_backward_info
     Get_addresses super_cookie).
Local Abbreviation Del_res := (ResMgr.Del_res (Spq:=Spq) super_cookie).
Local Abbreviation Get_res := (ResMgr.Get_res super_cookie).

(** C2.  For a name that is in the inventory, [Get_res] returns the
    pledge and no error exactly when the pledge accepts the cookie, which
    it does when the cookie is its owner cookie, or the cookie is the super
    cookie; otherwise it returns no pledge and the not-authorised error.
    The fetch request leaves the inventory as it was: the reply is what
    [Get_res] returned, next to the inventory the request found. *)
Theorem Get_res_cookie_authority inv name cookie p :
  cache inv !! name = Some p →
  (Get_res inv name cookie = (Some p, None)
     ↔ Is_valid_cookie p cookie = true ∨ cookie = super_cookie)
  ∧ (Is_valid_cookie p cookie = true ↔ usrkey p = cookie)
  ∧ (¬ (Is_valid_cookie p cookie = true ∨ cookie = super_cookie) →
       Get_res inv name cookie
       = (None, Some ("not authorised to access or delete reservation: "
                        +:+ name)))
  ∧ Res_manager inv (REQ_GET name cookie)
    = Ret ((Get_res inv name cookie).1, (Get_res inv name cookie).2, inv).
Proof.
  intros Hp.
  assert (Hget : Get_res inv name cookie
                 = if negb (Is_valid_cookie p cookie)
                      && negb (bool_decide (cookie = super_cookie))
                   then (None, Some ("not authorised to access or delete reservation: "
                                       +:+ name))
                   else (Some p, None)).
  { unfold ResMgr.Get_res. by rewrite Hp. }
  split; [|split; [|split]].
  - rewrite Hget.
    destruct (Is_valid_cookie p cookie);
      destruct (bool_decide_reflect (cookie = super_cookie)); simpl;
      split; auto; try done.
    intros [?|?]; done.
  - unfold Is_valid_cookie. apply bool_decide_eq_true.
  - intros Hno. rewrite Hget.
    destruct (Is_valid_cookie p cookie); [tauto|].
    destruct (bool_decide_reflect (cookie = super_cookie)); [tauto|].
    done.
  - simpl. by destruct (ResMgr.Get_res _ _ _ _).
Qed.

(** C1.  When [Del_res] finds the pledge and the cookie is accepted, the
    first thing the function does is the call to the network manager:
    the delete request is sent, carrying the pledge as the inventory
    holds it, and the reply is awaited.  Only the continuation of that
    call reads the clock and writes: the entry gets expiry [now + 15]
    and a cleared pushed flag, and the state returned is the one of the
    reply.  In every run the events are the network call followed by
    the clock reading the new expiry is computed from. *)
Theorem Del_res_release_before_expiry inv name cookie p st :
  Get_res inv name cookie = (Some p, st) →
  cache inv !! name = Some p
  ∧ (∃ k, Del_res inv name cookie = Nw_call (NW_REQ_DEL p) k
       ∧ ∀ reply, ∃ k',
           k reply = Now k'
           ∧ ∀ now,
               k' now
               = Ret (State reply,
                      {| cache := <[name := Reset_pushed
                                      (Set_expiry p (Int64.add now 15))]>
                                    (cache inv) |}))
  ∧ ∀ clock nw reads calls,
      let reply := nw calls (NW_REQ_DEL p) in
      let now := clock reads in
      ∃ inv' p',
        run clock nw (Del_res inv name cookie) reads calls
        = (Some (State reply, inv'),
           [Ev_nw (NW_REQ_DEL p) reply; Ev_now now])
        ∧ cache inv' !! name = Some p'
        ∧ expiry (window p') = Int64.add now 15
        ∧ (Int64.in_range (now + 15) → expiry (window p') = (now + 15)%Z)
        ∧ Is_pushed p' = false
        ∧ commence (window p') = commence (window p)
        ∧ ∀ other, other ≠ name → cache inv' !! other = cache inv !! other.
Proof.
  intros Hget.
  destruct (Get_res_Some _ _ _ _ _ _ Hget) as (Hp & _ & ->).
  split; [done|]. split.
  - unfold ResMgr.Del_res. rewrite Hget. simpl.
    eexists. split; [reflexivity|].
    intros reply. simpl. eexists. split; [reflexivity|].
    intros now. reflexivity.
  - intros clock nw reads calls reply now.
    eexists _, _. split; [|split].
    + unfold ResMgr.Del_res. rewrite Hget. simpl. reflexivity.
    + simpl. apply lookup_insert_eq.
    + simpl. split; [done|]. split.
      { intros Hr. by apply Int64Facts.add_exact. }
      split; [done|]. split; [done|].
      intros other Hne. by rewrite lookup_insert_ne.
Qed.

(** *** Reasoning about the requests a computation queues *)

Implicit Types (P : fq_data Spq → Prop) (d : fq_data Spq).

Lemma sends_bind {A B} T P (Q : B → Prop)
    (m : prog Link Switch Host Spq A) (f : A → prog Link Switch Host Spq B) :
  sends T P (λ a, sends T P Q (f a)) m → sends T P Q (m ≫= f).
Proof.
  unfold mbind, prog_bind.
  induction m as [a| |k IH|req k IH|req k IH]; simpl; try done.
  - intros H t Ht. apply IH, H, Ht.
  - intros H r. apply IH, H.
  - intros [? ?]. split; [done|]. by apply IH.
Qed.

Lemma sends_weaken {A} T P P' (Q Q' : A → Prop)
    (m : prog Link Switch Host Spq A) :
  (∀ d, P d → P' d) → (∀ a, Q a → Q' a) →
  sends T P Q m → sends T P' Q' m.
Proof.
  intros HP HQ.
  induction m as [a| |k IH|req k IH|req k IH]; simpl; try done.
  - apply HQ.
  - intros H t Ht. apply IH, H, Ht.
  - intros H r. apply IH, H.
  - intros [? ?]. split; [by apply HP | by apply IH].
Qed.

Lemma sends_must {A} T P (Q : A → Prop) (o : option A) :
  (∀ a, o = Some a → Q a) →
  sends T P Q (must o : prog Link Switch Host Spq A).
Proof. destruct o; simpl; auto. Qed.

Lemma sends_send T P (Q : unit → Prop) d :
  P d → Q tt →
  sends T P Q (send_copy d : prog Link Switch Host Spq unit).
Proof. simpl. auto. Qed.

Lemma sends_foldM {A B} T P (I : A → Prop)
    (f : A → B → prog Link Switch Host Spq A) (l : list B) (a : A) :
  I a → (∀ a b, b ∈ l → I a → sends T P I (f a b)) →
  sends T P I (foldM f a l).
Proof.
  revert a. induction l as [|b l IH]; intros a Ha Hf; simpl; [done|].
  apply sends_bind.
  eapply sends_weaken; [done| |apply Hf; [left|done]].
  intros a' Ha'. apply IH; [done|].
  intros a'' b' Hb'. apply Hf. by right.
Qed.

(** What [sends] promises holds of the events of every run whose clock
    readings all satisfy [T]. *)
Lemma sends_run {A} T P (Q : A → Prop)
    (m : prog Link Switch Host Spq A) clock nw reads calls :
  (∀ k, T (clock k)) →
  sends T P Q m →
  (∀ d, Ev_fq d ∈ (run clock nw m reads calls).2 → P d)
  ∧ (∀ a, (run clock nw m reads calls).1 = Some a → Q a).
Proof.
  intros HT. revert reads calls.
  induction m as [a| |k IH|req k IH|req k IH]; intros reads calls Hs; simpl in *.
  - split; [intros d Hd; by apply elem_of_nil in Hd | by intros ? [= <-]].
  - split; [intros d Hd; by apply elem_of_nil in Hd | done].
  - destruct (IH (clock reads) (S reads) calls (Hs _ (HT reads))) as [H1 H2].
    destruct (run clock nw (k (clock reads)) (S reads) calls) as [r tr].
    simpl in *.
    split; [|done]. intros d [Hd|Hd]%elem_of_cons; [done | by apply H1].
  - destruct (IH _ reads (S calls) (Hs (nw calls req))) as [H1 H2].
    destruct (run clock nw (k _) reads (S calls)) as [r tr]. simpl in *.
    split; [|done]. intros d [Hd|Hd]%elem_of_cons; [done | by apply H1].
  - destruct Hs as [Hreq Hs].
    destruct (IH reads calls Hs) as [H1 H2].
    destruct (run clock nw k reads calls) as [r tr]. simpl in *.
    split; [|done].
    intros d [Hd|Hd]%elem_of_cons; [by injection Hd as -> | by apply H1].
Qed.

(** *** The requests of [push_reservations] *)

Local Abbreviation push_path :=
  (ResMgr.push_path Mk_spq Get_forward_info Get_backward_info Get_addresses).
Local Abbreviation push_pledge :=
  (ResMgr.push_pledge Mk_spq Get_forward_info Get_backward_info Get_addresses).
Local Abbreviation push_entries :=
  (ResMgr.push_entries Mk_spq Get_forward_info Get_backward_info Get_addresses).
Local Abbreviation push_reservations :=
  (ResMgr.push_reservations Mk_spq Get_forward_info Get_backward_info
     Get_addresses).
Local Abbreviation req_ok :=
  (ResMgr.req_ok (Switch:=Switch) (Host:=Host)
     Mk_spq Get_forward_info Get_backward_info).
Local Abbreviation pushed_ok :=
  (ResMgr.pushed_ok (Switch:=Switch) (Host:=Host)
     Mk_spq Get_forward_info Get_backward_info).

Lemma sends_bind_inv {A B} T P (I : A → Prop) (Q : B → Prop)
    (m : prog Link Switch Host Spq A) (f : A → prog Link Switch Host Spq B) :
  sends T P I m → (∀ a, I a → sends T P Q (f a)) →
  sends T P Q (m ≫= f).
Proof.
  intros Hm Hf. apply sends_bind. by eapply sends_weaken; [| |apply Hm].
Qed.

Lemma req_ok_intro path ts e id d o :
  d FQ_EXPIRY = e → d FQ_ID = id → d FQ_SPQ = VSpq o →
  (∀ q, o = Some q →
     looked_up_at Mk_spq Get_forward_info Get_backward_info path ts q) →
  (o = None → lidx path = 0) →
  req_ok path ts e id d.
Proof.
  intros He Hid Hspq Ho Hnil. split; [done|]. split; [done|].
  rewrite Hspq. destruct o as [q|]; [right|left; split; [done|by apply Hnil]].
  exists q. split; [done|]. by apply Ho.
Qed.

Local Ltac fq := unfold fq_set; simpl; auto.

(** Every request queued for one path carries the expiry and the id the
    work array held on entry, and a tuple looked up from that path at
    [ts]; the work array leaves with the same expiry and id. *)
Lemma push_path_sends T rname (tp1 tp2 : option string) ts d path e :
  d FQ_EXPIRY = e → d FQ_ID = VStr rname →
  sends T (req_ok path ts e (VStr rname))
    (λ d', d' FQ_EXPIRY = e ∧ d' FQ_ID = VStr rname)
    (push_path rname tp1 tp2 ts d path).
Proof.
  intros He Hid. unfold ResMgr.push_path.
  set (ok := λ d' : fq_data Spq, d' FQ_EXPIRY = e ∧ d' FQ_ID = VStr rname).
  apply sends_bind, sends_must; intros epip1 _.
  apply sends_bind, sends_must; intros epip2 _.
  apply sends_bind, sends_must; intros [espq1 espq0] Hep.
  destruct (PathQueueFacts.Get_endpoint_spq_looked_up _ _ Get_backward_info
              _ _ _ _ _ Hep) as [Hl1 Hl0].
  apply (sends_bind_inv _ _ ok).
  { destruct espq1 as [q1|]; [|split; fq].
    apply sends_bind, sends_send; [|split; fq].
    apply (req_ok_intro _ _ _ _ _ (Some q1)); fq; done. }
  intros d1 [He1 Hid1].
  apply sends_bind, sends_must; intros spq Hspq.
  apply sends_bind, sends_send.
  { apply (req_ok_intro _ _ _ _ _ spq); fq.
    - intros q Hq.
      by apply (PathQueueFacts.Get_ilink_spq_looked_up _ _ Get_backward_info
                  _ _ _ _ _ Hspq).
    - intros ->. by apply (PathQueueFacts.Get_ilink_spq_nil _ _ _ _ _ Hspq). }
  apply sends_bind, sends_must; intros ilist Hil.
  apply PathQueueFacts.Get_forward_im_spq_looked_up
    with (Get_backward_info := Get_backward_info) in Hil.
  apply (sends_bind_inv _ _ (λ _, True)).
  { apply sends_foldM; [done|]. intros [] q Hq _.
    apply sends_send; [|done].
    apply (req_ok_intro _ _ _ _ _ (Some q)); fq; [|done].
    intros q' [= <-]. by apply (proj1 (Forall_forall _ _) Hil). }
  intros _ _.
  apply sends_bind, sends_must; intros epip3 _.
  apply sends_bind, sends_must; intros epip4 _.
  apply (sends_bind_inv _ _ ok).
  { destruct espq0 as [q0|]; [|split; fq].
    apply sends_bind, sends_send; [|split; fq].
    apply (req_ok_intro _ _ _ _ _ (Some q0)); fq; done. }
  intros d2 [He2 Hid2].
  apply sends_bind, sends_must; intros spq' Hspq'.
  apply sends_bind, sends_send.
  { apply (req_ok_intro _ _ _ _ _ spq'); fq.
    - intros q Hq.
      by apply (PathQueueFacts.Get_elink_spq_looked_up _ Get_forward_info _
                  _ _ _ _ _ Hspq').
    - intros ->. by apply (PathQueueFacts.Get_elink_spq_nil _ _ _ _ _ Hspq'). }
  apply sends_bind, sends_must; intros ilist' Hil'.
  apply PathQueueFacts.Get_backward_im_spq_looked_up
    with (Get_forward_info := Get_forward_info) in Hil'.
  apply sends_foldM; [split; fq|].
  intros d3 q Hq [He3 Hid3].
  apply sends_bind, sends_send; [|split; fq].
  apply (req_ok_intro _ _ _ _ _ (Some q)); fq; [|done].
  intros q' [= <-]. by apply (proj1 (Forall_forall _ _) Hil').
Qed.

Lemma sends_time_now {B} T P (Q : B → Prop)
    (f : Z → prog Link Switch Host Spq B) :
  (∀ t, T t → sends T P Q (f t)) → sends T P Q (time_now ≫= f).
Proof. intros H. apply sends_bind. simpl. done. Qed.

Lemma sends_name2ip {B} T P (Q : B → Prop) name
    (f : option string → prog Link Switch Host Spq B) :
  (∀ o, sends T P Q (f o)) → sends T P Q (name2ip name ≫= f).
Proof. intros H. apply sends_bind. simpl. intros r. apply H. Qed.

Lemma sends_is_selected {B} T P (Q : B → Prop) p
    (f : bool → prog Link Switch Host Spq B) :
  (∀ t1 t2, T t1 → T t2 →
     Is_active p t1 = true ∨ Is_active_soon p 15 t2 = true →
     sends T P Q (f true)) →
  sends T P Q (f false) →
  sends T P Q (is_selected p ≫= f).
Proof.
  intros Ht Hf. apply sends_bind. unfold is_selected.
  apply sends_time_now. intros t1 Ht1.
  destruct (Is_active p t1) eqn:Ha; simpl; [by apply (Ht t1 t1); auto|].
  intros t2 Ht2.
  destruct (Is_active_soon p 15 t2) eqn:Hs; simpl;
    [by apply (Ht t1 t2); auto|done].
Qed.

(** The requests queued while the loop handles one entry of the cache
    are those of a selected pledge. *)
Lemma push_pledge_sends inv0 T st rname p :
  cache inv0 !! rname = Some p →
  sends T (pushed_ok inv0 T) (λ _, True) (push_pledge st (rname, p)).
Proof.
  intros Hp. unfold ResMgr.push_pledge.
  destruct st as [d np npe npu inv].
  destruct (Is_pushed p) eqn:Hpushed; [simpl; done|].
  cbn [negb]. cbv beta iota.
  apply sends_is_selected; [intros t1 t2 Ht1 Ht2 Hsel|simpl; done].
  unfold Get_values. cbv beta iota zeta.
  apply sends_name2ip; intros ip1. apply sends_name2ip; intros ip2.
  destruct ip1 as [ip1|]; [|done]. destruct ip2 as [ip2|]; [|done].
  apply (sends_bind_inv _ _
           (λ d', ∃ t3, T t3 ∧
              d' FQ_EXPIRY = VInt (if Is_paused p then Int64.add t3 15
                                   else expiry (window p)))).
  { destruct (Is_paused p).
    - apply sends_time_now. intros t3 Ht3. simpl. exists t3.
      split; [done|]. unfold fq_set. simpl. done.
    - simpl. exists t1. split; [done|]. unfold fq_set. simpl. done. }
  intros d1 (t3 & Ht3 & He1).
  apply sends_time_now. intros t4 Ht4.
  set (e := VInt (if Is_paused p then Int64.add t3 15
                  else expiry (window p)) : value Spq) in *.
  apply (sends_bind_inv _ _
           (λ d', d' FQ_EXPIRY = e ∧ d' FQ_ID = VStr rname)); [|done].
  apply sends_foldM; [split; unfold fq_set; simpl; done|].
  intros d2 path Hpath [He2 Hid2].
  eapply sends_weaken; [| |by apply push_path_sends]; [|done].
  intros d3 Hd3. exists rname, p, path, t1, t2, t3, t4. done.
Qed.

Lemma push_entries_sends inv0 T inv entries :
  (∀ rname p, (rname, p) ∈ entries → cache inv0 !! rname = Some p) →
  sends T (pushed_ok inv0 T) (λ _, True) (push_entries inv entries).
Proof.
  intros Hentries. unfold ResMgr.push_entries.
  apply (sends_bind_inv _ _ (λ _, True)); [|done].
  apply sends_foldM; [done|].
  intros st [rname p] Hin _. apply push_pledge_sends. by apply Hentries.
Qed.

Lemma push_reservations_sends inv T :
  sends T (pushed_ok inv T) (λ _, True) (push_reservations inv).
Proof.
  apply push_entries_sends. intros rname p. apply elem_of_map_to_list.
Qed.

(** Whatever the clock does during a push, every request queued belongs to
    a pledge that is in the inventory, is not pushed, and was found active
    or about to be at the readings taken for the two tests; its expiry is
    the pledge's, or 15 seconds past a later reading for a paused pledge,
    and its tuple was looked up 16 seconds past a reading. *)
Lemma push_reservations_requests_any_clock inv clock nw reads calls d :
  Ev_fq d ∈ (run clock nw (push_reservations inv) reads calls).2 →
  pushed_ok inv (λ t, ∃ k, t = clock k) d.
Proof.
  intros Hd.
  assert (HT : ∀ k, (λ t, ∃ k', t = clock k') (clock k)) by (intros k; eauto).
  destruct (sends_run _ _ _ _ clock nw reads calls HT
              (push_reservations_sends inv _)) as [Hsent _].
  by apply Hsent.
Qed.

End Manager.

Import Samples.

Lemma Add_res_spec_witness :
  is_Some (Add_res sample_inventory sample_pledge).1
  ∧ (Add_res sample_inventory sample_pledge).2 = sample_inventory.
Proof.
  destruct (Add_res_spec sample_inventory sample_pledge) as (H1 & H2 & _).
  assert (H : is_Some (Add_res sample_inventory sample_pledge).1).
  { apply H1. vm_compute. eauto. }
  split; [exact H | exact (H2 H)].
Defined.

Lemma Get_res_cookie_authority_witness :
  Get_res "root" sample_inventory "res1" "alice" = (Some sample_pledge, None)
  ∧ Get_res "root" sample_inventory "res1" "root" = (Some sample_pledge, None)
  ∧ Get_res "root" sample_inventory "res1" "bob"
    = (None, Some "not authorised to access or delete reservation: res1").
Proof.
  assert (Hp : cache sample_inventory !! "res1" = Some sample_pledge)
    by (vm_compute; reflexivity).
  split; [|split].
  - apply (proj1 (Get_res_cookie_authority sample_Mk_spq sample_forward_info
                    sample_backward_info sample_addresses "root"
                    sample_inventory "res1" "alice" sample_pledge Hp)).
    left. reflexivity.
  - apply (proj1 (Get_res_cookie_authority sample_Mk_spq sample_forward_info
                    sample_backward_info sample_addresses "root"
                    sample_inventory "res1" "root" sample_pledge Hp)).
    right. reflexivity.
  - apply (proj1 (proj2 (proj2 (Get_res_cookie_authority sample_Mk_spq
                    sample_forward_info sample_backward_info
                    sample_addresses "root"
                    sample_inventory "res1" "bob" sample_pledge Hp)))).
    intros [H|H]; vm_compute in H; discriminate H.
Defined.

Lemma Del_res_release_before_expiry_witness :
  ∃ k, Del_res (Spq:=spq) "root" sample_inventory "res1" "alice"
       = Nw_call (NW_REQ_DEL sample_pledge) k
       ∧ ∀ reply, ∃ k',
           k reply = Now k'
           ∧ ∀ now,
               k' now
               = Ret (State reply,
                      {| cache := <["res1" := Reset_pushed
                                      (Set_expiry sample_pledge (Int64.add now 15))]>
                                    (cache sample_inventory) |}).
Proof.
  refine (proj1 (proj2 (Del_res_release_before_expiry (Spq:=spq) "root"
                          sample_inventory "res1" "alice" sample_pledge None _))).
  vm_compute. reflexivity.
Defined.

End ResMgrFacts.

Module AgentMgrFacts.
Import AgentMgr.

(** The long running agent: [sendbytes2lra] writes to the first agent of
    the list and leaves the round robin index alone. *)
Lemma sendbytes2lra_first ad msg a :
  0 < size (agents ad) → agent_list ad !! 0 = Some a →
  sendbytes2lra ad msg = Some (ad, [(id a, msg)]).
Proof.
  intros Hl Ha. unfold sendbytes2lra.
  case_decide; [lia|]. rewrite Ha. done.
Qed.

(** The round robin of [send2one]: with more than one agent, an index
    that is past 0 writes to the agent it points at and stays past 0. *)
Lemma sendbytes2one_skips_first ad msg :
  1 < size (agents ad) → length (agent_list ad) = size (agents ad) →
  1 ≤ aidx ad < size (agents ad) →
  ∃ a ad',
    sendbytes2one ad msg = Some (ad', [(id a, msg)])
    ∧ agent_list ad !! aidx ad = Some a
    ∧ agents ad' = agents ad ∧ agent_list ad' = agent_list ad
    ∧ 1 ≤ aidx ad' < size (agents ad').
Proof.
  intros Hl Hlen Hi. unfold sendbytes2one.
  case_decide; [lia|].
  destruct (lookup_lt_is_Some_2 (agent_list ad) (aidx ad)) as [a Ha]; [lia|].
  rewrite Ha. simpl. eexists _, _. split; [reflexivity|].
  split; [done|]. simpl. split; [done|]. split; [done|].
  repeat case_decide; lia.
Qed.

(** With the index at 0, where it starts and where [build_list] puts it
    back when the list shrinks under it, [send2one] writes to the first
    agent however many agents are connected. *)
Lemma sendbytes2one_at_zero ad msg a :
  0 < size (agents ad) → aidx ad = 0 → agent_list ad !! 0 = Some a →
  ∃ ad', sendbytes2one ad msg = Some (ad', [(id a, msg)]).
Proof.
  intros Hl Hi Ha. unfold sendbytes2one.
  case_decide; [lia|]. rewrite Hi, Ha. simpl. eauto.
Qed.

(** The loop hands a long request to the same function as a short one. *)
Lemma SENDLONG_is_SENDSHORT st data :
  on_request st (REQ_SENDLONG data) = on_request st (REQ_SENDSHORT data).
Proof. reflexivity. Qed.

(** C7 (the code departs from the claim).  Two agents connect, then two
    short requests and a long one arrive.  The list of agents has
    agent-a at index 0 and agent-b at index 1.  The first short request
    is written to agent-a, the agent at index 0, although two agents are
    connected; the second goes to agent-b; the long request goes to
    agent-b as well, the agent at index 1, and not to the agent at
    index 0. *)
Theorem SendLong_follows_round_robin :
  let arrivals :=
    [ Session (ST_NEW "agent-a"); Session (ST_NEW "agent-b");
      Request (REQ_SENDSHORT (Some "m1"));
      Request (REQ_SENDSHORT (Some "m2"));
      Request (REQ_SENDLONG (Some "m3")) ] in
  (λ r, (agent_list (adata r.1), size (agents (adata r.1)), r.2))
    <$> Agent_mgr (init_state "184 104 72") arrivals
  = Some ([ {| id := "agent-a" |}; {| id := "agent-b" |} ], 2,
          [ []; [];
            [("agent-a", Bytes "m1")];
            [("agent-b", Bytes "m2")];
            [("agent-b", Bytes "m3")] ]).
Proof. vm_compute. reflexivity. Qed.
End AgentMgrFacts.

Module FqSteerFacts.
Import FqSteer.
Local Open Scope Z_scope.

Lemma inport_opt_late_binding data mac :
  Swport (Match data) = -128 → Lbmac data = Some mac →
  inport_opt data = " -i " +:+ mac.
Proof. intros Hp Hm. unfold inport_opt. rewrite Hp, Hm. done. Qed.

Lemma inport_opt_late_binding_nil data :
  Swport (Match data) = -128 → Lbmac data = None → inport_opt data = "".
Proof. intros Hp Hm. unfold inport_opt. rewrite Hp, Hm. done. Qed.

Lemma inport_opt_valid data :
  0 <= Swport (Match data) →
  inport_opt data = " -i " +:+ pretty (Swport (Match data)).
Proof.
  intros Hp. unfold inport_opt.
  destruct (Z.leb_spec 0 (Swport (Match data))); [done|lia].
Qed.

(** The messages of a call that returns: one per host when there is no
    switch id, one otherwise, all with the same expiry, priority, match and
    action options. *)
Lemma send_stfmod_agent_msgs data ip2mac hlist data' msgs :
  send_stfmod_agent data ip2mac hlist = Some (data', msgs) →
  data' = (if Pri data <=? 0 then with_Pri data 100 else data)
  ∧ (msgs = []
     ∨ ∃ smac dmac,
         mac_of (Smac (Match data)) (Ip1 (Match data)) ip2mac = Some smac
         ∧ mac_of (Dmac (Match data)) (Ip2 (Match data)) ip2mac = Some dmac
         ∧ ∀ m, m ∈ msgs →
             ∃ target,
               m = fmod_json target (Expiry data) (Pri data')
                     (match_opts data' smac dmac) (action_opts data')).
Proof.
  unfold send_stfmod_agent.
  set (d := if Pri data <=? 0 then with_Pri data 100 else data).
  assert (Hm : Match d = Match data) by (unfold d; by destruct (_ <=? _)).
  assert (He : Expiry d = Expiry data) by (unfold d; by destruct (_ <=? _)).
  rewrite Hm.
  destruct (mac_of (Smac _) _ _) as [smac|] eqn:Hs;
    [|intros [= <- <-]; split; [done|by left]].
  destruct (mac_of (Dmac _) _ _) as [dmac|] eqn:Hd;
    [|intros [= <- <-]; split; [done|by left]].
  destruct (Swid d) as [swid|].
  - intros [= <- <-]. split; [done|]. right. exists smac, dmac.
    split; [done|]. split; [done|].
    intros m ->%list_elem_of_singleton. exists swid. by rewrite He.
  - destruct hlist as [hl|]; simpl; [|done].
    intros [= <- <-]. split; [done|]. right. exists smac, dmac.
    split; [done|]. split; [done|].
    intros m (host & -> & _)%list_elem_of_fmap.
    eexists. by rewrite He.
Qed.

Lemma pretty_100 : pretty 100%Z = "100".
Proof. vm_compute. reflexivity. Qed.

Lemma match_opts_late_binding data smac dmac :
  Swport (Match data) = -128 →
  match_opts data smac dmac
  = "--match" +:+ meta_opt (Meta (Match data))
      +:+ match Lbmac data with
          | Some mac => " -i " +:+ mac
          | None => ""
          end
      +:+ match_tail data smac dmac.
Proof.
  intros Hport. unfold match_opts, inport_opt. by rewrite Hport.
Qed.

(** C8.  Take a call of [send_stfmod_agent] that returns.  Every message
    sent is the action list text with one flowmod action whose data is a
    command between double quotes.  When the priority supplied is not
    positive, the request leaves with priority 100 and the command of
    every message reads [-p 100] after the expiry.  When the inbound port
    is the late binding port -128, the match options in the command of
    every message are [--match], the metadata option, then [-i] with the
    late binding MAC if one was supplied and nothing if none was, then the
    MAC and transport options. *)
Theorem send_stfmod_agent_defaults data ip2mac hlist data' msgs :
  send_stfmod_agent data ip2mac hlist = Some (data', msgs) →
  (Pri data <= 0 → Pri data' = 100)
  ∧ ∀ m, m ∈ msgs →
      ∃ cmd,
        m = "{ " +:+ dquote +:+ "ctype" +:+ dquote +:+ ": " +:+ dquote
            +:+ "action_list" +:+ dquote +:+ ", " +:+ dquote +:+ "actions"
            +:+ dquote +:+ ": [ { " +:+ dquote +:+ "atype" +:+ dquote
            +:+ ": " +:+ dquote +:+ "flowmod" +:+ dquote +:+ ", " +:+ dquote
            +:+ "fdata" +:+ dquote +:+ ": [ "
            +:+ (dquote +:+ cmd +:+ dquote) +:+ " ] } ] }"
        ∧ (Pri data <= 0 →
           ∃ target smac dmac,
             cmd = "-h " +:+ target +:+ " -t " +:+ pretty (Expiry data)
                     +:+ " -p 100 " +:+ match_opts data' smac dmac
                     +:+ " " +:+ action_opts data' +:+ " add 0xe5d br-int")
        ∧ (Swport (Match data) = -128 →
           ∃ target smac dmac,
             cmd = "-h " +:+ target +:+ " -t " +:+ pretty (Expiry data)
                     +:+ " -p " +:+ pretty (Pri data') +:+ " "
                     +:+ ("--match" +:+ meta_opt (Meta (Match data))
                            +:+ match Lbmac data with
                                | Some mac => " -i " +:+ mac
                                | None => ""
                                end
                            +:+ match_tail data smac dmac)
                     +:+ " " +:+ action_opts data' +:+ " add 0xe5d br-int").
Proof.
  intros Hcall.
  destruct (send_stfmod_agent_msgs _ _ _ _ _ Hcall) as [Hd Hmsgs].
  assert (Hm : Match data' = Match data)
    by (rewrite Hd; by destruct (_ <=? _)).
  assert (Hl : Lbmac data' = Lbmac data)
    by (rewrite Hd; by destruct (_ <=? _)).
  assert (Hp : Protocol data' = Protocol data)
    by (rewrite Hd; by destruct (_ <=? _)).
  assert (Hpri' : Pri data <= 0 → Pri data' = 100).
  { intros Hpri. rewrite Hd. by destruct (Z.leb_spec (Pri data) 0); [|lia]. }
  split; [done|]. intros m Hin.
  destruct Hmsgs as [-> | (smac & dmac & _ & _ & Hall)];
    [by apply elem_of_nil in Hin|].
  destruct (Hall m Hin) as [target ->].
  exists ("-h " +:+ target +:+ " -t " +:+ pretty (Expiry data)
            +:+ " -p " +:+ pretty (Pri data') +:+ " "
            +:+ match_opts data' smac dmac
            +:+ " " +:+ action_opts data' +:+ " add 0xe5d br-int").
  split; [reflexivity|]. split.
  - intros Hpri. exists target, smac, dmac.
    rewrite (Hpri' Hpri), pretty_100. reflexivity.
  - intros Hport. exists target, smac, dmac.
    rewrite (match_opts_late_binding data') by (by rewrite Hm).
    unfold match_tail. by rewrite Hm, Hl, Hp.
Qed.

Import Samples.

Lemma send_stfmod_agent_defaults_witness :
  let cmd := "-h ovs-host1 -t 3600 -p 100 --match -m 0x01/0x01 -i fa:16:3e:aa:bb:cc -s fa:16:3e:00:00:04 -P tcp:80 --action  -d fa:16:3e:11:22:33 -m 0x02 -R ,10 -R ,90 -N add 0xe5d br-int" in
  let m := "{ " +:+ dquote +:+ "ctype" +:+ dquote +:+ ": " +:+ dquote
            +:+ "action_list" +:+ dquote +:+ ", " +:+ dquote +:+ "actions"
            +:+ dquote +:+ ": [ { " +:+ dquote +:+ "atype" +:+ dquote
            +:+ ": " +:+ dquote +:+ "flowmod" +:+ dquote +:+ ", " +:+ dquote
            +:+ "fdata" +:+ dquote +:+ ": [ "
            +:+ (dquote +:+ cmd +:+ dquote) +:+ " ] } ] }" in
  send_stfmod_agent sample_steer sample_ip2mac None
  = Some (with_Pri sample_steer 100, [m])
  ∧ Pri (with_Pri sample_steer 100) = 100
  ∧ ∃ cmd',
      m = "{ " +:+ dquote +:+ "ctype" +:+ dquote +:+ ": " +:+ dquote
            +:+ "action_list" +:+ dquote +:+ ", " +:+ dquote +:+ "actions"
            +:+ dquote +:+ ": [ { " +:+ dquote +:+ "atype" +:+ dquote
            +:+ ": " +:+ dquote +:+ "flowmod" +:+ dquote +:+ ", " +:+ dquote
            +:+ "fdata" +:+ dquote +:+ ": [ "
            +:+ (dquote +:+ cmd' +:+ dquote) +:+ " ] } ] }"
      ∧ (Pri sample_steer <= 0 →
         ∃ target smac dmac,
           cmd' = "-h " +:+ target +:+ " -t " +:+ pretty (Expiry sample_steer)
                    +:+ " -p 100 "
                    +:+ match_opts (with_Pri sample_steer 100) smac dmac
                    +:+ " " +:+ action_opts (with_Pri sample_steer 100)
                    +:+ " add 0xe5d br-int")
      ∧ (Swport (Match sample_steer) = -128 →
         ∃ target smac dmac,
           cmd' = "-h " +:+ target +:+ " -t " +:+ pretty (Expiry sample_steer)
                    +:+ " -p " +:+ pretty (Pri (with_Pri sample_steer 100))
                    +:+ " "
                    +:+ ("--match" +:+ meta_opt (Meta (Match sample_steer))
                           +:+ match Lbmac sample_steer with
                               | Some mac => " -i " +:+ mac
                               | None => ""
                               end
                           +:+ match_tail sample_steer smac dmac)
                    +:+ " " +:+ action_opts (with_Pri sample_steer 100)
                    +:+ " add 0xe5d br-int").
Proof.
  intros cmd m.
  assert (Hcall : send_stfmod_agent sample_steer sample_ip2mac None
                  = Some (with_Pri sample_steer 100, [m]))
    by (vm_compute; reflexivity).
  destruct (send_stfmod_agent_defaults _ _ _ _ _ Hcall) as [Hpri Hmsg].
  split; [exact Hcall|]. split; [apply Hpri; simpl; lia|].
  apply (Hmsg m). left.
Defined.
End FqSteerFacts.

(* ====================================================================== *)
(** * Further properties of the modelled code                              *)
(* ====================================================================== *)

Module PledgeWindowMore.
Import PledgeWindow.
Local Open Scope Z_scope.

(** X1.  [mk_pledge_window] returns either a window and no error or an
    error and no window.  A window it returns starts at the later of the
    requested commence time and [now] and ends at the requested expiry, so
    [now <= commence <= expiry]; at the time it is made it is never active,
    and it is expired exactly when its expiry is [now]. *)
Theorem mk_pledge_window_result now c e :
  match mk_pledge_window now c e with
  | (Some w, None) =>
      commence w = Z.max c now ∧ expiry w = e
      ∧ now <= commence w <= expiry w
      ∧ is_active (Some w) now = false
      ∧ (is_expired (Some w) now = true ↔ e = now)
  | (None, Some _) => e < Z.max c now
  | _ => False
  end.
Proof.
  unfold mk_pledge_window.
  assert (Hc : (if c <? now then now else c) = Z.max c now).
  { destruct (Z.ltb_spec c now); lia. }
  rewrite Hc. destruct (Z.ltb_spec e (Z.max c now)) as [Hlt|Hge]; [done|].
  simpl. split; [done|]. split; [done|]. split; [lia|]. split.
  - apply andb_false_iff. left. apply Z.ltb_ge. lia.
  - rewrite Z.leb_le. lia.
Qed.

(** X2.  [extend_by] leaves the commence time alone.  With a negative [n]
    the expiry never ends up before [now]; with [n >= 0] it is moved by [n]
    whatever [now] is.  As long as the sum fits an int64 the new expiry is
    [max now (expiry + n)] for negative [n] and [expiry + n] otherwise. *)
Theorem extend_by_spec w n now :
  commence (extend_by w n now) = commence w
  ∧ (n < 0 → now <= expiry (extend_by w n now))
  ∧ (Int64.in_range (expiry w + n) →
     expiry (extend_by w n now)
     = if n <? 0 then Z.max now (expiry w + n) else expiry w + n).
Proof.
  unfold extend_by. simpl. split; [done|]. split.
  - intros Hn. destruct (Z.ltb_spec n 0); [|lia].
    destruct (Z.ltb_spec (Int64.add (expiry w) n) now); lia.
  - intros Hr. rewrite Int64Facts.add_exact by done.
    destruct (Z.ltb_spec n 0); [|done].
    destruct (Z.ltb_spec (expiry w + n) now); lia.
Qed.

(** X3.  The state [state_str] names agrees with the tests: EXPIRED exactly
    when [is_expired] holds (a nil window included), PENDING exactly when
    the window is pending and not expired, ACTIVE exactly when it is
    neither. *)
Theorem state_str_agrees p now :
  ((state_str p now).1.1 = "EXPIRED" ↔ is_expired p now = true)
  ∧ ((state_str p now).1.1 = "PENDING"
       ↔ is_pending p now = true ∧ is_expired p now = false)
  ∧ ((state_str p now).1.1 = "ACTIVE"
       ↔ is_pending p now = false ∧ is_expired p now = false).
Proof.
  destruct p as [w|]; simpl.
  - destruct (expiry w <=? now); simpl.
    + repeat split; try done; intros [? ?]; done.
    + destruct (now <? commence w); simpl;
        repeat split; try done; intros [? ?]; done.
  - repeat split; try done; intros [? ?]; done.
Qed.

(** X4.  For a window with [commence <= expiry] the three tests
    [is_pending], [is_active] and [is_expired] never hold together: exactly
    one of them holds, except in the second [now = commence] of a window
    that is not empty, where none does. *)
Theorem window_states_exclusive w now :
  commence w <= expiry w →
  Z.b2z (is_pending (Some w) now) + Z.b2z (is_active (Some w) now)
    + Z.b2z (is_expired (Some w) now)
  = if decide (now = commence w ∧ commence w < expiry w) then 0 else 1.
Proof.
  intros Hwf. simpl.
  destruct (Z.ltb_spec now (commence w)); destruct (Z.ltb_spec (commence w) now);
    destruct (Z.ltb_spec now (expiry w)); destruct (Z.leb_spec (expiry w) now);
    simpl; case_decide; lia.
Qed.

Lemma window_states_exclusive_witness :
  Z.b2z (is_pending (Some (Mk_window 100 200)) 150)
    + Z.b2z (is_active (Some (Mk_window 100 200)) 150)
    + Z.b2z (is_expired (Some (Mk_window 100 200)) 150) = 1.
Proof.
  apply (window_states_exclusive (Mk_window 100 200) 150). simpl. lia.
Defined.

(** X5.  What [is_active] or [is_active_soon] together select, for a look
    ahead of [window >= 0] seconds: the windows that commence no later than
    [now + window] and are either still running or yet to commence.  The
    second [now = commence], which [is_active] leaves out, is selected by
    [is_active_soon]. *)
Theorem active_or_soon w window now :
  0 <= window → Int64.in_range (now + window) →
  (is_active (Some w) now || is_active_soon (Some w) window now = true
     ↔ commence w <= now + window ∧ (now < expiry w ∨ now <= commence w))
  ∧ (commence w = now → is_active_soon (Some w) window now = true).
Proof.
  intros Hw Hr. simpl. rewrite Int64Facts.add_exact by done. split.
  - rewrite orb_true_iff, !andb_true_iff, !Z.ltb_lt, !Z.leb_le. lia.
  - intros ->. rewrite andb_true_iff, !Z.leb_le. lia.
Qed.

Lemma active_or_soon_witness :
  is_active (Some (Mk_window 100 200)) 100
    || is_active_soon (Some (Mk_window 100 200)) 15 100 = true.
Proof.
  apply (proj1 (active_or_soon (Mk_window 100 200) 15 100 ltac:(lia)
                  ltac:(unfold Int64.in_range, Int64.min_int, Int64.max_int; lia))).
  simpl. lia.
Defined.

(** X6.  The tests on the recent past fit the state tests, for a look back
    of [window >= 0] seconds: a window that concluded recently is expired; a
    window that is extinct is expired; a window that commenced recently is
    neither pending nor expired.  A window that expires in the very second
    [now] is expired but has not concluded recently. *)
Theorem recent_tests_consistent w window now :
  0 <= window → Int64.in_range (now - window) →
  (concluded_recently (Some w) window now = true → is_expired (Some w) now = true)
  ∧ (is_extinct (Some w) window now = true → is_expired (Some w) now = true)
  ∧ (commenced_recently (Some w) window now = true →
       is_pending (Some w) now = false ∧ is_expired (Some w) now = false)
  ∧ (expiry w = now →
       is_expired (Some w) now = true
       ∧ concluded_recently (Some w) window now = false).
Proof.
  intros Hw Hr. simpl. rewrite Int64Facts.sub_exact by done.
  rewrite !andb_true_iff, !Z.ltb_lt, !Z.leb_le, Z.ltb_ge, Z.leb_gt.
  repeat split; try lia.
Qed.

Lemma recent_tests_consistent_witness :
  is_expired (Some (Mk_window 100 200)) 330 = true.
Proof.
  apply (proj1 (proj2 (recent_tests_consistent (Mk_window 100 200) 120 330
                         ltac:(lia)
                         ltac:(unfold Int64.in_range, Int64.min_int,
                                 Int64.max_int; lia)))).
  reflexivity.
Defined.
End PledgeWindowMore.

Module PathMore.
Import PathM PathFacts.

Section Building.
Context {Link Switch Host : Type}.
Implicit Types (m : heap Link Switch Host) (pv : Path Link Switch Host).
Implicit Types (p : positive).

(** X7.  [Add_link] with a nil link does nothing, whatever the receiver.
    On a well-formed path a non-nil link never makes it panic: the link is
    appended after the stored ones, the switches are untouched and the
    path stays well formed.  The backing slice keeps its length while it
    has a free slot; when it is full it is replaced by one that is 32
    slots longer. *)
Theorem Add_link_appends m p pv (l : Link) :
  m !! p = Some pv → wf pv →
  Add_link p None m = Some m
  ∧ ∃ pv',
      Add_link p (Some l) m = Some (<[p := pv']> m)
      ∧ path_links pv' = path_links pv ++ [Some l]
      ∧ lidx pv' = S (lidx pv)
      ∧ length (links pv')
        = (if decide (lidx pv = length (links pv))
           then length (links pv) + 32 else length (links pv))
      ∧ path_switches pv' = path_switches pv
      ∧ wf pv'.
Proof.
  intros Hp Hwf. split; [done|].
  exists (add_link pv l). simpl. rewrite Hp. simpl.
  split; [done|]. split; [apply add_link_path_links, Hwf|].
  split; [done|]. split; [|split; [done|by apply add_link_wf]].
  destruct Hwf as (Hl & _ & _). rewrite length_insert.
  repeat case_decide; try lia. rewrite length_grow; lia.
Qed.

Lemma with_endpts_twice pv (e e' : list (option Link)) :
  with_endpts (with_endpts pv e) e' = with_endpts pv e'.
Proof. done. Qed.

Lemma with_endpts_same pv : with_endpts pv (endpts pv) = pv.
Proof. by destruct pv. Qed.

Lemma add_endpoint_step pv (e0 e1 : option Link) (l : Link) :
  endpts pv = [e0; e1] → (e0 = None → e1 = None) →
  ∃ e0' e1',
    add_endpoint pv (Some l) = Some (with_endpts pv [e0'; e1'])
    ∧ (e0' = None → e1' = None)
    ∧ (is_Some e0 →
       e1' = Some l ∧ e0' = match e1 with Some _ => e1 | None => e0 end)
    ∧ (e0 = None → e0' = Some l ∧ e1' = None).
Proof.
  intros He Hinv. unfold add_endpoint. rewrite He. simpl.
  destruct e0 as [x|]; simpl.
  - destruct e1 as [y|]; simpl; eexists _, _; (split; [reflexivity|]);
      split; try done; split; auto; done.
  - rewrite (Hinv eq_refl). simpl. eexists _, _. split; [reflexivity|].
    split; [done|]. split; [by intros [? ?]|done].
Qed.

Lemma Add_endpoint_step m p pv (e0 e1 : option Link) (l : Link) :
  m !! p = Some pv → endpts pv = [e0; e1] → (e0 = None → e1 = None) →
  ∃ e0' e1',
    Add_endpoint p (Some l) m = Some (<[p := with_endpts pv [e0'; e1']]> m)
    ∧ (e0' = None → e1' = None)
    ∧ (is_Some e0 →
       e1' = Some l ∧ e0' = match e1 with Some _ => e1 | None => e0 end)
    ∧ (e0 = None → e0' = Some l ∧ e1' = None).
Proof.
  intros Hp He Hinv.
  destruct (add_endpoint_step pv e0 e1 l He Hinv) as (a & b & Hs & H).
  exists a, b. split; [|done]. unfold Add_endpoint. rewrite Hp. simpl.
  by rewrite Hs.
Qed.

Lemma Add_endpoints_cons p (l : option Link) ls m :
  Add_endpoints p (l :: ls) m = Add_endpoint p l m ≫= Add_endpoints p ls.
Proof.
  unfold Add_endpoints. simpl. destruct (Add_endpoint p l m) as [m1|]; [done|].
  simpl. induction ls as [|x ls IH]; [done|]. simpl. done.
Qed.

Lemma Add_endpoints_run p (ls : list Link) m pv (e0 e1 : option Link) :
  m !! p = Some pv → endpts pv = [e0; e1] → (e0 = None → e1 = None) →
  ∃ e0' e1',
    Add_endpoints p (Some <$> ls) m = Some (<[p := with_endpts pv [e0'; e1']]> m)
    ∧ (e0' = None → e1' = None).
Proof.
  revert m pv e0 e1.
  induction ls as [|l ls IH]; intros m pv e0 e1 Hp He Hinv.
  - exists e0, e1. split; [|done]. unfold Add_endpoints. simpl.
    f_equal. symmetry. apply insert_id. by rewrite Hp, <- He, with_endpts_same.
  - destruct (Add_endpoint_step m p pv e0 e1 l Hp He Hinv)
      as (a & b & Hstep & Hinv' & _).
    rewrite fmap_cons, Add_endpoints_cons, Hstep. simpl.
    destruct (IH (<[p := with_endpts pv [a; b]]> m) (with_endpts pv [a; b]) a b)
      as (a' & b' & Hrun & Hinv''); [apply lookup_insert_eq | done | done |].
    rewrite Hrun, insert_insert_eq, with_endpts_twice. eauto.
Qed.

Lemma Add_endpoints_app p (ls ks : list (option Link)) m :
  Add_endpoints p (ls ++ ks) m = Add_endpoints p ls m ≫= Add_endpoints p ks.
Proof.
  revert m. induction ls as [|l ls IH]; intros m; [done|].
  simpl. rewrite !Add_endpoints_cons.
  destruct (Add_endpoint p l m) as [m1|]; [|done]. simpl. apply IH.
Qed.

(** X8.  A path keeps the two endpoints added last.  Starting from a path
    whose slot 1 is empty whenever slot 0 is (as [Mk_path] leaves it),
    after any run of [Add_endpoint] calls with non-nil links that ends with
    [a] then [b], slot 0 holds [a] and slot 1 holds [b]; nothing else in the
    path or in the heap changes. *)
Theorem Add_endpoints_keeps_last_two m p pv (e0 e1 : option Link)
    (ls : list Link) (a b : Link) :
  m !! p = Some pv → endpts pv = [e0; e1] → (e0 = None → e1 = None) →
  Add_endpoints p (Some <$> (ls ++ [a; b])) m
  = Some (<[p := with_endpts pv [Some a; Some b]]> m).
Proof.
  intros Hp He Hinv.
  destruct (Add_endpoints_run p ls m pv e0 e1 Hp He Hinv)
    as (x & y & Hrun & Hxy).
  rewrite fmap_app, Add_endpoints_app, Hrun. cbn [mbind option_bind].
  change (Some <$> [a; b]) with [Some a; Some b].
  destruct (Add_endpoint_step (<[p := with_endpts pv [x; y]]> m) p
              (with_endpts pv [x; y]) x y a)
    as (x1 & y1 & Hs1 & Hinv1 & Hsome1 & Hnone1);
    [apply lookup_insert_eq | done | done |].
  rewrite Add_endpoints_cons, Hs1. cbn [mbind option_bind].
  rewrite insert_insert_eq, with_endpts_twice.
  destruct (Add_endpoint_step (<[p := with_endpts pv [x1; y1]]> m) p
              (with_endpts pv [x1; y1]) x1 y1 b)
    as (x2 & y2 & Hs2 & Hinv2 & Hsome2 & _);
    [apply lookup_insert_eq | done | done |].
  rewrite Add_endpoints_cons, Hs2. cbn [mbind option_bind].
  rewrite insert_insert_eq, with_endpts_twice.
  assert (x2 = Some a ∧ y2 = Some b) as [-> ->]; [|done].
  destruct x as [x0|].
  - destruct (Hsome1 ltac:(eauto)) as [-> ->].
    destruct y as [y0|].
    + destruct (Hsome2 ltac:(eauto)) as [-> ->]. done.
    + destruct (Hsome2 ltac:(eauto)) as [-> ->]. done.
  - destruct (Hnone1 eq_refl) as [-> ->].
    destruct (Hsome2 ltac:(eauto)) as [-> ->]. done.
Qed.

End Building.

Lemma Add_endpoints_keeps_last_two_witness :
  Add_endpoints 1%positive (Some <$> ([7] ++ [8; 9])) Samples.sample_heap
  = Some (<[1%positive := with_endpts Samples.sample_path [Some 8; Some 9]]>
            Samples.sample_heap).
Proof.
  apply (Add_endpoints_keeps_last_two Samples.sample_heap 1%positive
           Samples.sample_path None None [7] 8 9);
    [vm_compute; reflexivity | reflexivity | done].
Defined.

Lemma Add_link_appends_witness :
  Add_link 1%positive None Samples.sample_heap = Some Samples.sample_heap
  ∧ ∃ pv',
      Add_link 1%positive (Some 13) Samples.sample_heap
        = Some (<[1%positive := pv']> Samples.sample_heap)
      ∧ path_links pv' = path_links Samples.sample_path ++ [Some 13]
      ∧ lidx pv' = S (lidx Samples.sample_path)
      ∧ length (links pv')
        = (if decide (lidx Samples.sample_path
                      = length (links Samples.sample_path))
           then length (links Samples.sample_path) + 32
           else length (links Samples.sample_path))
      ∧ path_switches pv' = path_switches Samples.sample_path
      ∧ wf pv'.
Proof.
  apply (Add_link_appends Samples.sample_heap 1%positive Samples.sample_path 13).
  - vm_compute. reflexivity.
  - repeat apply add_switch_wf. repeat apply add_link_wf. apply new_path_wf.
Defined.

Section Inverting.
Context {Link Switch Host Info Spq : Type}.
Context (Mk_spq : Info → Spq).
Context (Get_forward_info Get_backward_info : option Link → string → Z → Info).
Implicit Types (m : heap Link Switch Host) (pv ipv : Path Link Switch Host).
Implicit Types (p ip : positive) (qid : string) (ts : Z).

Lemma collect_spq_bound info qname pv ts idxs :
  (∀ i, i ∈ idxs → i < length (links pv)) →
  (length idxs ≤ 128 →
     ∃ qs, collect_spq Mk_spq info qname pv ts idxs = Some qs
           ∧ length qs = length idxs)
  ∧ (128 < length idxs → collect_spq Mk_spq info qname pv ts idxs = None).
Proof.
  intros Hin. unfold collect_spq. case_decide as Hlen; (split; [|done || lia]).
  - lia.
  - intros _.
    destruct (mapM _ idxs) as [qs|] eqn:Hm.
    + exists qs. split; [done|]. symmetry. by eapply length_mapM.
    + assert (Hs : is_Some (mapM (λ i, l ← links pv !! i;
                                Some (Mk_spq (info l qname ts))) idxs)).
      { apply mapM_is_Some, Forall_forall. intros i Hi. simpl.
        destruct (lookup_lt_is_Some_2 (links pv) i (Hin i Hi)) as [l ->].
        by eexists. }
      rewrite Hm in Hs. by destruct Hs.
Qed.

Lemma im_indices_in_range pv (r : bool) (a : nat) i :
  a ≤ 1 → lidx pv ≤ length (links pv) →
  i ∈ (if r then reverse (seq a (lidx pv - 1)) else seq a (lidx pv - 1)) →
  i < length (links pv).
Proof.
  intros Ha Hb Hi.
  assert (Hs : i ∈ seq a (lidx pv - 1)).
  { destruct r; [by apply elem_of_reverse|done]. }
  apply elem_of_seq in Hs. lia.
Qed.

(** X9.  The lists of intermediate tuples are collected in a slice of 128
    slots that is never regrown.  On a well-formed path of up to 129 links
    [Get_forward_im_spq] and [Get_backward_im_spq] return one tuple for
    each link but one; on a longer path both panic. *)
Theorem im_spq_bound pv ts :
  wf pv →
  (lidx pv ≤ 129 →
     ∃ fs bs,
       Get_forward_im_spq Mk_spq Get_forward_info pv ts = Some fs
       ∧ Get_backward_im_spq Mk_spq Get_backward_info pv ts = Some bs
       ∧ length fs = lidx pv - 1 ∧ length bs = lidx pv - 1)
  ∧ (129 < lidx pv →
       Get_forward_im_spq Mk_spq Get_forward_info pv ts = None
       ∧ Get_backward_im_spq Mk_spq Get_backward_info pv ts = None).
Proof.
  intros (Hl & _ & _). unfold Get_forward_im_spq, Get_backward_im_spq.
  set (fi := if is_reverse pv then reverse (seq 0 (lidx pv - 1))
             else seq 1 (lidx pv - 1)).
  set (bi := if is_reverse pv then reverse (seq 1 (lidx pv - 1))
             else seq 0 (lidx pv - 1)).
  assert (Hfl : length fi = lidx pv - 1).
  { unfold fi. destruct (is_reverse pv);
      by rewrite ?length_reverse, length_seq. }
  assert (Hbl : length bi = lidx pv - 1).
  { unfold bi. destruct (is_reverse pv);
      by rewrite ?length_reverse, length_seq. }
  destruct (collect_spq_bound Get_forward_info "priority-out" pv ts fi)
    as [Hf1 Hf2].
  { intros i Hi. unfold fi in Hi. destruct (is_reverse pv) eqn:Hr.
    - apply (im_indices_in_range pv true 0 i); [lia | done | done].
    - apply (im_indices_in_range pv false 1 i); [lia | done | done]. }
  destruct (collect_spq_bound Get_backward_info "priority-in" pv ts bi)
    as [Hb1 Hb2].
  { intros i Hi. unfold bi in Hi. destruct (is_reverse pv) eqn:Hr.
    - apply (im_indices_in_range pv true 1 i); [lia | done | done].
    - apply (im_indices_in_range pv false 0 i); [lia | done | done]. }
  split.
  - intros Hn.
    destruct Hf1 as (fs & Hfs & Hfsl); [lia|].
    destruct Hb1 as (bs & Hbs & Hbsl); [lia|].
    exists fs, bs. split; [done|]. split; [done|]. lia.
  - intros Hn. split; [apply Hf2 | apply Hb2]; lia.
Qed.

Lemma collect_spq_same info qname pv ipv ts (idxs idxs' : list nat) :
  Forall2 (λ i i', links pv !! i = links ipv !! i') idxs idxs' →
  collect_spq Mk_spq info qname pv ts idxs
  = collect_spq Mk_spq info qname ipv ts idxs'.
Proof.
  intros H. unfold collect_spq.
  rewrite (Forall2_length _ _ _ H).
  case_decide as Hlen; [done|]. clear Hlen.
  induction H as [|i i' l l' Hi _ IH]; [done|].
  simpl. rewrite Hi. destruct (links ipv !! i'); simpl; [|done].
  by rewrite IH.
Qed.

(** The indices [a + j] of one path against the indices [b + k - 1 - j] of
    the other, for [j < k]. *)
Lemma Forall2_seq_reverse (R : nat → nat → Prop) a b k :
  (∀ j, j < k → R (a + j) (b + (k - 1 - j))) →
  Forall2 R (seq a k) (reverse (seq b k)).
Proof.
  intros H. apply Forall2_same_length_lookup_2.
  - by rewrite length_reverse, !length_seq.
  - intros j x y Hx Hy.
    apply lookup_seq in Hx as [-> Hj].
    rewrite reverse_lookup in Hy by (by rewrite length_seq).
    rewrite length_seq in Hy. apply lookup_seq in Hy as [-> _].
    replace (k - S j) with (k - 1 - j) by lia. by apply H.
Qed.

Lemma Forall2_reverse_seq (R : nat → nat → Prop) a b k :
  (∀ j, j < k → R (a + (k - 1 - j)) (b + j)) →
  Forall2 R (reverse (seq a k)) (seq b k).
Proof.
  intros H. apply Forall2_flip. apply Forall2_seq_reverse. done.
Qed.

(** The inverse of a well-formed path stores at [i] what the path stores
    at [lidx - 1 - i]. *)
Lemma inverted_links pv ipv :
  wf pv → wf ipv → path_links ipv = reverse (path_links pv) →
  lidx ipv = lidx pv
  ∧ ∀ i, i < lidx pv → links ipv !! i = links pv !! (lidx pv - 1 - i).
Proof.
  intros (Hl & _ & _) (Hl' & _ & _) Hrev.
  assert (Hn : lidx ipv = lidx pv).
  { apply (f_equal length) in Hrev. unfold path_links in Hrev.
    rewrite length_reverse, !length_take in Hrev. lia. }
  split; [done|]. intros i Hi.
  rewrite <- (lookup_take_lt (links ipv) (lidx ipv)) by lia.
  change (take (lidx ipv) (links ipv)) with (path_links ipv).
  rewrite Hrev, reverse_lookup
    by (unfold path_links; rewrite length_take; lia).
  unfold path_links. rewrite length_take, lookup_take_lt by lia.
  f_equal. lia.
Qed.

(** X10.  Inverting a path does not change what is asked of its links.
    On a well-formed path with at least one link, the inverse that
    [Invert] returns gives the same ingress tuple, the same egress tuple
    and the same lists of intermediate tuples, in the same order, as the
    path itself. *)
Theorem Invert_keeps_queues m p pv qid ts :
  m !! p = Some pv → wf pv → 0 < lidx pv →
  ∃ ip ipv m',
    Invert p m = Some (ip, m') ∧ m' !! ip = Some ipv
    ∧ Get_ilink_spq Mk_spq Get_forward_info ipv qid ts
      = Get_ilink_spq Mk_spq Get_forward_info pv qid ts
    ∧ Get_elink_spq Mk_spq Get_backward_info ipv qid ts
      = Get_elink_spq Mk_spq Get_backward_info pv qid ts
    ∧ Get_forward_im_spq Mk_spq Get_forward_info ipv ts
      = Get_forward_im_spq Mk_spq Get_forward_info pv ts
    ∧ Get_backward_im_spq Mk_spq Get_backward_info ipv ts
      = Get_backward_im_spq Mk_spq Get_backward_info pv ts.
Proof.
  intros Hp Hwf Hpos.
  destruct (Invert_spec m p pv Hp Hwf)
    as (ip & ipv & Hinv & _ & Hl & _ & Hr & _ & _ & Hwf').
  destruct (inverted_links pv ipv Hwf Hwf' Hl) as [Hn Hlk].
  exists ip, ipv, (<[ip := ipv]> m).
  split; [done|]. split; [apply lookup_insert_eq|].
  unfold Get_ilink_spq, Get_elink_spq, Get_forward_im_spq,
    Get_backward_im_spq.
  rewrite Hr, Hn.
  destruct (lidx pv) as [|k] eqn:Hk; [lia|].
  replace (S k - 1) with k by lia. simpl pred_idx.
  assert (H0 : links ipv !! 0 = links pv !! k).
  { rewrite Hlk by lia. f_equal. lia. }
  assert (Hlast : links ipv !! k = links pv !! 0).
  { rewrite Hlk by lia. f_equal. lia. }
  destruct (is_reverse pv); simpl negb; cbv iota.
  - split; [by unfold spq_at; rewrite H0|].
    split; [by unfold spq_at; rewrite Hlast|].
    split; symmetry.
    + apply collect_spq_same, Forall2_reverse_seq. intros j Hj.
      rewrite Hlk by lia. f_equal. lia.
    + apply collect_spq_same, Forall2_reverse_seq. intros j Hj.
      rewrite Hlk by lia. f_equal. lia.
  - split; [by unfold spq_at; rewrite Hlast|].
    split; [by unfold spq_at; rewrite H0|].
    split; symmetry.
    + apply collect_spq_same, Forall2_seq_reverse. intros j Hj.
      rewrite Hlk by lia. f_equal. lia.
    + apply collect_spq_same, Forall2_seq_reverse. intros j Hj.
      rewrite Hlk by lia. f_equal. lia.
Qed.

Lemma invert_links_keeps p ip n m m' ipv :
  invert_links p ip n m = Some m' → m !! ip = Some ipv →
  ∃ ipv', m' !! ip = Some ipv'
          ∧ endpts ipv' = endpts ipv ∧ extip ipv' = extip ipv.
Proof.
  revert m ipv. induction n as [|n IH]; intros m ipv H Hip; simpl in H.
  - injection H as <-. eauto.
  - destruct (m !! p) as [pv|]; simpl in H; [|done].
    destruct (links pv !! n) as [l|]; simpl in H; [|done].
    destruct l as [l|]; simpl in H.
    + rewrite Hip in H. simpl in H.
      destruct (IH _ (add_link ipv l) H) as (ipv' & ? & ? & ?);
        [apply lookup_insert_eq|]. eauto.
    + by apply (IH m ipv).
Qed.

Lemma invert_switches_keeps p ip n m m' ipv :
  invert_switches p ip n m = Some m' → m !! ip = Some ipv →
  ∃ ipv', m' !! ip = Some ipv'
          ∧ endpts ipv' = endpts ipv ∧ extip ipv' = extip ipv.
Proof.
  revert m ipv. induction n as [|n IH]; intros m ipv H Hip; simpl in H.
  - injection H as <-. eauto.
  - destruct (m !! p) as [pv|]; simpl in H; [|done].
    destruct (switches pv !! n) as [s|]; simpl in H; [|done].
    unfold Add_switch in H at 1. rewrite Hip in H. simpl in H.
    destruct (IH _ (add_switch ipv s) H) as (ipv' & ? & ? & ?);
      [apply lookup_insert_eq|]. eauto.
Qed.

(** X11.  [Invert] copies the links and the switches only.  Whenever it
    returns, the new path has empty endpoint slots and no external IP
    address, whatever the original had, so [Get_endpoint_spq] finds no
    endpoint tuple on it and [Get_extip] is nil. *)
Theorem Invert_drops_endpoints m p ip m' qid ts :
  Invert p m = Some (ip, m') →
  ∃ ipv, m' !! ip = Some ipv
         ∧ endpts ipv = [None; None]
         ∧ Get_extip ipv = None
         ∧ Get_endpoint_spq Mk_spq Get_forward_info ipv qid ts
           = Some (None, None).
Proof.
  unfold Invert. intros H.
  destruct (m !! p) as [pv|]; simpl in H; [|done].
  set (a := fresh (dom m)) in H.
  destruct (<[a := new_path (h1 pv) (h2 pv)]> m !! p) as [pv1|];
    simpl in H; [|done].
  destruct (invert_links p a (lidx pv1) _) as [m2|] eqn:H2; simpl in H; [|done].
  destruct (invert_links_keeps _ _ _ _ _ (new_path (h1 pv) (h2 pv)) H2)
    as (x & Hx & Hxe & Hxi); [apply lookup_insert_eq|].
  destruct (m2 !! p) as [pv2|]; simpl in H; [|done].
  destruct (invert_switches p a (sidx pv2) m2) as [m3|] eqn:H3;
    simpl in H; [|done].
  destruct (invert_switches_keeps _ _ _ _ _ x H3 Hx) as (y & Hy & Hye & Hyi).
  destruct (m3 !! p) as [pv3|]; simpl in H; [|done].
  unfold Set_reverse in H. rewrite Hy in H. simpl in H.
  injection H as <- <-.
  exists (set_reverse y (negb (is_reverse pv3))).
  split; [apply lookup_insert_eq|].
  assert (He : endpts (set_reverse y (negb (is_reverse pv3))) = [None; None]).
  { simpl. by rewrite Hye, Hxe. }
  split; [done|].
  split; [unfold Get_extip; simpl; by rewrite Hyi, Hxi|].
  unfold Get_endpoint_spq, endpoint_spq. rewrite He.
  by destruct (is_reverse _).
Qed.
End Inverting.

Lemma im_spq_bound_witness :
  ∃ fs bs,
    Get_forward_im_spq Samples.sample_Mk_spq Samples.sample_forward_info
      Samples.sample_path 116 = Some fs
    ∧ Get_backward_im_spq Samples.sample_Mk_spq Samples.sample_backward_info
        Samples.sample_path 116 = Some bs
    ∧ length fs = lidx Samples.sample_path - 1
    ∧ length bs = lidx Samples.sample_path - 1.
Proof.
  apply (im_spq_bound Samples.sample_Mk_spq Samples.sample_forward_info
           Samples.sample_backward_info Samples.sample_path 116).
  - repeat apply add_switch_wf. repeat apply add_link_wf. apply new_path_wf.
  - simpl. lia.
Defined.

Lemma Invert_keeps_queues_witness :
  ∃ ip ipv m',
    Invert 1%positive Samples.sample_heap = Some (ip, m')
    ∧ m' !! ip = Some ipv
    ∧ Get_ilink_spq Samples.sample_Mk_spq Samples.sample_forward_info
        ipv "res1" 116
      = Get_ilink_spq Samples.sample_Mk_spq Samples.sample_forward_info
          Samples.sample_path "res1" 116
    ∧ Get_elink_spq Samples.sample_Mk_spq Samples.sample_backward_info
        ipv "res1" 116
      = Get_elink_spq Samples.sample_Mk_spq Samples.sample_backward_info
          Samples.sample_path "res1" 116
    ∧ Get_forward_im_spq Samples.sample_Mk_spq Samples.sample_forward_info
        ipv 116
      = Get_forward_im_spq Samples.sample_Mk_spq Samples.sample_forward_info
          Samples.sample_path 116
    ∧ Get_backward_im_spq Samples.sample_Mk_spq Samples.sample_backward_info
        ipv 116
      = Get_backward_im_spq Samples.sample_Mk_spq Samples.sample_backward_info
          Samples.sample_path 116.
Proof.
  apply (Invert_keeps_queues Samples.sample_Mk_spq Samples.sample_forward_info
           Samples.sample_backward_info Samples.sample_heap 1%positive
           Samples.sample_path "res1" 116).
  - vm_compute. reflexivity.
  - repeat apply add_switch_wf. repeat apply add_link_wf. apply new_path_wf.
  - simpl. lia.
Defined.

Lemma Invert_drops_endpoints_witness :
  ∃ ipv,
    (<[2%positive :=
         set_reverse
           (add_switch (add_switch (add_switch
              (add_link (add_link (new_path (Some "h1") (Some "h2")) 12) 11)
              (Some "sw3")) (Some "sw2")) (Some "sw1")) true]>
       Samples.sample_heap) !! 2%positive = Some ipv
    ∧ endpts ipv = [None; None]
    ∧ Get_extip ipv = None
    ∧ Get_endpoint_spq Samples.sample_Mk_spq Samples.sample_forward_info
        ipv "res1" 116 = Some (None, None).
Proof.
  apply (Invert_drops_endpoints Samples.sample_Mk_spq
           Samples.sample_forward_info Samples.sample_heap
           1%positive 2%positive _ "res1" 116).
  vm_compute. reflexivity.
Defined.
End PathMore.


Module GoStringsFacts.
Import GoStrings.

Lemma Split_sp_not_nil s : Split_sp s ≠ [].
Proof.
  destruct s as [|c s]; [done|]. simpl.
  destruct (Ascii.eqb c " "); [done|]. by destruct (Split_sp s).
Qed.

(** A string without blanks is its own single piece. *)
Lemma Split_sp_no_blank s : count_sp s = 0 → Split_sp s = [s].
Proof.
  induction s as [|c s IH]; [done|]. simpl.
  destruct (Ascii.eqb c " "); [done|]. intros H. by rewrite IH.
Qed.

(** The pieces of [a], a blank and [b] are [a], when it has no blank,
    followed by the pieces of [b]. *)
Lemma Split_sp_app a b :
  count_sp a = 0 → Split_sp (a +:+ " " +:+ b) = a :: Split_sp b.
Proof.
  induction a as [|c a IH]; [done|]. simpl.
  destruct (Ascii.eqb c " "); [done|]. intros H.
  change (String.app a (String " " b)) with (a +:+ " " +:+ b).
  by rewrite IH.
Qed.

(** There is one piece more than there are blanks. *)
Lemma length_Split_sp s : length (Split_sp s) = S (count_sp s).
Proof.
  induction s as [|c s IH]; [done|]. simpl.
  destruct (Ascii.eqb c " "); simpl; [by rewrite IH|].
  destruct (Split_sp s); simpl in *; done.
Qed.

(** No piece contains a blank. *)
Lemma Split_sp_pieces s : Forall (λ t, count_sp t = 0) (Split_sp s).
Proof.
  induction s as [|c s IH]; simpl; [by constructor|].
  destruct (Ascii.eqb c " ") eqn:Hc; [by constructor|].
  destruct (Split_sp s) as [|h t]; constructor; simpl; rewrite ?Hc;
    try done; by inversion IH.
Qed.
End GoStringsFacts.

Module NetReqMore.
Import NetReq.

Lemma call_keeps_name vm c : is_Some (name vm) → is_Some (name (call vm c)).
Proof.
  intros H. destruct c as [nv|nv|nv|nv|nv]; simpl; try done.
  destruct nv; simpl; [eauto|done].
Qed.

(** X12.  A vm made by [Mk_netreq_vm] always has a name: the one given,
    else the ip4 address given, else [unnamed].  No run of [Put_name],
    [Put_id], [Put_ip4], [Put_ip6] and [Put_phost] calls takes the name
    away again, so [Get_values] never returns a nil name for it.  The
    name taken from the ip4 address does not follow a later [Put_ip4]. *)
Theorem Mk_netreq_vm_named nm i a4 a6 ph mc g f gm (cs : list put) :
  name (Mk_netreq_vm nm i a4 a6 ph mc g f gm)
    = Some (default (default "unnamed" a4) nm)
  ∧ is_Some (r_name (Get_values
                       (Some (calls (Mk_netreq_vm nm i a4 a6 ph mc g f gm) cs))))
  ∧ ∀ nv, name (Put_ip4 (Mk_netreq_vm None i a4 a6 ph mc g f gm) nv)
          = Some (default "unnamed" a4).
Proof.
  split; [by destruct nm, a4|]. split; [|by destruct a4].
  simpl. unfold calls.
  assert (H : is_Some (name (Mk_netreq_vm nm i a4 a6 ph mc g f gm)))
    by (destruct nm, a4; simpl; eauto).
  revert H. generalize (Mk_netreq_vm nm i a4 a6 ph mc g f gm).
  induction cs as [|c cs IH]; intros vm H; simpl; [done|].
  apply IH. by apply call_keeps_name.
Qed.

(** X13.  [To_str] lists the fields in the order of the struct: when no
    field contains a blank, splitting its output on blanks gives back the
    eight fields as name, id, ip4, ip6, phost, gw, mac, fip, a nil one
    shown as [<nil>]. *)
Theorem To_str_fields vm :
  Forall (λ f, GoStrings.count_sp (show f) = 0)
    [name vm; id vm; ip4 vm; ip6 vm; phost vm; gw vm; mac vm; fip vm] →
  GoStrings.Split_sp (To_str (Some vm))
  = show <$> [name vm; id vm; ip4 vm; ip6 vm; phost vm; gw vm; mac vm; fip vm].
Proof.
  intros H.
  repeat (apply Forall_cons in H as [? H]).
  simpl.
  repeat (rewrite GoStringsFacts.Split_sp_app by done).
  by rewrite GoStringsFacts.Split_sp_no_blank.
Qed.

Lemma To_str_fields_witness :
  GoStrings.Split_sp
    (To_str (Some (Mk_netreq_vm None (Some "id1") (Some "10.0.0.4") None
                     (Some "host1") None None None ∅)))
  = ["10.0.0.4"; "id1"; "10.0.0.4"; "<nil>"; "host1"; "<nil>"; "<nil>";
     "<nil>"].
Proof.
  apply (To_str_fields (Mk_netreq_vm None (Some "id1") (Some "10.0.0.4") None
                          (Some "host1") None None None ∅)).
  repeat constructor.
Defined.
End NetReqMore.

Module PathEndpointFacts.
Import PathM.

Section Endpoints.
Context {Link Switch Host Info Spq : Type}.
Context (Mk_spq : Info → Spq).
Context (Get_forward_info : option Link → string → Z → Info).
Implicit Types (m : heap Link Switch Host) (pv : Path Link Switch Host).
Implicit Types (p : positive) (qid : string) (ts : Z).

(** X14.  [Flip_endpoints] panics on a nil receiver and on a path with
    fewer than two endpoint slots; otherwise it swaps the first two
    endpoint slots of the path and changes no other field of it and no
    other path of the heap, and flipping twice gives back the heap as it
    was. *)
Theorem Flip_endpoints_twice m p :
  (m !! p = None → Flip_endpoints p m = None)
  ∧ ∀ pv, m !! p = Some pv →
      (length (endpts pv) < 2 → Flip_endpoints p m = None)
      ∧ (2 ≤ length (endpts pv) →
           ∃ m',
             m' = <[p := {| links := links pv; lidx := lidx pv;
                            switches := switches pv; sidx := sidx pv;
                            h1 := h1 pv; h2 := h2 pv;
                            endpts :=
                              <[1 := default None (endpts pv !! 0)]>
                                (<[0 := default None (endpts pv !! 1)]>
                                   (endpts pv));
                            extip := extip pv;
                            is_reverse := is_reverse pv |}]> m
             ∧ Flip_endpoints p m = Some m'
             ∧ Flip_endpoints p m' = Some m).
Proof.
  split; [by unfold Flip_endpoints; intros ->|].
  intros pv Hp. unfold Flip_endpoints. rewrite Hp. simpl.
  destruct pv as [ls li ss si a b eps x r]. simpl.
  destruct eps as [|e0 [|e1 rest]]; simpl; (split; [try done; lia|]);
    try (intros; lia).
  intros _. eexists. split; [reflexivity|]. split; [reflexivity|].
  rewrite lookup_insert_eq. simpl.
  rewrite insert_insert_eq. f_equal. by apply insert_id.
Qed.

(** X15.  [Get_endpoint_spq] returns the endpoint tuples in path order.
    The link in endpoint slot 0 is asked about the queue [E0] followed by
    the queue id, the link in slot 1 about [E1] followed by the queue id,
    and an empty slot gives a nil tuple; the tuple of slot 0 is returned
    first, unless the path is reversed, when the tuple of slot 1 is.  The
    function panics when one of the two slots does not exist.  So toggling
    the reverse flag swaps the two results and changes nothing else. *)
Theorem Get_endpoint_spq_reverse pv qid ts :
  (∀ e0 e1, endpts pv !! 0 = Some e0 → endpts pv !! 1 = Some e1 →
     Get_endpoint_spq Mk_spq Get_forward_info pv qid ts
     = Some (if is_reverse pv
             then ((λ l, Mk_spq (Get_forward_info (Some l) ("E1" +:+ qid) ts))
                     <$> e1,
                   (λ l, Mk_spq (Get_forward_info (Some l) ("E0" +:+ qid) ts))
                     <$> e0)
             else ((λ l, Mk_spq (Get_forward_info (Some l) ("E0" +:+ qid) ts))
                     <$> e0,
                   (λ l, Mk_spq (Get_forward_info (Some l) ("E1" +:+ qid) ts))
                     <$> e1)))
  ∧ (endpts pv !! 0 = None ∨ endpts pv !! 1 = None →
       Get_endpoint_spq Mk_spq Get_forward_info pv qid ts = None)
  ∧ Get_endpoint_spq Mk_spq Get_forward_info
      (set_reverse pv (negb (is_reverse pv))) qid ts
    = prod_swap <$> Get_endpoint_spq Mk_spq Get_forward_info pv qid ts.
Proof.
  unfold Get_endpoint_spq, endpoint_spq. simpl. split; [|split].
  - intros e0 e1 H0 H1.
    destruct (is_reverse pv); simpl; rewrite H0, H1; by destruct e0, e1.
  - intros [H|H]; destruct (is_reverse pv); simpl;
      destruct (endpts pv !! 0) as [[?|]|];
      destruct (endpts pv !! 1) as [[?|]|]; simpl; done.
  - destruct (is_reverse pv); simpl;
      destruct (endpts pv !! 0) as [[l0|]|]; simpl;
      destruct (endpts pv !! 1) as [[l1|]|]; simpl; done.
Qed.
End Endpoints.
End PathEndpointFacts.

Module ResMgrMore.
Import PledgeWindow PathM ResMgr ResMgrFacts.

Section Manager.
Context {Link Switch Host Info Spq : Type}.
Context (Mk_spq : Info → Spq).
Context (Get_forward_info Get_backward_info : option Link → string → Z → Info).
Context (Get_addresses : option Host → option string).
Context (super_cookie : string).
Implicit Types (inv : Inventory Link Switch Host) (p : Pledge Link Switch Host).
Implicit Types (name cookie : string).
Implicit Types (P : fq_data Spq → Prop) (d : fq_data Spq).

Local Abbreviation Res_manager :=
  (ResMgr.Res_manager Mk_spq Get_forward_info Get_backward_info
     Get_addresses super_cookie).
Local Abbreviation Del_res := (ResMgr.Del_res (Spq:=Spq) super_cookie).
Local Abbreviation Del_all_res := (ResMgr.Del_all_res (Spq:=Spq) super_cookie).
Local Abbreviation push_pledge :=
  (ResMgr.push_pledge Mk_spq Get_forward_info Get_backward_info Get_addresses).
Local Abbreviation push_reservations :=
  (ResMgr.push_reservations Mk_spq Get_forward_info Get_backward_info
     Get_addresses).

(** *** Computations that cannot panic *)

Lemma delivers_bind {A B} T P (Q : B → Prop)
    (m : prog Link Switch Host Spq A) (f : A → prog Link Switch Host Spq B) :
  delivers T P (λ a, delivers T P Q (f a)) m → delivers T P Q (m ≫= f).
Proof.
  unfold mbind, prog_bind.
  induction m as [a| |k IH|req k IH|req k IH]; simpl; try done.
  - intros H t Ht. apply IH, H, Ht.
  - intros H r. apply IH, H.
  - intros [? ?]. split; [done|]. by apply IH.
Qed.

Lemma delivers_weaken {A} T P P' (Q Q' : A → Prop)
    (m : prog Link Switch Host Spq A) :
  (∀ d, P d → P' d) → (∀ a, Q a → Q' a) →
  delivers T P Q m → delivers T P' Q' m.
Proof.
  intros HP HQ.
  induction m as [a| |k IH|req k IH|req k IH]; simpl; try done.
  - apply HQ.
  - intros H t Ht. apply IH, H, Ht.
  - intros H r. apply IH, H.
  - intros [? ?]. split; [by apply HP | by apply IH].
Qed.

(** Every run whose clock readings satisfy [T] returns. *)
Lemma delivers_run {A} T P (Q : A → Prop)
    (m : prog Link Switch Host Spq A) clock nw reads calls :
  (∀ k, T (clock k)) →
  delivers T P Q m →
  ∃ a tr, run clock nw m reads calls = (Some a, tr) ∧ Q a
          ∧ ∀ d, Ev_fq d ∈ tr → P d.
Proof.
  intros HT. revert reads calls.
  induction m as [a| |k IH|req k IH|req k IH]; intros reads calls Hs;
    simpl in *.
  - exists a, []. split; [done|]. split; [done|].
    intros d Hd. by apply elem_of_nil in Hd.
  - done.
  - destruct (IH (clock reads) (S reads) calls (Hs _ (HT reads)))
      as (a & tr & Hrun & Ha & Htr).
    rewrite Hrun. eexists _, _. split; [done|]. split; [done|].
    intros d [Hd|Hd]%elem_of_cons; [done | by apply Htr].
  - destruct (IH _ reads (S calls) (Hs (nw calls req)))
      as (a & tr & Hrun & Ha & Htr).
    rewrite Hrun. eexists _, _. split; [done|]. split; [done|].
    intros d [Hd|Hd]%elem_of_cons; [done | by apply Htr].
  - destruct Hs as [Hreq Hs].
    destruct (IH reads calls Hs) as (a & tr & Hrun & Ha & Htr).
    rewrite Hrun. eexists _, _. split; [done|]. split; [done|].
    intros d [Hd|Hd]%elem_of_cons; [by injection Hd as -> | by apply Htr].
Qed.

(** A computation followed by a step that only returns. *)
Lemma run_bind_ret {A B} (m : prog Link Switch Host Spq A)
    (f : A → prog Link Switch Host Spq B) (g : A → B) clock nw reads calls :
  (∀ a, f a = Ret (g a)) →
  run clock nw (m ≫= f) reads calls
  = (g <$> (run clock nw m reads calls).1, (run clock nw m reads calls).2).
Proof.
  intros Hf. unfold mbind, prog_bind. revert reads calls.
  induction m as [a| |k IH|req k IH|req k IH]; intros reads calls; simpl.
  - by rewrite Hf.
  - done.
  - rewrite IH. by destruct (run clock nw (k _) _ _).
  - rewrite IH. by destruct (run clock nw (k _) _ _).
  - rewrite IH. by destruct (run clock nw k _ _).
Qed.

(** *** Deleting *)

(** X16.  A delete that is refused does nothing.  For a name that is not in
    the inventory, and for a pledge that rejects the cookie when the
    cookie is not the super cookie, [Del_res] returns the error of
    [Get_res] at once: it does not call the network manager, does not read
    the clock and leaves the inventory as it was.  These are the only
    cases in which it returns without calling the network manager. *)
Theorem Del_res_refused inv name cookie :
  (cache inv !! name = None →
     Del_res inv name cookie
     = Ret (Some ("cannot find reservation: " +:+ name), inv))
  ∧ (∀ p, cache inv !! name = Some p →
       usrkey p ≠ cookie → cookie ≠ super_cookie →
       Del_res inv name cookie
       = Ret (Some ("not authorised to access or delete reservation: "
                      +:+ name), inv))
  ∧ ((∃ r, Del_res inv name cookie = Ret r) →
       ∀ p, cache inv !! name = Some p →
         usrkey p ≠ cookie ∧ cookie ≠ super_cookie).
Proof.
  unfold ResMgr.Del_res, ResMgr.Get_res, Is_valid_cookie.
  split; [by intros ->|]. split.
  - intros p -> Hk Hs.
    rewrite (bool_decide_eq_false_2 _ Hk), (bool_decide_eq_false_2 _ Hs).
    done.
  - intros [r Hr] p Hp. rewrite Hp in Hr.
    destruct (bool_decide_reflect (usrkey p = cookie));
      destruct (bool_decide_reflect (cookie = super_cookie)); simpl in Hr;
      done.
Qed.

(** What a delete at clock reading [t] leaves of a pledge. *)
Local Abbreviation expired_at p t :=
  (Reset_pushed (Set_expiry p (Int64.add t 15))).

Lemma expired_at_again p t t' : expired_at (expired_at p t) t' = expired_at p t'.
Proof. done. Qed.

Section Del_all.
Variables (T : Z → Prop) (inv0 : Inventory Link Switch Host) (cookie : string).

Let accepts p : Prop := usrkey p = cookie ∨ cookie = super_cookie.

(** Every entry is as it was, or is an accepting pledge expired. *)
Let related inv : Prop :=
  ∀ k, match cache inv0 !! k with
       | None => cache inv !! k = None
       | Some p =>
           cache inv !! k = Some p
           ∨ (accepts p ∧ ∃ t, T t ∧ cache inv !! k = Some (expired_at p t))
       end.

(** The entry [k], if its pledge accepts the cookie, is expired. *)
Let done_with k inv : Prop :=
  ∀ p, cache inv0 !! k = Some p → accepts p →
    ∃ t, T t ∧ cache inv !! k = Some (expired_at p t).

Lemma Del_res_step inv name :
  related inv →
  delivers T (λ _ : fq_data Spq, False)
    (λ r, related r.2 ∧ done_with name r.2
          ∧ ∀ k, done_with k inv → done_with k r.2)
    (Del_res inv name cookie).
Proof.
  intros Hrel. unfold ResMgr.Del_res, ResMgr.Get_res, Is_valid_cookie.
  pose proof (Hrel name) as Hn.
  destruct (cache inv !! name) as [q|] eqn:Hq.
  - destruct (cache inv0 !! name) as [p0|] eqn:Hp0; [|done].
    assert (Hk : usrkey q = usrkey p0).
    { destruct Hn as [[= ->] | (_ & t & _ & [= ->])]; done. }
    assert (Hdel : ∀ t, expired_at q t = expired_at p0 t).
    { intros t. destruct Hn as [[= ->] | (_ & t0 & _ & [= ->])]; done. }
    destruct (bool_decide_reflect (usrkey q = cookie)) as [Hu|Hu];
      destruct (bool_decide_reflect (cookie = super_cookie)) as [Hs|Hs];
      simpl.
    1-3: intros reply t Ht; simpl;
      assert (Hacc : accepts p0)
        by (unfold accepts; rewrite <- Hk; auto);
      unfold related, done_with; simpl;
      (split; [|split]);
      [ intros k; destruct (decide (k = name)) as [->|Hne];
        [ rewrite Hp0, lookup_insert_eq, Hdel; right; eauto
        | rewrite lookup_insert_ne by done; apply Hrel ]
      | intros p Hp _; rewrite Hp0 in Hp; injection Hp as <-;
        exists t; by rewrite lookup_insert_eq, Hdel
      | intros k Hd; destruct (decide (k = name)) as [->|Hne];
        [ intros p Hp _; rewrite Hp0 in Hp; injection Hp as <-;
          exists t; by rewrite lookup_insert_eq, Hdel
        | intros p Hp Ha; rewrite lookup_insert_ne by done; by apply Hd ] ].
    split; [exact Hrel|]. split; [|intros k H; exact H].
    intros p Hp [Ha|Ha]; [|done].
    rewrite Hp0 in Hp. injection Hp as <-. by rewrite Hk in Hu.
  - simpl. split; [exact Hrel|]. split; [|intros k H; exact H].
    intros p Hp _. rewrite Hp in Hn.
    destruct Hn as [?|(_ & ? & _ & ?)]; done.
Qed.

Lemma Del_all_fold (names : list string) n inv :
  related inv →
  delivers T (λ _ : fq_data Spq, False)
    (λ r, r.1 ≤ n + length names ∧ related r.2
          ∧ ∀ k, (k ∈ names ∨ done_with k inv) → done_with k r.2)
    (foldM (λ '(ndel, inv) pname,
              '(err, inv) ← Del_res inv pname cookie;
              Ret (match err with None => S ndel | Some _ => ndel end, inv))
           (n, inv) names).
Proof.
  revert n inv. induction names as [|name names IH]; intros n inv Hrel.
  - simpl. split; [lia|]. split; [done|].
    intros k [Hk|Hk]; [by apply elem_of_nil in Hk | done].
  - simpl foldM. apply delivers_bind, delivers_bind.
    refine (delivers_weaken _ _ _ _ _ _ (λ d H, H) _
              (Del_res_step inv name Hrel)).
    intros [err inv1] (Hrel1 & Hd1 & Hkeep1). simpl in *.
    refine (delivers_weaken _ _ _ _ _ _ (λ d H, H) _ (IH _ inv1 Hrel1)).
    intros [n2 inv2] (Hn2 & Hrel2 & Hd2). simpl in *.
    split; [destruct err; lia|]. split; [done|].
    intros k [[->|Hk]%elem_of_cons | Hk]; apply Hd2; auto.
Qed.
End Del_all.

(** X17.  [Del_all_res] always returns, and it only ever expires: no
    entry is removed from the cache and no request is queued for the
    flow-queue manager.  In an inventory where every pledge sits under its
    own id, each pledge that accepts the cookie (its owner cookie, or the
    super cookie) leaves with its expiry 15 seconds past a clock reading
    and its pushed flag cleared, and every other pledge is left exactly as
    it was.  The number returned counts the deletions the network manager
    reported no error for, so it is at most the number of pledges.  The
    manager answers a delete of the name [all] with no error, whatever was
    deleted. *)
Theorem Del_all_res_scope inv cookie clock nw reads calls :
  keyed_by_id inv →
  ∃ ndel inv' tr,
    run clock nw (Del_all_res inv cookie) reads calls = (Some (ndel, inv'), tr)
    ∧ (∀ d, Ev_fq d ∉ tr)
    ∧ ndel ≤ size (cache inv)
    ∧ (∀ k, match cache inv !! k with
            | None => cache inv' !! k = None
            | Some p =>
                if decide (usrkey p = cookie ∨ cookie = super_cookie)
                then ∃ i, cache inv' !! k = Some (expired_at p (clock i))
                else cache inv' !! k = Some p
            end)
    ∧ ∃ tr', run clock nw (Res_manager inv (REQ_DEL "all" cookie)) reads calls
             = (Some (None, None, inv'), tr').
Proof.
  intros Hkeyed.
  set (T := λ t, ∃ i : nat, t = clock i).
  assert (HT : ∀ k, T (clock k)) by (intros k; by exists k).
  set (names := (λ kp : string * Pledge Link Switch Host, Get_id kp.2)
                  <$> map_to_list (cache inv)).
  assert (Hrel : ∀ k, match cache inv !! k with
                      | None => cache inv !! k = None
                      | Some p =>
                          cache inv !! k = Some p
                          ∨ ((usrkey p = cookie ∨ cookie = super_cookie)
                             ∧ ∃ t, T t ∧ cache inv !! k = Some (expired_at p t))
                      end).
  { intros k. destruct (cache inv !! k); auto. }
  pose proof (Del_all_fold T inv cookie names 0 inv Hrel) as Hfold.
  assert (Hlen : length names = size (cache inv)).
  { unfold names. by rewrite length_fmap, length_map_to_list. }
  assert (Hin : ∀ k p, cache inv !! k = Some p → k ∈ names).
  { intros k p Hp. unfold names. apply list_elem_of_fmap.
    exists (k, p). split; [symmetry; by apply Hkeyed|].
    by apply elem_of_map_to_list. }
  assert (Hpost : ∀ r : nat * Inventory Link Switch Host,
            (r.1 ≤ 0 + length names
             ∧ (∀ k, match cache inv !! k with
                     | None => cache r.2 !! k = None
                     | Some p =>
                         cache r.2 !! k = Some p
                         ∨ ((usrkey p = cookie ∨ cookie = super_cookie)
                            ∧ ∃ t, T t ∧ cache r.2 !! k = Some (expired_at p t))
                     end)
             ∧ (∀ k, (k ∈ names
                      ∨ (∀ p, cache inv !! k = Some p →
                           usrkey p = cookie ∨ cookie = super_cookie →
                           ∃ t, T t ∧ cache inv !! k = Some (expired_at p t))) →
                     ∀ p, cache inv !! k = Some p →
                       usrkey p = cookie ∨ cookie = super_cookie →
                       ∃ t, T t ∧ cache r.2 !! k = Some (expired_at p t))) →
            r.1 ≤ size (cache inv)
            ∧ ∀ k, match cache inv !! k with
                   | None => cache r.2 !! k = None
                   | Some p =>
                       if decide (usrkey p = cookie ∨ cookie = super_cookie)
                       then ∃ i, cache r.2 !! k = Some (expired_at p (clock i))
                       else cache r.2 !! k = Some p
                   end).
  { intros [n inv'] (Hn & Hr & Hd). simpl in *. split; [lia|].
    intros k. pose proof (Hr k) as Hrk.
    destruct (cache inv !! k) as [p|] eqn:Hp; [|done].
    case_decide as Hacc.
    - destruct (Hd k (or_introl (Hin k p Hp)) p Hp Hacc) as (t & [i ->] & Ht).
      by exists i.
    - destruct Hrk as [?|[? _]]; done. }
  destruct (delivers_run T _ _ _ clock nw reads calls HT
              (delivers_weaken T _ _ _ _ _ (λ d H, H) Hpost Hfold))
    as ([ndel inv'] & tr & Hrun & [Hn Hinv'] & Htr).
  change (run clock nw (Del_all_res inv cookie) reads calls
          = (Some (ndel, inv'), tr)) in Hrun.
  exists ndel, inv', tr. split; [exact Hrun|].
  split; [intros d Hd; exact (Htr d Hd)|]. split; [exact Hn|].
  split; [exact Hinv'|].
  exists tr.
  change (Res_manager inv (REQ_DEL "all" cookie))
    with (Del_all_res inv cookie
            ≫= λ r, let '(_, inv1) := r in
                    (Ret (None, None, inv1)
                       : prog Link Switch Host Spq
                           (option (Pledge Link Switch Host) * option error
                            * Inventory Link Switch Host))).
  rewrite (run_bind_ret _ _ (λ r, (None, None, r.2)))
    by (by intros [? ?]).
  by rewrite Hrun.
Qed.

(** *** Pushing *)

Local Abbreviation counted_pushed st n :=
  (Build_push_state (ps_fq_data st) (push_count st) (pend_count st)
     (pushed_count st + n) (ps_inv st)).

Lemma push_fold_pushed (entries : list (string * Pledge Link Switch Host)) st :
  Forall (λ e, Is_pushed e.2 = true) entries →
  foldM push_pledge st entries = Ret (counted_pushed st (length entries)).
Proof.
  revert st. induction entries as [|[rname p] entries IH]; intros st Hall.
  - simpl. destruct st. simpl. by rewrite Nat.add_0_r.
  - apply Forall_cons in Hall as [Hp Hall]. simpl in Hp.
    simpl foldM. unfold ResMgr.push_pledge at 1. destruct st as [d a b c i].
    rewrite Hp. simpl. rewrite (IH _ Hall). simpl.
    do 2 f_equal. lia.
Qed.

(** X18.  When every pledge of the inventory is marked pushed,
    [push_reservations] does nothing at all: it reads no clock, asks the
    network manager nothing and queues no request, leaves the inventory as
    it is, and returns the number of pledges. *)
Theorem push_reservations_all_pushed inv :
  (∀ k p, cache inv !! k = Some p → Is_pushed p = true) →
  push_reservations inv = Ret (size (cache inv), inv).
Proof.
  intros Hall. unfold ResMgr.push_reservations, ResMgr.push_entries.
  rewrite push_fold_pushed.
  - simpl. by rewrite length_map_to_list.
  - apply Forall_forall. intros [k p] Hin. simpl.
    by apply (Hall k), elem_of_map_to_list.
Qed.

Lemma sends_any {A} T (m : prog Link Switch Host Spq A) :
  sends T (λ _, True) (λ _, True) m.
Proof. induction m; simpl; auto. Qed.

Lemma sends_and {A} T P P' (Q Q' : A → Prop)
    (m : prog Link Switch Host Spq A) :
  sends T P Q m → sends T P' Q' m →
  sends T (λ d, P d ∧ P' d) (λ a, Q a ∧ Q' a) m.
Proof.
  induction m as [a| |k IH|req k IH|req k IH]; simpl; try done.
  - intros H H' t Ht. apply IH; auto.
  - intros H H' r. apply IH; auto.
  - intros [? ?] [? ?]. split; [done|]. by apply IH.
Qed.

Section Push.
Variables (inv0 : Inventory Link Switch Host).

(** Every entry is as it was on entry, or is a pledge that was not pushed
    and now is. *)
Let marked inv : Prop :=
  ∀ k, cache inv !! k = cache inv0 !! k
       ∨ ∃ p, cache inv0 !! k = Some p ∧ Is_pushed p = false
              ∧ cache inv !! k = Some (Set_pushed p).

Lemma push_pledge_result T st rname p :
  cache inv0 !! rname = Some p → marked (ps_inv st) →
  sends T (λ _ : fq_data Spq, True)
    (λ st', pushed_count st'
            = pushed_count st + (if Is_pushed p then 1 else 0)
            ∧ marked (ps_inv st'))
    (push_pledge st (rname, p)).
Proof.
  intros Hp Hm. unfold ResMgr.push_pledge.
  destruct st as [d np npe npu inv]. simpl in Hm.
  destruct (Is_pushed p) eqn:Hpushed; [simpl; split; [lia|done]|].
  cbn [negb]. cbv beta iota.
  apply sends_is_selected; [intros t1 t2 _ _ _|simpl; split; [lia|done]].
  unfold Get_values. cbv beta iota zeta.
  apply sends_name2ip; intros ip1. apply sends_name2ip; intros ip2.
  destruct ip1 as [ip1|]; [|simpl; split; [lia|done]].
  destruct ip2 as [ip2|]; [|simpl; split; [lia|done]].
  apply (sends_bind_inv _ _ (λ _, True)); [apply sends_any|]. intros d1 _.
  apply sends_time_now. intros t4 _.
  apply (sends_bind_inv _ _ (λ _, True)); [apply sends_any|]. intros d2 _.
  simpl. split; [lia|]. unfold marked. simpl.
  intros k. destruct (decide (k = rname)) as [->|Hne].
  - right. exists p. by rewrite lookup_insert_eq.
  - rewrite lookup_insert_ne by done. apply Hm.
Qed.

Lemma push_fold_result T (entries : list (string * Pledge Link Switch Host)) st :
  (∀ rname p, (rname, p) ∈ entries → cache inv0 !! rname = Some p) →
  marked (ps_inv st) →
  sends T (λ _ : fq_data Spq, True)
    (λ st', pushed_count st'
            = pushed_count st
              + length (filter (λ e, Is_pushed e.2 = true) entries)
            ∧ marked (ps_inv st'))
    (foldM push_pledge st entries).
Proof.
  revert st. induction entries as [|[rname p] entries IH]; intros st Hin Hm.
  - simpl. split; [lia|done].
  - simpl foldM.
    eapply sends_bind_inv.
    { apply push_pledge_result; [|done]. apply Hin. left. }
    intros st1 [Hc1 Hm1].
    eapply sends_weaken; [| |apply IH]; [done| |by intros ???; apply Hin; right|done].
    intros st2 [Hc2 Hm2]. split; [|done].
    rewrite Hc2, Hc1, filter_cons. simpl.
    destruct (Is_pushed p); case_decide; simpl; try done; lia.
Qed.
End Push.

Lemma push_reservations_result_sends T inv :
  sends T (λ _ : fq_data Spq, True)
    (λ r, r.1 = length (filter (λ e, Is_pushed e.2 = true)
                          (map_to_list (cache inv)))
          ∧ ∀ k, cache r.2 !! k = cache inv !! k
                 ∨ ∃ p, cache inv !! k = Some p ∧ Is_pushed p = false
                        ∧ cache r.2 !! k = Some (Set_pushed p))
    (push_reservations inv).
Proof.
  unfold ResMgr.push_reservations, ResMgr.push_entries.
  eapply sends_bind_inv.
  { apply (push_fold_result inv).
    - intros rname p. apply elem_of_map_to_list.
    - intros k. by left. }
  intros st [Hc Hm]. simpl. split; [by rewrite Hc|done].
Qed.

(** X19.  What [push_reservations] returns and leaves behind, in every run
    that returns.  The number returned is [pushed_count]: the number of
    pledges that were marked pushed already when the function was entered,
    not the number it pushed.  The inventory keeps its keys, and an entry
    is either exactly as it was or a pledge that was unpushed on entry and
    now differs only in that it is marked pushed. *)
Theorem push_reservations_result inv clock nw reads calls n inv' :
  (run clock nw (push_reservations inv) reads calls).1 = Some (n, inv') →
  n = length (filter (λ e, Is_pushed e.2 = true) (map_to_list (cache inv)))
  ∧ ∀ k, cache inv' !! k = cache inv !! k
         ∨ ∃ p, cache inv !! k = Some p ∧ Is_pushed p = false
                ∧ cache inv' !! k = Some (Set_pushed p).
Proof.
  intros Hrun.
  assert (HT : ∀ k : nat, (λ _, True) (clock k)) by done.
  destruct (sends_run _ _ _ _ clock nw reads calls HT
              (push_reservations_result_sends _ inv)) as [_ Hres].
  exact (Hres _ Hrun).
Qed.

Lemma Reset_pushed_unpushed p : Is_pushed p = false → Reset_pushed p = p.
Proof. destruct p. simpl. by intros ->. Qed.

Lemma Reset_pushed_Set_pushed p :
  Is_pushed p = false → Reset_pushed (Set_pushed p) = p.
Proof. destruct p. simpl. by intros ->. Qed.

(** X20.  [failed_push] undoes the marking of a push.  Every request that
    a run of [push_reservations] queues names, in its id slot, a pledge of
    the inventory; handed back to [failed_push] after that run, it never
    trips the type assertion, and the pledge it names is put back exactly
    as it was before the push, so the next push selects it again.  No
    other entry changes. *)
Theorem failed_push_restores inv clock nw reads calls n inv' tr d :
  run clock nw (push_reservations inv) reads calls = (Some (n, inv'), tr) →
  Ev_fq d ∈ tr →
  ∃ rname p inv'',
    d FQ_ID = VStr rname
    ∧ cache inv !! rname = Some p ∧ Is_pushed p = false
    ∧ failed_push inv' d = Some inv''
    ∧ cache inv'' !! rname = Some p
    ∧ ∀ k, k ≠ rname → cache inv'' !! k = cache inv' !! k.
Proof.
  intros Hrun Hd.
  assert (HT : ∀ k : nat, (λ _, True) (clock k)) by done.
  destruct (sends_run _ _ _ _ clock nw reads calls HT
              (sends_and _ _ _ _ _ _
                 (push_reservations_sends Mk_spq Get_forward_info
                    Get_backward_info Get_addresses inv _)
                 (push_reservations_result_sends _ inv))) as [Hsent Hres].
  rewrite Hrun in Hsent, Hres. simpl in Hsent, Hres.
  destruct (Hsent d Hd) as [Hok _].
  destruct Hok as (rname & p & path & t1 & t2 & t3 & t4 & _ & Hp & Hnp
                   & _ & _ & _ & Hid & _).
  destruct (Hres _ eq_refl) as [_ [_ Hm]]. simpl in Hm.
  exists rname, p.
  unfold failed_push. rewrite Hid.
  destruct (Hm rname) as [Hsame | (p' & Hp' & _ & Hset)].
  - rewrite Hsame, Hp. eexists. split; [done|]. split; [done|].
    split; [done|]. split; [done|]. simpl.
    rewrite Reset_pushed_unpushed by done.
    split; [apply lookup_insert_eq|].
    intros k Hne. by rewrite lookup_insert_ne.
  - rewrite Hp in Hp'. injection Hp' as <-. rewrite Hset.
    eexists. split; [done|]. split; [done|].
    split; [done|]. split; [done|]. simpl.
    rewrite Reset_pushed_Set_pushed by done.
    split; [apply lookup_insert_eq|].
    intros k Hne. by rewrite lookup_insert_ne.
Qed.

(** X21.  Pausing pulls the flow-mods, resuming restores them.
    [pause_on] keeps the keys of the inventory and changes of each pledge
    the two flags only: it is paused and no longer marked pushed;
    [pause_off] does the same with the paused flag cleared.  After
    [pause_on] every request that a push queues while the clock reads
    [now] carries the expiry [now + 15]; after [pause_off] every request
    carries the expiry of the pledge it names. *)
Theorem pause_then_push inv now nw reads calls :
  Int64.in_range (now + 15) →
  (∀ k, cache (pause_on inv) !! k
        = (λ p, {| id := id p; usrkey := usrkey p; window := window p;
                  pushed := false; paused := true;
                  host1 := host1 p; host2 := host2 p;
                  tpport1 := tpport1 p; tpport2 := tpport2 p;
                  dscp := dscp p; bandw_in := bandw_in p;
                  bandw_out := bandw_out p; path_list := path_list p |})
            <$> cache inv !! k)
  ∧ (∀ k, cache (pause_off inv) !! k
          = (λ p, {| id := id p; usrkey := usrkey p; window := window p;
                  pushed := false; paused := false;
                  host1 := host1 p; host2 := host2 p;
                  tpport1 := tpport1 p; tpport2 := tpport2 p;
                  dscp := dscp p; bandw_in := bandw_in p;
                  bandw_out := bandw_out p; path_list := path_list p |})
              <$> cache inv !! k)
  ∧ (∀ d, Ev_fq d ∈ (run (λ _, now) nw (push_reservations (pause_on inv))
                       reads calls).2 →
       d FQ_EXPIRY = VInt (now + 15))
  ∧ (∀ d, Ev_fq d ∈ (run (λ _, now) nw (push_reservations (pause_off inv))
                       reads calls).2 →
       ∃ rname p, cache inv !! rname = Some p ∧ d FQ_ID = VStr rname
                  ∧ d FQ_EXPIRY = VInt (expiry (window p))).
Proof.
  intros Hr. split; [|split; [|split]].
  - intros k. unfold pause_on. simpl. by rewrite lookup_fmap.
  - intros k. unfold pause_off. simpl. by rewrite lookup_fmap.
  - intros d Hd.
    destruct (push_reservations_requests_any_clock Mk_spq Get_forward_info
                Get_backward_info Get_addresses _ _ _ _ _ _ Hd)
      as (rname & p & path & t1 & t2 & t3 & t4 & (_ & _ & [_ ->] & _) & Hp
          & _ & _ & _ & He & _).
    unfold pause_on in Hp. simpl in Hp. rewrite lookup_fmap in Hp.
    destruct (cache inv !! rname) as [p0|]; simpl in Hp; [|done].
    injection Hp as <-. simpl in He.
    by rewrite He, Int64Facts.add_exact.
  - intros d Hd.
    destruct (push_reservations_requests_any_clock Mk_spq Get_forward_info
                Get_backward_info Get_addresses _ _ _ _ _ _ Hd)
      as (rname & p & path & t1 & t2 & t3 & t4 & _ & Hp
          & _ & _ & _ & He & Hid & _).
    unfold pause_off in Hp. simpl in Hp. rewrite lookup_fmap in Hp.
    destruct (cache inv !! rname) as [p0|] eqn:Hp0; simpl in Hp; [|done].
    injection Hp as <-. simpl in He.
    exists rname, p0. done.
Qed.

(** *** Watching for state changes *)

Lemma any_pledge_delivers T (test : Pledge Link Switch Host
                                    → prog Link Switch Host Spq bool)
    (f : Pledge Link Switch Host → bool) ps :
  (∀ p, delivers T (λ _ : fq_data Spq, False) (λ b, b = f p) (test p)) →
  delivers T (λ _ : fq_data Spq, False) (λ b, b = existsb f ps)
    (any_pledge test ps).
Proof.
  intros Htest. induction ps as [|p ps IH]; [done|].
  simpl any_pledge. apply delivers_bind.
  refine (delivers_weaken _ _ _ _ _ _ (λ d H, H) _ (Htest p)).
  intros b ->. simpl. destruct (f p); [done|]. exact IH.
Qed.

Lemma existsb_pledges inv (f : Pledge Link Switch Host → bool) :
  existsb f (map_to_list (cache inv)).*2 = true
  ↔ ∃ k p, cache inv !! k = Some p ∧ f p = true.
Proof.
  rewrite existsb_exists. split.
  - intros (p & Hin%list_elem_of_In & Hf).
    apply list_elem_of_fmap in Hin as ([k p'] & -> & Hin%elem_of_map_to_list).
    eauto.
  - intros (k & p & Hp & Hf). exists p. split; [|done].
    apply list_elem_of_In, list_elem_of_fmap. exists (k, p).
    split; [done | by apply elem_of_map_to_list].
Qed.

(** X29.  No change of state between two checks goes unnoticed.  When the
    clock reads [now] throughout a [REQ_SETQUEUES] turn that follows a
    check made at an earlier second [last], the turn always completes,
    sets [last_qcheck] to [now], and asks for a queue map exactly when
    some pledge of the inventory expired at a second from [last] up to,
    but not including, [now], or commenced at a second from [last] up to
    [now] and is not yet expired, or commences at [now]. *)
Theorem queue_check_notices inv last now nw reads calls :
  Int64.in_range last → Int64.in_range now → Int64.in_range (now - last) →
  (last < now)%Z →
  ∃ r tr,
    run (λ _, now) nw (queue_check (Spq:=Spq) inv last) reads calls
    = (Some (r, now), tr)
    ∧ (r = true
       ↔ ∃ k p, cache inv !! k = Some p
                ∧ ((last <= expiry (window p) < now)%Z
                   ∨ ((last <= commence (window p) <= now)%Z
                      ∧ (now < expiry (window p))%Z)
                   ∨ commence (window p) = now)).
Proof.
  intros Hl Hn Hd Hlt.
  set (T := λ t : Z, t = now).
  set (past := Int64.sub now last).
  set (f1 := λ p : Pledge Link Switch Host, Concluded_recently p past now).
  set (f2 := λ p : Pledge Link Switch Host,
               Commenced_recently p past now || Is_active_soon p 0 now).
  set (ps := (map_to_list (cache inv)).*2).
  assert (Hcheck : delivers T (λ _ : fq_data Spq, False)
            (λ r, r = (existsb f1 ps || existsb f2 ps, now))
            (queue_check inv last)).
  { unfold queue_check. intros t ->. simpl.
    destruct (Z.ltb_spec last now) as [_|?]; [|lia].
    apply delivers_bind.
    refine (delivers_weaken _ _ _ _ _ _ (λ d H, H) _
              (any_pledge_delivers T _ f1 ps _)).
    - intros c ->. apply delivers_bind. fold past. fold ps.
      destruct (existsb f1 ps); [done|].
      refine (delivers_weaken _ _ _ _ _ _ (λ d H, H) _
                (any_pledge_delivers T _ f2 ps _)).
      + by intros r ->.
      + intros p t1 ->. simpl. unfold f2.
        destruct (Commenced_recently p past now); [done|].
        by intros t2 ->.
    - intros p t1 ->. done. }
  assert (HT : ∀ k : nat, T ((λ _, now) k)) by done.
  destruct (delivers_run T _ _ _ (λ _, now) nw reads calls HT Hcheck)
    as (r & tr & Hrun & -> & _).
  eexists _, tr. split; [exact Hrun|].
  assert (Hpast : Int64.sub now past = last).
  { unfold past. rewrite (Int64Facts.sub_exact now last) by done.
    rewrite Int64Facts.sub_exact; [lia|].
    by replace (now - (now - last))%Z with last by lia. }
  assert (Hadd : Int64.add now 0 = now).
  { rewrite Int64Facts.add_exact; [lia|]. by rewrite Z.add_0_r. }
  rewrite orb_true_iff. unfold ps. rewrite !existsb_pledges.
  split.
  - intros [(k & p & Hp & Hf) | (k & p & Hp & Hf)]; exists k, p;
      (split; [done|]).
    + unfold f1, Concluded_recently in Hf. simpl in Hf. rewrite Hpast in Hf.
      apply andb_true_iff in Hf as [?%Z.ltb_lt ?%Z.leb_le]. left. lia.
    + unfold f2, Commenced_recently, Is_active_soon in Hf. simpl in Hf.
      rewrite Hpast, Hadd in Hf.
      apply orb_true_iff in Hf as [Hf|Hf].
      * apply andb_true_iff in Hf as [Hf ?%Z.ltb_lt].
        apply andb_true_iff in Hf as [?%Z.leb_le ?%Z.leb_le].
        right. left. lia.
      * apply andb_true_iff in Hf as [?%Z.leb_le ?%Z.leb_le].
        right. right. lia.
  - intros (k & p & Hp & [He | [[Hc He] | Hc]]).
    + left. exists k, p. split; [done|].
      unfold f1, Concluded_recently. simpl. rewrite Hpast.
      apply andb_true_iff. split; [apply Z.ltb_lt | apply Z.leb_le]; lia.
    + right. exists k, p. split; [done|].
      unfold f2, Commenced_recently. simpl. rewrite Hpast.
      apply orb_true_iff. left. rewrite !andb_true_iff.
      repeat split; [apply Z.leb_le | apply Z.leb_le | apply Z.ltb_lt]; lia.
    + right. exists k, p. split; [done|].
      unfold f2, Is_active_soon. simpl. rewrite Hadd.
      apply orb_true_iff. right. rewrite andb_true_iff.
      split; apply Z.leb_le; lia.
Qed.
End Manager.

Import Samples.

Lemma sample_inventory_keyed : keyed_by_id sample_inventory.
Proof. apply Add_res_keyed, Add_res_keyed, Mk_inventory_keyed. Qed.

Lemma Del_all_res_scope_witness :
  ∃ ndel inv' tr,
    run (λ _, 95%Z) sample_nw
      (Del_all_res (Spq:=spq) "root" sample_inventory "alice") 0 0
    = (Some (ndel, inv'), tr)
    ∧ (∀ d, Ev_fq d ∉ tr)
    ∧ ndel ≤ size (cache sample_inventory)
    ∧ (∀ k, match cache sample_inventory !! k with
            | None => cache inv' !! k = None
            | Some p =>
                if decide (usrkey p = "alice" ∨ "alice" = "root")
                then ∃ i : nat,
                       cache inv' !! k
                       = Some (Reset_pushed (Set_expiry p (Int64.add 95 15)))
                else cache inv' !! k = Some p
            end)
    ∧ ∃ tr', run (λ _, 95%Z) sample_nw
               (Res_manager sample_Mk_spq sample_forward_info
                  sample_backward_info sample_addresses "root"
                  sample_inventory (REQ_DEL "all" "alice")) 0 0
             = (Some (None, None, inv'), tr').
Proof.
  apply (Del_all_res_scope sample_Mk_spq sample_forward_info
           sample_backward_info sample_addresses "root" sample_inventory
           "alice" (λ _, 95%Z) sample_nw 0 0).
  apply sample_inventory_keyed.
Defined.

Lemma push_reservations_all_pushed_witness :
  push_reservations sample_Mk_spq sample_forward_info sample_backward_info
    sample_addresses (Build_Inventory {[ "res1" := Set_pushed sample_pledge ]})
  = Ret (size (cache (Build_Inventory
                        {[ "res1" := Set_pushed sample_pledge ]})),
         Build_Inventory {[ "res1" := Set_pushed sample_pledge ]}).
Proof.
  apply (push_reservations_all_pushed sample_Mk_spq sample_forward_info
           sample_backward_info sample_addresses).
  intros k p. simpl. intros [_ <-]%lookup_singleton_Some. reflexivity.
Defined.

Lemma push_reservations_result_witness :
  0 = length (filter (λ e : string * Pledge nat string string,
                        Is_pushed e.2 = true)
                (map_to_list (cache sample_inventory)))
  ∧ ∀ k, cache (Build_Inventory (Set_pushed <$> cache sample_inventory)) !! k
         = cache sample_inventory !! k
         ∨ ∃ p, cache sample_inventory !! k = Some p ∧ Is_pushed p = false
                ∧ cache (Build_Inventory (Set_pushed <$> cache sample_inventory))
                    !! k = Some (Set_pushed p).
Proof.
  apply (push_reservations_result sample_Mk_spq sample_forward_info
           sample_backward_info sample_addresses sample_inventory
           (λ _, 95%Z) sample_nw 0 0).
  vm_compute. reflexivity.
Defined.

Lemma failed_push_restores_witness :
  ∃ rname p inv'',
    default fq_init (requests sample_push_events !! 4) FQ_ID = VStr rname
    ∧ cache sample_inventory !! rname = Some p ∧ Is_pushed p = false
    ∧ failed_push (Build_Inventory (Set_pushed <$> cache sample_inventory))
        (default fq_init (requests sample_push_events !! 4)) = Some inv''
    ∧ cache inv'' !! rname = Some p
    ∧ ∀ k, k ≠ rname →
        cache inv'' !! k
        = cache (Build_Inventory (Set_pushed <$> cache sample_inventory)) !! k.
Proof.
  apply (failed_push_restores sample_Mk_spq sample_forward_info
           sample_backward_info sample_addresses sample_inventory
           (λ _, 95%Z) sample_nw 0 0 0 _ sample_push_events).
  - vm_compute. reflexivity.
  - apply (list_elem_of_lookup_2 _ 14). vm_compute. reflexivity.
Defined.

Lemma pause_then_push_witness :
  ((∀ k, cache (pause_on sample_inventory) !! k
         = (λ p : Pledge nat string string,
              {| id := id p; usrkey := usrkey p; window := window p;
                  pushed := false; paused := true;
                  host1 := host1 p; host2 := host2 p;
                  tpport1 := tpport1 p; tpport2 := tpport2 p;
                  dscp := dscp p; bandw_in := bandw_in p;
                  bandw_out := bandw_out p; path_list := path_list p |})
             <$> cache sample_inventory !! k)
   ∧ (∀ k, cache (pause_off sample_inventory) !! k
           = (λ p : Pledge nat string string,
                {| id := id p; usrkey := usrkey p; window := window p;
                  pushed := false; paused := false;
                  host1 := host1 p; host2 := host2 p;
                  tpport1 := tpport1 p; tpport2 := tpport2 p;
                  dscp := dscp p; bandw_in := bandw_in p;
                  bandw_out := bandw_out p; path_list := path_list p |})
               <$> cache sample_inventory !! k)
   ∧ (∀ d, Ev_fq d ∈ (run (λ _, 95%Z) sample_nw
                        (push_reservations sample_Mk_spq sample_forward_info
                           sample_backward_info sample_addresses
                           (pause_on sample_inventory)) 0 0).2 →
        d FQ_EXPIRY = VInt (95 + 15))
   ∧ (∀ d, Ev_fq d ∈ (run (λ _, 95%Z) sample_nw
                        (push_reservations sample_Mk_spq sample_forward_info
                           sample_backward_info sample_addresses
                           (pause_off sample_inventory)) 0 0).2 →
        ∃ rname p, cache sample_inventory !! rname = Some p
                   ∧ d FQ_ID = VStr rname
                   ∧ d FQ_EXPIRY = VInt (expiry (window p))))
  ∧ length (requests (run (λ _, 95%Z) sample_nw
                        (push_reservations sample_Mk_spq sample_forward_info
                           sample_backward_info sample_addresses
                           (pause_on sample_inventory)) 0 0).2) = 8
  ∧ length (requests (run (λ _, 95%Z) sample_nw
                        (push_reservations sample_Mk_spq sample_forward_info
                           sample_backward_info sample_addresses
                           (pause_off sample_inventory)) 0 0).2) = 8.
Proof.
  split; [|split; vm_compute; reflexivity].
  apply (pause_then_push sample_Mk_spq sample_forward_info
           sample_backward_info sample_addresses sample_inventory 95
           sample_nw 0 0).
  unfold Int64.in_range, Int64.min_int, Int64.max_int. lia.
Defined.

Lemma queue_check_notices_witness :
  ∃ r tr,
    run (λ _, 100%Z) sample_nw (queue_check (Spq:=spq) sample_inventory 99) 0 0
    = (Some (r, 100%Z), tr)
    ∧ (r = true
       ↔ ∃ k p, cache sample_inventory !! k = Some p
                ∧ ((99 <= expiry (window p) < 100)%Z
                   ∨ ((99 <= commence (window p) <= 100)%Z
                      ∧ (100 < expiry (window p))%Z)
                   ∨ commence (window p) = 100%Z)).
Proof.
  apply (queue_check_notices sample_inventory 99 100 sample_nw 0 0);
    unfold Int64.in_range, Int64.min_int, Int64.max_int; lia.
Defined.
End ResMgrMore.

Module AgentMgrMore.
Import AgentMgr.

Lemma consistent_length ad :
  consistent ad → length (agent_list ad) = size (agents ad).
Proof.
  intros (-> & _ & _). by rewrite length_fmap, length_map_to_list.
Qed.

Lemma consistent_connected ad i a :
  consistent ad → agent_list ad !! i = Some a → id a ∈ dom (agents ad).
Proof.
  intros (Hl & _ & Hid) Ha. rewrite Hl in Ha.
  apply list_elem_of_lookup_2, list_elem_of_fmap in Ha
    as ([k a'] & -> & Hin%elem_of_map_to_list).
  simpl. rewrite (Hid _ _ Hin). apply elem_of_dom. eauto.
Qed.

Lemma build_list_consistent ad :
  (∀ k a, agents ad !! k = Some a → id a = k) → consistent (build_list ad).
Proof.
  intros Hid. unfold build_list, consistent. simpl.
  split; [done|]. split; [|done]. case_decide; [by right | left; lia].
Qed.

Lemma sendbytes2one_ok ad msg :
  consistent ad → sends_ok ad (sendbytes2one ad msg).
Proof.
  intros Hc. pose proof (consistent_length ad Hc) as Hlen.
  unfold sendbytes2one, sends_ok.
  case_decide as Hl.
  { exists ad, []. split; [done|]. split; [done|]. split; [done|].
    intros w Hw. by apply elem_of_nil in Hw. }
  destruct Hc as (Hlist & Hidx & Hid).
  destruct (lookup_lt_is_Some_2 (agent_list ad) (aidx ad)) as [a Ha]; [lia|].
  rewrite Ha. simpl. eexists _, _. split; [reflexivity|].
  split; [|split; [done|]].
  - split; [done|]. split; [|done]. simpl. left.
    repeat case_decide; lia.
  - intros w ->%list_elem_of_singleton. simpl.
    by apply (consistent_connected ad (aidx ad)).
Qed.

Lemma sendbytes2lra_ok ad msg :
  consistent ad → sends_ok ad (sendbytes2lra ad msg).
Proof.
  intros Hc. pose proof (consistent_length ad Hc) as Hlen.
  unfold sendbytes2lra, sends_ok.
  case_decide as Hl.
  { exists ad, []. split; [done|]. split; [done|]. split; [done|].
    intros w Hw. by apply elem_of_nil in Hw. }
  destruct (lookup_lt_is_Some_2 (agent_list ad) 0) as [a Ha]; [lia|].
  rewrite Ha. simpl. eexists _, _. split; [reflexivity|].
  split; [done|]. split; [done|].
  intros w ->%list_elem_of_singleton. simpl.
  by apply (consistent_connected ad 0).
Qed.

Lemma send2all_ok ad msg : consistent ad → sends_ok ad (send2all ad msg).
Proof.
  intros Hc. unfold send2all, sends_ok. eexists _, _.
  split; [reflexivity|]. split; [done|]. split; [done|].
  intros w ([k a] & -> & Hin%elem_of_map_to_list)%list_elem_of_fmap.
  simpl. apply elem_of_dom. eauto.
Qed.

Lemma send_mac2phost_ok ad hlist :
  consistent ad → sends_ok ad (send_mac2phost ad hlist).
Proof.
  intros Hc. unfold send_mac2phost.
  destruct hlist as [h|]; [case_bool_decide|];
    [| by apply sendbytes2lra_ok |];
    (exists ad, []; split; [done|]; split; [done|]; split; [done|];
     intros w Hw; by apply elem_of_nil in Hw).
Qed.

Lemma send_intermedq_ok ad hlist dscp :
  consistent ad → sends_ok ad (send_intermedq ad hlist dscp).
Proof.
  intros Hc. unfold send_intermedq.
  destruct hlist as [h|]; [case_bool_decide|];
    [| by apply sendbytes2lra_ok |];
    (exists ad, []; split; [done|]; split; [done|]; split; [done|];
     intros w Hw; by apply elem_of_nil in Hw).
Qed.

Lemma idle_ok st a :
  consistent (adata st) →
  open_after (dom (agents (adata st))) a = dom (agents (adata st)) →
  turn_ok st a (Some (st, [])).
Proof.
  intros Hc Ho. exists st, []. split; [done|]. split; [done|].
  split; [done|]. intros w Hw. by apply elem_of_nil in Hw.
Qed.

Lemma with_adata_ok st a r :
  open_after (dom (agents (adata st))) a = dom (agents (adata st)) →
  sends_ok (adata st) r → turn_ok st a (with_adata st r).
Proof.
  intros Ho (ad' & ws & -> & Hc & Hag & Hws). simpl.
  eexists _, _. split; [reflexivity|]. simpl.
  split; [done|]. split; [by rewrite Hag, Ho|].
  intros w Hw. rewrite Hag. by apply Hws.
Qed.

Lemma on_request_ok st req :
  consistent (adata st) → turn_ok st (Request req) (on_request st req).
Proof.
  intros Hc. destruct req as [|[msg|]|[msg|]|[msg|]| |[h|]|];
    cbv [on_request]; try (by apply idle_ok).
  - apply with_adata_ok; [done|]. by apply send2all_ok.
  - apply with_adata_ok; [done|]. by apply sendbytes2one_ok.
  - apply with_adata_ok; [done|]. by apply sendbytes2one_ok.
  - case_bool_decide; [by apply idle_ok|].
    apply with_adata_ok; [done|]. by apply send_mac2phost_ok.
  - eexists _, []. split; [reflexivity|]. simpl. split; [done|].
    split; [done|]. intros w Hw. by apply elem_of_nil in Hw.
  - case_bool_decide; [by apply idle_ok|].
    apply with_adata_ok; [done|]. by apply send_intermedq_ok.
Qed.

Lemma on_session_ok st sreq :
  consistent (adata st) → turn_ok st (Session sreq) (on_session st sreq).
Proof.
  intros Hc. pose proof Hc as (_ & _ & Hid).
  destruct sreq as [|sid|sid]; cbv [on_session Mk_agent];
    cbn [adata host_list dscp_list].
  - by apply idle_ok.
  - set (ad := build_list _).
    assert (Hc' : consistent ad).
    { apply build_list_consistent. simpl. intros k a.
      rewrite lookup_insert. case_decide as Hk.
      - intros [= <-]. done.
      - apply Hid. }
    assert (Hdom : dom (agents ad) = {[ sid ]} ∪ dom (agents (adata st))).
    { unfold ad. simpl. by rewrite dom_insert_L. }
    case_bool_decide as Hh.
    { eexists _, []. split; [reflexivity|]. simpl. split; [done|].
      split; [done|]. intros w Hw. by apply elem_of_nil in Hw. }
    destruct (send_mac2phost_ok ad (Some (host_list st)) Hc')
      as (ad1 & w1 & Hs1 & Hc1 & Hag1 & Hw1).
    rewrite Hs1. unfold with_adata.
    cbn [mbind option_bind adata host_list dscp_list].
    destruct (send_intermedq_ok ad1 (Some (host_list st)) (dscp_list st) Hc1)
      as (ad2 & w2 & Hs2 & Hc2 & Hag2 & Hw2).
    rewrite Hs2. cbn [mbind option_bind].
    eexists _, _. split; [reflexivity|]. simpl. split; [done|].
    split; [by rewrite Hag2, Hag1|].
    intros w [Hw|Hw]%elem_of_app; rewrite Hag2, ?Hag1.
    + by apply Hw1.
    + rewrite <- Hag1. by apply Hw2.
  - eexists _, []. split; [reflexivity|]. simpl.
    split; [|split].
    + apply build_list_consistent. simpl. intros k a Hk.
      apply lookup_delete_Some in Hk as [_ Hk]. by apply Hid.
    + by rewrite dom_delete_L.
    + intros w Hw. by apply elem_of_nil in Hw.
Qed.

Lemma Agent_mgr_ok st arrivals :
  consistent (adata st) →
  ∃ st' wss,
    Agent_mgr st arrivals = Some (st', wss)
    ∧ consistent (adata st')
    ∧ length wss = length arrivals
    ∧ dom (agents (adata st'))
      = open_sessions (dom (agents (adata st))) arrivals
    ∧ ∀ i ws w, wss !! i = Some ws → w ∈ ws →
        w.1 ∈ open_sessions (dom (agents (adata st))) (take (S i) arrivals).
Proof.
  revert st. induction arrivals as [|a rest IH]; intros st Hc.
  - exists st, []. split; [done|]. split; [done|]. split; [done|].
    split; [done|]. intros i ws w Hi. by rewrite lookup_nil in Hi.
  - assert (Hstep : turn_ok st a (step st a)).
    { destruct a; [by apply on_request_ok | by apply on_session_ok]. }
    destruct Hstep as (st1 & ws1 & Hs1 & Hc1 & Hdom1 & Hw1).
    destruct (IH st1 Hc1) as (st2 & wss & Hrun & Hc2 & Hlen & Hdom2 & Hw2).
    simpl. rewrite Hs1. simpl. rewrite Hrun. simpl.
    eexists _, _. split; [reflexivity|]. split; [done|].
    split; [simpl; by rewrite Hlen|].
    unfold open_sessions in *. simpl. rewrite <- Hdom1.
    split; [done|].
    intros [|i] ws w Hi Hw; simpl in Hi.
    + injection Hi as <-. rewrite take_0. simpl. by apply Hw1.
    + by apply (Hw2 i ws).
Qed.

(** X22.  The loop of [Agent_mgr] never indexes the list of agents out of
    range: started with no agent, it gets through any sequence of requests
    and session events, each arrival causing a (possibly empty) list of
    writes.  The agents it holds are the sessions announced and not since
    dropped, and every write goes to a session that is open when the write
    is made. *)
Theorem Agent_mgr_never_panics dscp arrivals :
  ∃ st wss,
    Agent_mgr (init_state dscp) arrivals = Some (st, wss)
    ∧ length wss = length arrivals
    ∧ dom (agents (adata st)) = open_sessions ∅ arrivals
    ∧ ∀ i ws w, wss !! i = Some ws → w ∈ ws →
        w.1 ∈ open_sessions ∅ (take (S i) arrivals).
Proof.
  destruct (Agent_mgr_ok (init_state dscp) arrivals)
    as (st & wss & Hrun & _ & Hlen & Hdom & Hw).
  { split; [done|]. split; [by right|]. intros k a. simpl.
    by rewrite lookup_empty. }
  exists st, wss. simpl in Hdom, Hw. rewrite dom_empty_L in Hdom, Hw. done.
Qed.

(** X23.  [send2all] writes the message once to every connected agent and
    to nothing else, and leaves the round robin where it is. *)
Theorem send2all_each_once ad msg :
  ∃ ws, send2all ad msg = Some (ad, ws)
        ∧ NoDup ws.*1
        ∧ (∀ k, k ∈ ws.*1 ↔ k ∈ dom (agents ad))
        ∧ ∀ w, w ∈ ws → w.2 = Bytes msg.
Proof.
  unfold send2all. eexists. split; [reflexivity|].
  assert (Hfst : ((λ kv : string * agent, (kv.1, Bytes msg))
                    <$> map_to_list (agents ad)).*1
                 = (map_to_list (agents ad)).*1).
  { rewrite <- list_fmap_compose. by apply list_fmap_ext. }
  rewrite Hfst. split; [apply NoDup_fst_map_to_list|]. split.
  - intros k. rewrite elem_of_dom. split.
    + intros ([k' a] & -> & Hin%elem_of_map_to_list)%list_elem_of_fmap. eauto.
    + intros [a Ha]. apply list_elem_of_fmap. exists (k, a).
      split; [done | by apply elem_of_map_to_list].
  - by intros w ([k a] & -> & _)%list_elem_of_fmap.
Qed.

Lemma succ_mod x m :
  0 < m →
  S x mod m = if decide (S (x mod m) = m) then 0 else S (x mod m).
Proof.
  intros Hm. pose proof (Nat.div_mod_eq x m) as Hx.
  pose proof (Nat.mod_upper_bound x m ltac:(lia)) as Hlt.
  case_decide as Hd; symmetry.
  - apply (Nat.mod_unique _ _ (S (x / m))); [lia|nia].
  - apply (Nat.mod_unique _ _ (x / m)); [lia|nia].
Qed.

(** One short request, with more than one agent connected and the round
    robin past the first agent. *)
Lemma short_request_next st msg x :
  let ad := adata st in
  length (agent_list ad) = size (agents ad) → 2 ≤ size (agents ad) →
  aidx ad = 1 + x mod (size (agents ad) - 1) →
  ∃ a st',
    step st (Request (REQ_SENDSHORT (Some msg)))
    = Some (st', [(id a, Bytes msg)])
    ∧ agent_list ad !! (1 + x mod (size (agents ad) - 1)) = Some a
    ∧ agents (adata st') = agents ad
    ∧ agent_list (adata st') = agent_list ad
    ∧ aidx (adata st') = 1 + S x mod (size (agents ad) - 1).
Proof.
  intros ad Hlen Hl Hi.
  pose proof (Nat.mod_upper_bound x (size (agents ad) - 1) ltac:(lia)) as Hlt.
  cbv [step on_request send2one sendbytes2one]. fold ad.
  case_decide; [lia|].
  destruct (lookup_lt_is_Some_2 (agent_list ad) (aidx ad)) as [a Ha]; [lia|].
  rewrite Ha. cbn [mbind option_bind with_adata adata].
  exists a. eexists. split; [reflexivity|]. cbn [adata agents agent_list aidx].
  split; [by rewrite <- Hi|]. split; [done|]. split; [done|].
  rewrite succ_mod by lia. rewrite Hi.
  repeat case_decide; lia.
Qed.

Lemma short_requests_from (ags : gmap string agent) (lst : list agent)
    msg k :
  length lst = size ags → 2 ≤ size ags →
  ∀ st x,
    agents (adata st) = ags → agent_list (adata st) = lst →
    aidx (adata st) = 1 + x mod (size ags - 1) →
    ∃ st' wss,
      Agent_mgr st (replicate k (Request (REQ_SENDSHORT (Some msg))))
      = Some (st', wss)
      ∧ agents (adata st') = ags
      ∧ agent_list (adata st') = lst
      ∧ aidx (adata st') = 1 + (x + k) mod (size ags - 1)
      ∧ ∀ j, j < k →
          ∃ a, lst !! (1 + (x + j) mod (size ags - 1)) = Some a
               ∧ wss !! j = Some [(id a, Bytes msg)].
Proof.
  intros Hlen Hl. induction k as [|k IH]; intros st x Hag Hal Hx.
  - exists st, []. split; [done|]. split; [done|]. split; [done|].
    split; [by rewrite Nat.add_0_r|]. intros j Hj. lia.
  - destruct (short_request_next st msg x)
      as (a & st1 & Hstep & Ha & Hag1 & Hal1 & Hx1);
      [by rewrite Hag, Hal | by rewrite Hag | by rewrite Hag |].
    rewrite Hag in Ha, Hag1, Hx1. rewrite Hal in Ha, Hal1.
    destruct (IH st1 (S x) Hag1 Hal1 Hx1)
      as (st2 & wss & Hrun & Hag2 & Hal2 & Hx2 & Hw).
    simpl replicate. cbn [Agent_mgr]. rewrite Hstep.
    cbn [mbind option_bind]. rewrite Hrun. cbn [mbind option_bind].
    eexists _, _. split; [reflexivity|]. split; [done|]. split; [done|].
    split; [by replace (x + S k) with (S x + k) by lia|].
    intros [|j] Hj.
    + exists a. by rewrite Nat.add_0_r.
    + destruct (Hw j) as (b & Hb & Hwj); [lia|].
      exists b. by replace (x + S j) with (S x + j) by lia.
Qed.

(** X24.  The round robin of short requests.  With [l >= 2] agents
    connected and the index past the first agent, a run of [k] short
    requests returns, and the [j]-th of them is written to the agent at
    index [1 + (aidx - 1 + j) mod (l - 1)] of the list: the requests go
    round the agents at indices 1 to [l - 1] in turn, and the first agent
    of the list, the long running one, gets none of them. *)
Theorem short_requests_round_robin st msg k :
  length (agent_list (adata st)) = size (agents (adata st)) →
  2 ≤ size (agents (adata st)) →
  1 ≤ aidx (adata st) < size (agents (adata st)) →
  ∃ st' wss,
    Agent_mgr st (replicate k (Request (REQ_SENDSHORT (Some msg))))
    = Some (st', wss)
    ∧ agents (adata st') = agents (adata st)
    ∧ agent_list (adata st') = agent_list (adata st)
    ∧ aidx (adata st')
      = 1 + (aidx (adata st) - 1 + k) mod (size (agents (adata st)) - 1)
    ∧ ∀ j, j < k →
        ∃ a, agent_list (adata st)
               !! (1 + (aidx (adata st) - 1 + j)
                         mod (size (agents (adata st)) - 1)) = Some a
             ∧ wss !! j = Some [(id a, Bytes msg)].
Proof.
  intros Hlen Hl Hi.
  apply (short_requests_from (agents (adata st)) (agent_list (adata st))
           msg k Hlen Hl st (aidx (adata st) - 1)); [done | done |].
  rewrite Nat.mod_small by lia. lia.
Qed.

Lemma short_requests_round_robin_witness :
  let st := {| adata := {| agents := {[ "a" := {| id := "a" |};
                                        "b" := {| id := "b" |};
                                        "c" := {| id := "c" |} ]};
                           agent_list := [ {| id := "a" |}; {| id := "b" |};
                                           {| id := "c" |} ];
                           aidx := 2 |};
               host_list := ""; dscp_list := "" |} in
  ∃ st' wss,
    Agent_mgr st (replicate 3 (Request (REQ_SENDSHORT (Some "m"))))
    = Some (st', wss)
    ∧ agents (adata st') = agents (adata st)
    ∧ agent_list (adata st') = agent_list (adata st)
    ∧ aidx (adata st')
      = 1 + (aidx (adata st) - 1 + 3) mod (size (agents (adata st)) - 1)
    ∧ ∀ j, j < 3 →
        ∃ a, agent_list (adata st)
               !! (1 + (aidx (adata st) - 1 + j)
                         mod (size (agents (adata st)) - 1)) = Some a
             ∧ wss !! j = Some [(id a, Bytes "m")].
Proof.
  intros st.
  apply (short_requests_round_robin st "m" 3).
  - vm_compute. reflexivity.
  - vm_compute. lia.
  - vm_compute. lia.
Defined.
End AgentMgrMore.

Module FqSteerMore.
Import FqSteer.
Local Open Scope Z_scope.

Lemma normal_Pri data :
  let d := if Pri data <=? 0 then with_Pri data 100 else data in
  0 < Pri d ∧ (if Pri d <=? 0 then with_Pri d 100 else d) = d
  ∧ (0 < Pri data → d = data).
Proof.
  simpl. destruct (Z.leb_spec (Pri data) 0) as [Hle|Hgt]; simpl.
  - split; [lia|]. split; [done|]. lia.
  - destruct (Z.leb_spec (Pri data) 0); [lia|]. split; [lia|]. done.
Qed.

(** X25.  [send_stfmod_agent] writes a priority back into the request only
    to make it positive.  The request it leaves has a positive priority and
    is the request given when that one had a positive priority; sending the
    request it leaves once more gives the same messages and the same
    request. *)
Theorem send_stfmod_agent_again data ip2mac hlist data' msgs :
  send_stfmod_agent data ip2mac hlist = Some (data', msgs) →
  0 < Pri data'
  ∧ (0 < Pri data → data' = data)
  ∧ send_stfmod_agent data' ip2mac hlist = Some (data', msgs).
Proof.
  intros Hcall.
  destruct (FqSteerFacts.send_stfmod_agent_msgs _ _ _ _ _ Hcall) as [Hd _].
  destruct (normal_Pri data) as (Hpos & Hfix & Hsame).
  rewrite <- Hd in Hpos, Hfix, Hsame.
  split; [done|]. split; [done|].
  unfold send_stfmod_agent in *. rewrite Hfix. by rewrite <- Hd in Hcall.
Qed.

(** The translation of an address fails exactly when no MAC is given,
    an IP address is, and the map has no MAC for that address. *)
Lemma mac_of_None (given ip : option string)
    (ip2mac : gmap string (option string)) :
  mac_of given ip ip2mac = None
  ↔ given = None
    ∧ ∃ a, ip = Some a ∧ (ip2mac !! a = None ∨ ip2mac !! a = Some None).
Proof.
  unfold mac_of. destruct given as [g|]; [by split; [|intros [? _]]|].
  destruct ip as [a|]; [|by split; [|intros (_ & ? & ? & _)]].
  destruct (ip2mac !! a) as [[mac|]|] eqn:Ha; simpl.
  - split; [done|]. intros (_ & a' & [= <-] & [H|H]); congruence.
  - split; [|done]. intros _. split; [done|]. exists a. auto.
  - split; [|done]. intros _. split; [done|]. exists a. auto.
Qed.

(** X26.  How many flow-mods [send_stfmod_agent] sends.  When no source
    MAC is given, a source IP address is, and the map has no MAC for that
    address (no entry, or a nil one), nothing is sent, though the priority
    is still written back; the same holds of the destination.  Otherwise
    a request with a switch id sends exactly one flow-mod; a request
    without one sends a flow-mod for every piece of the host list, one
    more than the list has blanks, so an empty list still sends one, for
    the empty host name; and a request without switch id and with a nil
    host list panics. *)
Theorem send_stfmod_agent_count data ip2mac hlist :
  let r := send_stfmod_agent data ip2mac hlist in
  let d := if Pri data <=? 0 then with_Pri data 100 else data in
  let unresolved (given ip : option string) :=
    given = None
    ∧ ∃ a, ip = Some a ∧ (ip2mac !! a = None ∨ ip2mac !! a = Some None) in
  (unresolved (Smac (Match data)) (Ip1 (Match data))
   ∨ unresolved (Dmac (Match data)) (Ip2 (Match data)) →
   r = Some (d, []))
  ∧ (¬ unresolved (Smac (Match data)) (Ip1 (Match data)) →
     ¬ unresolved (Dmac (Match data)) (Ip2 (Match data)) →
     match Swid data, hlist with
     | Some _, _ => ∃ m, r = Some (d, [m])
     | None, Some hl =>
         ∃ msgs, r = Some (d, msgs)
                 ∧ length msgs = S (GoStrings.count_sp hl)
     | None, None => r = None
     end).
Proof.
  intros r d unresolved. unfold r, send_stfmod_agent. fold d.
  assert (Hm : Match d = Match data) by (unfold d; by destruct (_ <=? _)).
  assert (Hs : Swid d = Swid data) by (unfold d; by destruct (_ <=? _)).
  rewrite Hm, Hs.
  pose proof (mac_of_None (Smac (Match data)) (Ip1 (Match data)) ip2mac)
    as HS.
  pose proof (mac_of_None (Dmac (Match data)) (Ip2 (Match data)) ip2mac)
    as HD.
  fold (unresolved (Smac (Match data)) (Ip1 (Match data))) in HS.
  fold (unresolved (Dmac (Match data)) (Ip2 (Match data))) in HD.
  destruct (mac_of (Smac _) _ _) as [smac|].
  - destruct (mac_of (Dmac _) _ _) as [dmac|].
    + split.
      * intros [H|H]; [by apply HS in H | by apply HD in H].
      * intros _ _. destruct (Swid data) as [swid|]; [by eexists|].
        destruct hlist as [hl|]; simpl; [|done].
        eexists. split; [reflexivity|].
        by rewrite length_fmap, GoStringsFacts.length_Split_sp.
    + split; [done|]. intros _ H. destruct H. by apply HD.
  - split; [done|]. intros H. destruct H. by apply HS.
Qed.

(** X27.  A MAC address given in the match parameters wins over the IP
    address.  When both the source and the destination MAC are given, the
    map from IP addresses to MAC addresses plays no part in the result,
    and the command of every message sent matches on the MACs given: its
    match options are [--match], the metadata and inbound port options,
    [-s] with the source MAC given, [-d] with the destination MAC given,
    then the transport options. *)
Theorem send_stfmod_agent_given_macs data ip2mac hlist s t :
  Smac (Match data) = Some s → Dmac (Match data) = Some t →
  (∀ ip2mac',
     send_stfmod_agent data ip2mac hlist = send_stfmod_agent data ip2mac' hlist)
  ∧ ∀ data' msgs,
      send_stfmod_agent data ip2mac hlist = Some (data', msgs) →
      ∀ m, m ∈ msgs →
        ∃ target,
          m = "{ " +:+ dquote +:+ "ctype" +:+ dquote +:+ ": " +:+ dquote
              +:+ "action_list" +:+ dquote +:+ ", " +:+ dquote +:+ "actions"
              +:+ dquote +:+ ": [ { " +:+ dquote +:+ "atype" +:+ dquote
              +:+ ": " +:+ dquote +:+ "flowmod" +:+ dquote +:+ ", " +:+ dquote
              +:+ "fdata" +:+ dquote +:+ ": [ "
              +:+ (dquote +:+ ("-h " +:+ target +:+ " -t " +:+ pretty (Expiry data)
                                +:+ " -p " +:+ pretty (Pri data') +:+ " "
                                +:+ ("--match" +:+ meta_opt (Meta (Match data))
                                       +:+ inport_opt data
                                       +:+ " -s " +:+ s +:+ " -d " +:+ t
                                       +:+ tp_opt " -p " (Protocol data) (Tpsport (Match data))
                                       +:+ tp_opt " -P " (Protocol data) (Tpdport (Match data)))
                                +:+ " " +:+ action_opts data' +:+ " add 0xe5d br-int") +:+ dquote) +:+ " ] } ] }".
Proof.
  intros Hs Ht. split.
  - intros ip2mac'. unfold send_stfmod_agent.
    set (d := if Pri data <=? 0 then with_Pri data 100 else data).
    assert (Hm : Match d = Match data) by (unfold d; by destruct (_ <=? _)).
    rewrite Hm, Hs, Ht. done.
  - intros data' msgs Hcall m Hin.
    destruct (FqSteerFacts.send_stfmod_agent_msgs _ _ _ _ _ Hcall)
      as [Hd Hmsgs].
    assert (Hm : Match data' = Match data)
      by (rewrite Hd; by destruct (_ <=? _)).
    assert (Hl : Lbmac data' = Lbmac data)
      by (rewrite Hd; by destruct (_ <=? _)).
    assert (Hp : Protocol data' = Protocol data)
      by (rewrite Hd; by destruct (_ <=? _)).
    destruct Hmsgs as [-> | (smac & dmac & Hsm & Hdm & Hall)];
      [by apply elem_of_nil in Hin|].
    rewrite Hs in Hsm. rewrite Ht in Hdm. simpl in Hsm, Hdm.
    injection Hsm as <-. injection Hdm as <-.
    destruct (Hall m Hin) as [target ->]. exists target.
    unfold fmod_json, match_opts, match_tail, inport_opt.
    rewrite Hm, Hl, Hp. reflexivity.
Qed.

Import Samples.

Lemma send_stfmod_agent_again_witness :
  0 < Pri (with_Pri sample_steer 100)
  ∧ (0 < Pri sample_steer → with_Pri sample_steer 100 = sample_steer)
  ∧ send_stfmod_agent (with_Pri sample_steer 100) sample_ip2mac None
    = Some (with_Pri sample_steer 100,
            [fmod_json "ovs-host1" 3600 100
               "--match -m 0x01/0x01 -i fa:16:3e:aa:bb:cc -s fa:16:3e:00:00:04 -P tcp:80"
               "--action  -d fa:16:3e:11:22:33 -m 0x02 -R ,10 -R ,90 -N"]).
Proof.
  apply (send_stfmod_agent_again sample_steer sample_ip2mac None).
  vm_compute. reflexivity.
Defined.

Lemma send_stfmod_agent_given_macs_witness :
  let m := {| Meta := None; Swport := 3; Smac := Some "fa:16:3e:00:00:01";
              Dmac := Some "fa:16:3e:00:00:02"; Ip1 := Some "10.0.0.4";
              Ip2 := None; Tpsport := -1; Tpdport := -1; Resub := None |} in
  let data := {| Pri := 10; Table := 0; Expiry := 60; Swid := Some "sw";
                 Lbmac := None; Nxt_mac := None; Protocol := None;
                 Match := m; Action := m |} in
  send_stfmod_agent data sample_ip2mac None
  = Some (data,
          [ "{ " +:+ dquote +:+ "ctype" +:+ dquote +:+ ": " +:+ dquote
            +:+ "action_list" +:+ dquote +:+ ", " +:+ dquote +:+ "actions"
            +:+ dquote +:+ ": [ { " +:+ dquote +:+ "atype" +:+ dquote
            +:+ ": " +:+ dquote +:+ "flowmod" +:+ dquote +:+ ", " +:+ dquote
            +:+ "fdata" +:+ dquote +:+ ": [ "
            +:+ (dquote +:+ "-h sw -t 60 -p 10 --match -i 3 -s fa:16:3e:00:00:01 -d fa:16:3e:00:00:02 --action  -d fa:16:3e:00:00:02 -s fa:16:3e:00:00:01 -N add 0xe5d br-int" +:+ dquote) +:+ " ] } ] }" ])
  ∧ (∀ ip2mac',
       send_stfmod_agent data sample_ip2mac None
       = send_stfmod_agent data ip2mac' None)
  ∧ ∀ data' msgs,
      send_stfmod_agent data sample_ip2mac None = Some (data', msgs) →
      ∀ m, m ∈ msgs →
        ∃ target,
          m = "{ " +:+ dquote +:+ "ctype" +:+ dquote +:+ ": " +:+ dquote
              +:+ "action_list" +:+ dquote +:+ ", " +:+ dquote +:+ "actions"
              +:+ dquote +:+ ": [ { " +:+ dquote +:+ "atype" +:+ dquote
              +:+ ": " +:+ dquote +:+ "flowmod" +:+ dquote +:+ ", " +:+ dquote
              +:+ "fdata" +:+ dquote +:+ ": [ "
              +:+ (dquote +:+ ("-h " +:+ target +:+ " -t " +:+ pretty (Expiry data)
                                +:+ " -p " +:+ pretty (Pri data') +:+ " "
                                +:+ ("--match" +:+ meta_opt (Meta (Match data))
                                       +:+ inport_opt data
                                       +:+ " -s " +:+ "fa:16:3e:00:00:01"
                                       +:+ " -d " +:+ "fa:16:3e:00:00:02"
                                       +:+ tp_opt " -p " (Protocol data) (Tpsport (Match data))
                                       +:+ tp_opt " -P " (Protocol data) (Tpdport (Match data)))
                                +:+ " " +:+ action_opts data' +:+ " add 0xe5d br-int") +:+ dquote) +:+ " ] } ] }".
Proof.
  intros m data. split; [vm_compute; reflexivity|].
  apply (send_stfmod_agent_given_macs data sample_ip2mac None
           "fa:16:3e:00:00:01" "fa:16:3e:00:00:02");
    reflexivity.
Defined.
End FqSteerMore.

Module PathIntermedFacts.
Import PathM PathMore.

Section Intermediate.
Context {Link Switch Host Info Spq : Type}.
Context (Mk_spq : Info → Spq).
Context (Get_forward_info Get_backward_info : option Link → string → Z → Info).
Implicit Types (pv : Path Link Switch Host) (ts : Z).

(** X28.  [Get_intermed_spq] puts the backward and the forward tuples in
    one slice of 128 slots.  On a well-formed path of up to 65 links it
    returns what [Get_backward_im_spq] returns followed by what
    [Get_forward_im_spq] returns; on a longer path it panics, although each
    of the two lists alone can still be had. *)
Theorem Get_intermed_spq_bound pv ts :
  wf pv →
  (lidx pv ≤ 65 →
     ∃ bs fs,
       Get_backward_im_spq Mk_spq Get_backward_info pv ts = Some bs
       ∧ Get_forward_im_spq Mk_spq Get_forward_info pv ts = Some fs
       ∧ Get_intermed_spq Mk_spq Get_forward_info Get_backward_info pv ts
         = Some (bs ++ fs))
  ∧ (65 < lidx pv →
       Get_intermed_spq Mk_spq Get_forward_info Get_backward_info pv ts
       = None).
Proof.
  intros (Hl & _ & _).
  unfold Get_intermed_spq, Get_backward_im_spq, Get_forward_im_spq.
  set (bi := if is_reverse pv then reverse (seq 1 (lidx pv - 1))
             else seq 0 (lidx pv - 1)).
  set (fi := if is_reverse pv then reverse (seq 0 (lidx pv - 1))
             else seq 1 (lidx pv - 1)).
  assert (Hbl : length bi = lidx pv - 1).
  { unfold bi. destruct (is_reverse pv);
      by rewrite ?length_reverse, length_seq. }
  assert (Hfl : length fi = lidx pv - 1).
  { unfold fi. destruct (is_reverse pv);
      by rewrite ?length_reverse, length_seq. }
  rewrite Hbl, Hfl. split.
  - intros Hn. case_decide; [lia|].
    destruct (collect_spq_bound Mk_spq Get_backward_info "priority-in"
                pv ts bi) as [(bs & Hbs & _) _]; [|lia|].
    { intros i Hi. unfold bi in Hi. destruct (is_reverse pv) eqn:Hr.
      - apply (im_indices_in_range pv true 1 i); [lia | done | done].
      - apply (im_indices_in_range pv false 0 i); [lia | done | done]. }
    destruct (collect_spq_bound Mk_spq Get_forward_info "priority-out"
                pv ts fi) as [(fs & Hfs & _) _]; [|lia|].
    { intros i Hi. unfold fi in Hi. destruct (is_reverse pv) eqn:Hr.
      - apply (im_indices_in_range pv true 0 i); [lia | done | done].
      - apply (im_indices_in_range pv false 1 i); [lia | done | done]. }
    exists bs, fs. split; [done|]. split; [done|].
    unfold collect_spq in Hbs, Hfs.
    rewrite decide_False in Hbs by lia. rewrite decide_False in Hfs by lia.
    rewrite Hbs. simpl. rewrite Hfs. done.
  - intros Hn. case_decide; [done|lia].
Qed.
End Intermediate.

Lemma Get_intermed_spq_bound_witness :
  ∃ bs fs,
    Get_backward_im_spq Samples.sample_Mk_spq Samples.sample_backward_info
      Samples.sample_path 116 = Some bs
    ∧ Get_forward_im_spq Samples.sample_Mk_spq Samples.sample_forward_info
        Samples.sample_path 116 = Some fs
    ∧ Get_intermed_spq Samples.sample_Mk_spq Samples.sample_forward_info
        Samples.sample_backward_info Samples.sample_path 116
      = Some (bs ++ fs).
Proof.
  apply (Get_intermed_spq_bound Samples.sample_Mk_spq
           Samples.sample_forward_info Samples.sample_backward_info
           Samples.sample_path 116).
  - repeat apply PathFacts.add_switch_wf. repeat apply PathFacts.add_link_wf.
    apply PathFacts.new_path_wf.
  - simpl. lia.
Defined.
End PathIntermedFacts.
